(** * A line-numbered BASIC: lexer, parser, interpreter and Go back end

    Shallow embedding of the packages [token], [lexer], [ast], [parser],
    [evaluator] and [compiler].  Go's [int] is [Z] (or [nat] for the lexer's
    byte offsets and line counter, which only grow from 0), [byte] is
    [ascii], [string] is [string] (a sequence of bytes), [float64] is the
    primitive binary64 [float], and Go maps are [gmap]s. *)

From Stdlib Require Import ZArith Ascii String List Floats Bool Lia.
From stdpp Require Import base option list strings gmap sorting.

Set Warnings "-register-all,-inexact-float".
Local Open Scope string_scope.
Local Open Scope Z_scope.

(** ** Package [token] *)

Module token.

(** [type TokenType string]: the constants of the package are the only
    values the lexer and the parser ever build, plus the zero value [""]
    of a [Token] that was never assigned ([UNSET]). *)
Inductive TokenType : Set :=
| ILLEGAL | EOF | NEWLINE
| IDENT | NUMBER | STRING
| ASSIGN | PLUS | MINUS | MULT | DIV | MOD
| LT | GT | LE | GE | EQ | NE
| LPAREN | RPAREN | COMMA | COLON | SEMICOLON
| PRINT | LET | IF | THEN | ELSE | GOTO | GOSUB | RETURN
| FOR | TO | STEP | NEXT | INPUT | REM | END | DIM
| AND | OR | NOT
| UNSET.

#[global] Instance TokenType_eq_dec : EqDecision TokenType.
Proof. solve_decision. Defined.

(** The string each constant is declared as. *)
Definition text (t : TokenType) : string :=
  match t with
  | ILLEGAL => "ILLEGAL" | EOF => "EOF" | NEWLINE => "NEWLINE"
  | IDENT => "IDENT" | NUMBER => "NUMBER" | STRING => "STRING"
  | ASSIGN => "=" | PLUS => "+" | MINUS => "-" | MULT => "*" | DIV => "/"
  | MOD => "MOD"
  | LT => "<" | GT => ">" | LE => "<=" | GE => ">=" | EQ => "==" | NE => "<>"
  | LPAREN => "(" | RPAREN => ")" | COMMA => "," | COLON => ":"
  | SEMICOLON => ";"
  | PRINT => "PRINT" | LET => "LET" | IF => "IF" | THEN => "THEN"
  | ELSE => "ELSE" | GOTO => "GOTO" | GOSUB => "GOSUB" | RETURN => "RETURN"
  | FOR => "FOR" | TO => "TO" | STEP => "STEP" | NEXT => "NEXT"
  | INPUT => "INPUT" | REM => "REM" | END => "END" | DIM => "DIM"
  | AND => "AND" | OR => "OR" | NOT => "NOT"
  | UNSET => ""
  end.

Record Token : Set := mkToken {
  Type_ : TokenType;
  Literal : string;
  Line : nat
}.

(** The zero value of [Token]. *)
Definition zero : Token := mkToken UNSET "" 0%nat.

(** [var keywords = map[string]TokenType{...}] *)
Definition keywords : list (string * TokenType) :=
  [ ("PRINT", PRINT); ("LET", LET); ("IF", IF); ("THEN", THEN);
    ("ELSE", ELSE); ("GOTO", GOTO); ("GOSUB", GOSUB); ("RETURN", RETURN);
    ("FOR", FOR); ("TO", TO); ("STEP", STEP); ("NEXT", NEXT);
    ("INPUT", INPUT); ("REM", REM); ("END", END); ("DIM", DIM);
    ("AND", AND); ("OR", OR); ("NOT", NOT); ("MOD", MOD) ].

Fixpoint lookup (ident : string) (table : list (string * TokenType))
  : option TokenType :=
  match table with
  | [] => None
  | (k, t) :: rest => if String.eqb k ident then Some t else lookup ident rest
  end.

Definition LookupIdent (ident : string) : TokenType :=
  match lookup ident keywords with
  | Some tok => tok
  | None => IDENT
  end.

End token.

(** ** Bytes and the parts of Go's library the lexer calls *)

Module bytes.

Definition between (lo hi c : ascii) : bool :=
  (Ascii.leb lo c && Ascii.leb c hi)%bool.

(** [unicode.IsLetter(rune(ch))] for a byte [ch], that is for a code point
    below 256: the ASCII letters and the Latin-1 letters
    U+00AA, U+00B5, U+00BA, U+00C0..U+00D6, U+00D8..U+00F6, U+00F8..U+00FF. *)
Definition unicode_IsLetter (c : ascii) : bool :=
  let n := N_of_ascii c in
  ((65 <=? n) && (n <=? 90) || (97 <=? n) && (n <=? 122)
   || (n =? 170) || (n =? 181) || (n =? 186)
   || (192 <=? n) && (n <=? 214) || (216 <=? n) && (n <=? 246)
   || (248 <=? n) && (n <=? 255))%N%bool.

(** ['a'..'z'] to ['A'..'Z'], every other byte unchanged. *)
Definition upper (c : ascii) : ascii :=
  if between "a" "z" c then ascii_of_N (N_of_ascii c - 32) else c.

(** [strings.ToUpper] as the lexer uses it, to look a word up in the
    keyword table.  The table holds ASCII words only, and no rune written
    with the bytes an identifier can hold upper-cases to an ASCII letter
    unless it is one, so upper-casing the ASCII letters decides the lookup. *)
Fixpoint ToUpper (s : string) : string :=
  match s with
  | EmptyString => EmptyString
  | String c rest => String (upper c) (ToUpper rest)
  end.

(** [s[i]], the zero byte when [i] is out of range (callers check). *)
Definition at_ (s : string) (i : nat) : ascii :=
  match String.get i s with
  | Some c => c
  | None => Ascii.zero
  end.

(** [s[lo:hi]] *)
Definition slice (s : string) (lo hi : nat) : string :=
  String.substring lo (hi - lo) s.

End bytes.

(** ** Package [lexer] *)

Module lexer.
Import token bytes.

Record Lexer : Set := mkLexer {
  input : string;
  position : nat;
  readPosition : nat;
  ch : ascii;
  line : nat
}.

Definition readChar (l : Lexer) : Lexer :=
  {| input := input l;
     position := readPosition l;
     readPosition := S (readPosition l);
     ch := if (String.length (input l) <=? readPosition l)%nat
           then Ascii.zero
           else at_ (input l) (readPosition l);
     line := line l |}.

Definition New (input : string) : Lexer :=
  readChar {| input := input; position := 0; readPosition := 0;
              ch := Ascii.zero; line := 1 |}.

Definition peekChar (l : Lexer) : ascii :=
  if (String.length (input l) <=? readPosition l)%nat
  then Ascii.zero
  else at_ (input l) (readPosition l).

Definition isLetter (c : ascii) : bool :=
  (unicode_IsLetter c || Ascii.eqb c "_")%bool.

Definition isDigit (c : ascii) : bool := between "0" "9" c.

Definition isSpace (c : ascii) : bool :=
  (Ascii.eqb c " " || Ascii.eqb c "009" || Ascii.eqb c "013")%bool.

(** [string(ch)] for a byte [ch]: the UTF-8 encoding of the code point
    [ch], which is the byte itself below 128 and two bytes from 128 on. *)
Definition string_of_byte (c : ascii) : string :=
  let n := nat_of_ascii c in
  if (n <? 128)%nat then String c EmptyString
  else String (ascii_of_nat (192 + n / 64))
         (String (ascii_of_nat (128 + n mod 64)) EmptyString).

Definition newToken (tokenType : TokenType) (c : ascii) (line : nat) : Token :=
  mkToken tokenType (string_of_byte c) line.

(** The four scanning loops.  Each turn reads one byte, and a loop stops at
    the latest on the zero byte that [readChar] supplies past the end of the
    input, so the [loop_bound] turns they are given are never used up (lemma
    [scanning_loops_stop]). *)
Definition loop_bound (l : Lexer) : nat := S (S (String.length (input l))).

Fixpoint skipWhitespace_loop (n : nat) (l : Lexer) : Lexer :=
  match n with
  | O => l
  | S n' => if isSpace (ch l) then skipWhitespace_loop n' (readChar l) else l
  end.

Definition skipWhitespace (l : Lexer) : Lexer :=
  skipWhitespace_loop (loop_bound l) l.

Fixpoint readIdentifier_loop (n : nat) (l : Lexer) : Lexer :=
  match n with
  | O => l
  | S n' => if (isLetter (ch l) || isDigit (ch l))%bool
            then readIdentifier_loop n' (readChar l) else l
  end.

Definition readIdentifier (l : Lexer) : string * Lexer :=
  let l' := readIdentifier_loop (loop_bound l) l in
  (slice (input l) (position l) (position l'), l').

Fixpoint readNumber_loop (n : nat) (l : Lexer) : Lexer :=
  match n with
  | O => l
  | S n' => if (isDigit (ch l) || Ascii.eqb (ch l) ".")%bool
            then readNumber_loop n' (readChar l) else l
  end.

Definition readNumber (l : Lexer) : string * Lexer :=
  let l' := readNumber_loop (loop_bound l) l in
  (slice (input l) (position l) (position l'), l').

Definition bump_line (l : Lexer) : Lexer :=
  {| input := input l; position := position l;
     readPosition := readPosition l; ch := ch l; line := S (line l) |}.

Fixpoint readString_loop (n : nat) (l : Lexer) : Lexer :=
  match n with
  | O => l
  | S n' =>
      if (negb (Ascii.eqb (ch l) "034") && negb (Ascii.eqb (ch l) Ascii.zero))%bool
      then readString_loop n'
             (readChar (if Ascii.eqb (ch l) "010" then bump_line l else l))
      else l
  end.

Definition readString (l : Lexer) : string * Lexer :=
  let l1 := readChar l in
  let l' := readString_loop (loop_bound l1) l1 in
  (slice (input l) (position l1) (position l'), l').

(** A two-byte operator: the current byte, then the byte after it. *)
Definition twoChar (t : TokenType) (l : Lexer) : Token * Lexer :=
  let c := ch l in
  let l1 := readChar l in
  (mkToken t (string_of_byte c ++ string_of_byte (ch l1)) (line l1), readChar l1).

Definition oneChar (t : TokenType) (l : Lexer) : Token * Lexer :=
  (newToken t (ch l) (line l), readChar l).

Definition NextToken (l0 : Lexer) : Token * Lexer :=
  let l := skipWhitespace l0 in
  let c := ch l in
  if Ascii.eqb c "=" then
    if Ascii.eqb (peekChar l) "=" then twoChar EQ l else oneChar ASSIGN l
  else if Ascii.eqb c "+" then oneChar PLUS l
  else if Ascii.eqb c "-" then oneChar MINUS l
  else if Ascii.eqb c "*" then oneChar MULT l
  else if Ascii.eqb c "/" then oneChar DIV l
  else if Ascii.eqb c "<" then
    if Ascii.eqb (peekChar l) "=" then twoChar LE l
    else if Ascii.eqb (peekChar l) ">" then twoChar NE l
    else oneChar LT l
  else if Ascii.eqb c ">" then
    if Ascii.eqb (peekChar l) "=" then twoChar GE l else oneChar GT l
  else if Ascii.eqb c "(" then oneChar LPAREN l
  else if Ascii.eqb c ")" then oneChar RPAREN l
  else if Ascii.eqb c "," then oneChar COMMA l
  else if Ascii.eqb c ":" then oneChar COLON l
  else if Ascii.eqb c ";" then oneChar SEMICOLON l
  else if Ascii.eqb c "034" then
    let '(lit, l') := readString l in
    (mkToken STRING lit (line l'), readChar l')
  else if Ascii.eqb c "010" then
    (newToken NEWLINE c (line l), readChar (bump_line l))
  else if Ascii.eqb c Ascii.zero then
    (mkToken EOF "" (line l), readChar l)
  else if isLetter c then
    let '(lit, l') := readIdentifier l in
    (mkToken (LookupIdent (ToUpper lit)) lit (line l'), l')
  else if isDigit c then
    let '(lit, l') := readNumber l in
    (mkToken NUMBER lit (line l'), l')
  else oneChar ILLEGAL l.

(** The tokens that [n] calls of [NextToken] return, stopping after the
    first [EOF]. *)
Fixpoint tokens_from (n : nat) (l : Lexer) : list Token :=
  match n with
  | O => []
  | S n' =>
      let '(tok, l') := NextToken l in
      if decide (Type_ tok = EOF) then [tok] else tok :: tokens_from n' l'
  end.

(** The tokens of a text, asking for one token per byte and two more. *)
Definition tokens (src : string) : list Token :=
  tokens_from (loop_bound (New src)) (New src).

End lexer.


(** ** The parts of Go's standard library the program calls

    [strconv.Atoi], [strconv.ParseFloat], [strings.TrimSpace],
    [strings.Split], [strings.HasSuffix], [math.Mod], the conversion
    [int(f)], and [fmt]'s verbs [%g] and [%d].  They are not code of the
    repository; each definition follows the documented behaviour of the
    function, computed exactly on integers. *)

Module golib.
Import bytes.
Local Open Scope bool_scope.

Definition float64 : Set := float.

Definition of_spec (x : spec_float) : float64 := SF2Prim x.

(** The binary64 nearest to the integer [z] (ties to even). *)
Definition of_Z (z : Z) : float64 :=
  of_spec (binary_normalize prec emax z 0 false).

(** The binary64 nearest to [n / d] with the sign [neg], for [0 <= n] and
    [0 < d] (ties to even): the quotient is taken with more than 64
    significant bits and a sticky last bit, then rounded once. *)
Definition round_ratio (neg : bool) (n d : Z) : spec_float :=
  if n =? 0 then S754_zero neg
  else
    let s := Z.max 0 (66 + Z.log2 d - Z.log2 n) in
    let q := (n * 2 ^ s) / d in
    let sticky := if (n * 2 ^ s) mod d =? 0 then 0 else 1 in
    let m := 2 * q + sticky in
    binary_normalize prec emax (if neg then - m else m) (- s - 1) neg.

(** [int(f)] on amd64: truncation toward zero; a value that does not fit
    in an int64, an infinity and NaN give the smallest int64. *)
Definition int_of_float (f : float64) : Z :=
  match Prim2SF f with
  | S754_zero _ => 0
  | S754_finite s m e =>
      let a := if 0 <=? e then Zpos m * 2 ^ e else Zpos m / 2 ^ (- e) in
      let v := if s then - a else a in
      if (- 2 ^ 63 <=? v) && (v <? 2 ^ 63) then v else - 2 ^ 63
  | _ => - 2 ^ 63
  end.

(** [math.Mod(x, y)]: NaN when [y] is 0 or NaN or [x] is infinite or NaN,
    [x] when [y] is infinite, else the exact remainder of [|x|] by [|y|]
    with the sign of [x]. *)
Definition Mod (x y : float64) : float64 :=
  if (y =? 0)%float || is_infinity x || is_nan x || is_nan y then nan
  else if is_infinity y then x
  else
    match Prim2SF x, Prim2SF y with
    | S754_finite sx mx ex, S754_finite _ my ey =>
        let e := Z.min ex ey in
        let r := (Zpos mx * 2 ^ (ex - e)) mod (Zpos my * 2 ^ (ey - e)) in
        of_spec (binary_normalize prec emax (if sx then - r else r) e sx)
    | _, _ => x
    end.

(** *** Decimal digits *)

Definition digit_char (d : Z) : ascii := ascii_of_N (48 + Z.to_N d).

Fixpoint digits_loop (fuel : nat) (z : Z) (acc : string) : string :=
  match fuel with
  | O => acc
  | S fuel' =>
      let acc' := String (digit_char (z mod 10)) acc in
      if z <? 10 then acc' else digits_loop fuel' (z / 10) acc'
  end.

(** The decimal digits of [z >= 0]. *)
Definition digits (z : Z) : string :=
  digits_loop (S (Z.to_nat (Z.log2 z))) z "".

(** [%d] *)
Definition format_d (z : Z) : string :=
  if z <? 0 then String "-" (digits (- z)) else digits z.

Definition is_digit (c : ascii) : bool := between "0" "9" c.
Definition digit_val (c : ascii) : Z := Z.of_N (N_of_ascii c) - 48.

Fixpoint all_digits (s : string) : bool :=
  match s with
  | EmptyString => true
  | String c rest => is_digit c && all_digits rest
  end.

Fixpoint decimal_value (s : string) (acc : Z) : Z :=
  match s with
  | EmptyString => acc
  | String c rest => decimal_value rest (10 * acc + digit_val c)
  end.

(** [strconv.Atoi]: an optional sign and at least one decimal digit,
    nothing else, and a value that fits in an int64; [None] stands for a
    non-nil error. *)
Definition Atoi (s : string) : option Z :=
  let '(neg, body) :=
    match s with
    | String "-" rest => (true, rest)
    | String "+" rest => (false, rest)
    | _ => (false, s)
    end in
  match body with
  | EmptyString => None
  | _ =>
      if all_digits body then
        let v := decimal_value body 0 in
        let v := if neg then - v else v in
        if (- 2 ^ 63 <=? v) && (v <? 2 ^ 63) then Some v else None
      else None
  end.

(** *** [strconv.ParseFloat(s, 64)]

    Go's syntax for floating-point text: the words [inf], [infinity]
    (optionally signed) and [nan] in any case; or an optional sign, decimal
    digits with at most one point and an optional [e] exponent; or the same
    with a [0x] prefix, hexadecimal digits and a mandatory [p] exponent;
    underscores may separate digits.  The value is the binary64 nearest to
    the number written (ties to even).  [None] stands for a non-nil error:
    malformed text, or a value that rounds to an infinity. *)

Fixpoint commonPrefixLenIgnoreCase (s prefix : string) : nat :=
  match s, prefix with
  | String c s', String d prefix' =>
      let c := if between "A" "Z" c then ascii_of_N (N_of_ascii c + 32) else c in
      if Ascii.eqb c d then S (commonPrefixLenIgnoreCase s' prefix') else O
  | _, _ => O
  end.

(** The value and the number of bytes read. *)
Definition special (s : string) : option (float64 * nat) :=
  let inf (negative : bool) (nsign : nat) (t : string) :=
    let n := commonPrefixLenIgnoreCase t "infinity" in
    let n := if (3 <? n)%nat && (n <? 8)%nat then 3%nat else n in
    if (n =? 3)%nat || (n =? 8)%nat
    then Some (if negative then neg_infinity else infinity, (nsign + n)%nat)
    else None in
  match s with
  | EmptyString => None
  | String c rest =>
      if Ascii.eqb c "+" then inf false 1%nat rest
      else if Ascii.eqb c "-" then inf true 1%nat rest
      else if Ascii.eqb c "i" || Ascii.eqb c "I" then inf false 0%nat s
      else if Ascii.eqb c "n" || Ascii.eqb c "N" then
        if (commonPrefixLenIgnoreCase s "nan" =? 3)%nat then Some (nan, 3%nat)
        else None
      else None
  end.

(** [lower(c)] of package [strconv]: [c | ('x' - 'X')]. *)
Definition lower (c : ascii) : ascii := ascii_of_N (N.lor (N_of_ascii c) 32).

Definition is_hex_letter (c : ascii) : bool := between "a" "f" (lower c).
Definition hex_letter_val (c : ascii) : Z := Z.of_N (N_of_ascii (lower c)) - 97 + 10.

Record mantissa_state : Set := mkMant {
  sawdot : bool; sawdigits : bool; nd : Z; dp : Z; mant : Z; underscores : bool
}.

(** The digit loop of [readFloat]; returns the text left at the [break]. *)
Fixpoint read_mantissa (base : Z) (s : string) (m : mantissa_state)
  : mantissa_state * string :=
  match s with
  | EmptyString => (m, s)
  | String c rest =>
      if Ascii.eqb c "_" then
        read_mantissa base rest
          (mkMant (sawdot m) (sawdigits m) (nd m) (dp m) (mant m) true)
      else if Ascii.eqb c "." then
        if sawdot m then (m, s)
        else read_mantissa base rest
               (mkMant true (sawdigits m) (nd m) (nd m) (mant m) (underscores m))
      else if is_digit c then
        if Ascii.eqb c "0" && (nd m =? 0) then
          read_mantissa base rest
            (mkMant (sawdot m) true (nd m) (dp m - 1) (mant m) (underscores m))
        else
          read_mantissa base rest
            (mkMant (sawdot m) true (nd m + 1) (dp m)
                    (mant m * base + digit_val c) (underscores m))
      else if (base =? 16) && is_hex_letter c then
        read_mantissa base rest
          (mkMant (sawdot m) true (nd m + 1) (dp m)
                  (mant m * 16 + hex_letter_val c) (underscores m))
      else (m, s)
  end.

(** The digits of an exponent: the value (no longer updated once it has
    reached 10000), whether an underscore was seen, and the text left. *)
Fixpoint read_exponent (s : string) (e : Z) (us : bool) : Z * bool * string :=
  match s with
  | EmptyString => (e, us, s)
  | String c rest =>
      if Ascii.eqb c "_" then read_exponent rest e true
      else if is_digit c then
        read_exponent rest (if e <? 10000 then e * 10 + digit_val c else e) us
      else (e, us, s)
  end.

(** [saw]: 0 for the beginning, 1 for a digit, 2 for an underscore,
    3 for any other byte. *)
Fixpoint underscoreOK_loop (hex : bool) (s : string) (saw : nat) : bool :=
  match s with
  | EmptyString => negb (saw =? 2)%nat
  | String c rest =>
      if is_digit c || hex && is_hex_letter c then underscoreOK_loop hex rest 1%nat
      else if Ascii.eqb c "_" then
        if (saw =? 1)%nat then underscoreOK_loop hex rest 2%nat else false
      else if (saw =? 2)%nat then false
      else underscoreOK_loop hex rest 3%nat
  end.

Definition underscoreOK (s : string) : bool :=
  let s := match s with
           | String c rest =>
               if Ascii.eqb c "-" || Ascii.eqb c "+" then rest else s
           | _ => s
           end in
  match s with
  | String "0" (String c rest) =>
      let lc := lower c in
      if Ascii.eqb lc "b" || Ascii.eqb lc "o" || Ascii.eqb lc "x"
      then underscoreOK_loop (Ascii.eqb lc "x") rest 1%nat
      else underscoreOK_loop false s 0%nat
  | _ => underscoreOK_loop false s 0%nat
  end.

(** [readFloat] followed by the conversion, when the whole text is a
    number. *)
Definition read_number (s : string) : option spec_float :=
  let '(neg, s1) :=
    match s with
    | String c rest =>
        if Ascii.eqb c "+" then (false, rest)
        else if Ascii.eqb c "-" then (true, rest)
        else (false, s)
    | _ => (false, s)
    end in
  match s with
  | EmptyString => None
  | _ =>
      let '(hex, s2) :=
        match s1 with
        | String "0" (String c (String c' rest)) =>
            if Ascii.eqb (lower c) "x" then (true, String c' rest) else (false, s1)
        | _ => (false, s1)
        end in
      let base := if hex then 16 else 10 in
      let '(m, s3) := read_mantissa base s2 (mkMant false false 0 0 0 false) in
      if negb (sawdigits m) then None
      else
        let dp0 := if sawdot m then dp m else nd m in
        let dp1 := if hex then 4 * dp0 else dp0 in
        let nbits := if hex then 4 * nd m else nd m in
        let with_exponent (t : string) : option (Z * bool * string) :=
          match t with
          | EmptyString => None
          | String c rest =>
              let '(esign, t') :=
                if Ascii.eqb c "+" then (1, rest)
                else if Ascii.eqb c "-" then (-1, rest)
                else (1, t) in
              match t' with
              | String d _ =>
                  if is_digit d then
                    let '(e, us, t'') := read_exponent t' 0 false in
                    Some (dp1 + e * esign, us, t'')
                  else None
              | EmptyString => None
              end
          end in
        let tail :=
          match s3 with
          | String c rest =>
              if Ascii.eqb (lower c) (if hex then "p" else "e")%char
              then with_exponent rest
              else if hex then None else Some (dp1, false, s3)
          | EmptyString => if hex then None else Some (dp1, false, s3)
          end in
        match tail with
        | None => None
        | Some (dp2, us, rest) =>
            let exp := dp2 - nbits in
            if (underscores m || us) && negb (underscoreOK s) then None
            else
              match rest with
              | EmptyString =>
                  Some
                    (if mant m =? 0 then S754_zero neg
                     else if hex then
                       binary_normalize prec emax
                         (if neg then - mant m else mant m) exp neg
                     else if 0 <=? exp then round_ratio neg (mant m * 10 ^ exp) 1
                     else round_ratio neg (mant m) (10 ^ (- exp)))
              | _ => None
              end
        end
  end.

Definition ParseFloat (s : string) : option float64 :=
  match special s with
  | Some (v, n) => if (n =? String.length s)%nat then Some v else None
  | None =>
      match read_number s with
      | Some (S754_infinity _) => None
      | Some v => Some (of_spec v)
      | None => None
      end
  end.

(** *** [fmt.Sprintf("%g", f)]

    The shortest decimal that reads back as [f] (the one nearest to [f]
    when several of that length do), written as [strconv.FormatFloat(f,
    'g', -1, 64)] writes it: with an exponent ([%e] layout) when the decimal
    exponent is below -4 or at least 6, else in the [%f] layout. *)

(** [a/b <= c/d] and [a/b < c/d] for positive denominators. *)
Definition q_le (a b c d : Z) : bool := a * d <=? c * b.
Definition q_lt (a b c d : Z) : bool := a * d <? c * b.

(** [k * 10^p] as a fraction. *)
Definition dec_num (k p : Z) : Z := if 0 <=? p then k * 10 ^ p else k.
Definition dec_den (p : Z) : Z := if 0 <=? p then 1 else 10 ^ (- p).

(** The least [E], searched upward from [E0], with [xn/xd < 10^E]. *)
Fixpoint magnitude (fuel : nat) (xn xd E : Z) : Z :=
  match fuel with
  | O => E
  | S fuel' =>
      if q_lt xn xd (dec_num 1 E) (dec_den E) then E
      else magnitude fuel' xn xd (E + 1)
  end.

(** The shortest digits of [m * 2^e], for [m > 0], as an integer [k] and
    an exponent [p] with value [k * 10^p].  The numbers that read back as
    the float lie between the midpoints to its two neighbours, the
    midpoints included when [m] is even. *)
Fixpoint shortest_loop (fuel : nat) (n : Z)
    (xn xd ln ld un ud : Z) (inclusive : bool) (E : Z) : Z * Z :=
  let p := E - n in
  let k := (xn * dec_den p) / (xd * dec_num 1 p) in
  match fuel with
  | O => (k, p)
  | S fuel' =>
      let inside (c : Z) :=
        let cn := dec_num c p in
        let cd := dec_den p in
        (if inclusive then q_le ln ld cn cd else q_lt ln ld cn cd)
        && (if inclusive then q_le cn cd un ud else q_lt cn cd un ud) in
      let down := inside k in
      let up := inside (k + 1) in
      (* distance of x to k*10^p against distance to (k+1)*10^p *)
      let nearer_down :=
        q_le (2 * xn) xd (dec_num (2 * k + 1) p) (dec_den p) in
      if down && up then ((if nearer_down then k else k + 1), p)
      else if down then (k, p)
      else if up then (k + 1, p)
      else shortest_loop fuel' (n + 1) xn xd ln ld un ud inclusive E
  end.

Fixpoint strip_zeros (fuel : nat) (k p : Z) : Z * Z :=
  match fuel with
  | O => (k, p)
  | S fuel' =>
      if (k mod 10 =? 0) && negb (k =? 0) then strip_zeros fuel' (k / 10) (p + 1)
      else (k, p)
  end.

(** The digits and the position of the decimal point: the value is
    [0.d1d2...dn * 10^point]. *)
Definition shortest (m : positive) (e : Z) : string * Z :=
  let den := if 0 <=? e - 2 then 1 else 2 ^ (2 - e) in
  (* x = 4m / 2^(2-e); upper = (4m + 2) / 2^(2-e);
     lower = (4m - 2) / 2^(2-e), or (4m - 1) / 2^(2-e) at a power of two *)
  let scale := if 0 <=? e - 2 then 2 ^ (e - 2) else 1 in
  let xn := 4 * Zpos m * scale in
  let un := (4 * Zpos m + 2) * scale in
  let closer := (Zpos m =? 2 ^ 52) && (- 1074 <? e) in
  let ln := (4 * Zpos m - (if closer then 1 else 2)) * scale in
  let b := Z.log2 xn - Z.log2 den in
  let E := magnitude 8 xn den ((b * 30103) / 100000 - 2) in
  let '(k, p) := shortest_loop 17 1 xn den ln den un den (Z.even (Zpos m)) E in
  let '(k, p) := strip_zeros 20 k p in
  let ds := digits k in
  (ds, p + Z.of_nat (String.length ds)).

Fixpoint zeros (n : nat) : string :=
  match n with O => "" | S n' => String "0" (zeros n') end.

(** [%e] layout: [d.ddde+XX]. *)
Definition fmtE (ds : string) (point : Z) : string :=
  let exp := point - 1 in
  let mantissa :=
    match ds with
    | String d EmptyString => String d EmptyString
    | String d rest => String d (String "." rest)
    | EmptyString => "0"
    end in
  let a := Z.abs exp in
  mantissa ++ "e" ++ (if exp <? 0 then "-" else "+")
           ++ (if a <? 10 then String "0" (digits a) else digits a).

(** [%f] layout with just the digits needed. *)
Definition fmtF (ds : string) (point : Z) : string :=
  let n := Z.of_nat (String.length ds) in
  if point <=? 0 then "0." ++ zeros (Z.to_nat (- point)) ++ ds
  else if n <=? point then ds ++ zeros (Z.to_nat (point - n))
  else String.substring 0 (Z.to_nat point) ds ++ "."
       ++ String.substring (Z.to_nat point) (Z.to_nat (n - point)) ds.

Definition format_g (f : float64) : string :=
  match Prim2SF f with
  | S754_nan => "NaN"
  | S754_infinity s => if s then "-Inf" else "+Inf"
  | S754_zero s => if s then "-0" else "0"
  | S754_finite s m e =>
      let '(ds, point) := shortest m e in
      let body :=
        if (point - 1 <? -4) || (6 <=? point - 1) then fmtE ds point
        else fmtF ds point in
      if s then String "-" body else body
  end.

(** *** Package [strings] *)

Fixpoint has_prefix (p s : string) : option string :=
  match p, s with
  | EmptyString, _ => Some s
  | String a p', String b s' => if Ascii.eqb a b then has_prefix p' s' else None
  | _, _ => None
  end.

(** [strings.HasSuffix] *)
Definition HasSuffix (s suffix : string) : bool :=
  let n := String.length s in
  let k := String.length suffix in
  (k <=? n)%nat && String.eqb (String.substring (n - k) k s) suffix.

(** The UTF-8 encodings of the runes for which [unicode.IsSpace] holds:
    tab, line feed, vertical tab, form feed, carriage return, space,
    U+0085, U+00A0, U+1680, U+2000..U+200A, U+2028, U+2029, U+202F, U+205F
    and U+3000. *)
Definition spaces : list string :=
  [ String "009" ""; String "010" ""; String "011" ""; String "012" "";
    String "013" ""; " ";
    String "194" (String "133" ""); String "194" (String "160" "");
    String "225" (String "154" (String "128" "")) ]
  ++ map (fun b => String "226" (String "128" (String (ascii_of_nat b) "")))
         [128; 129; 130; 131; 132; 133; 134; 135; 136; 137; 138; 168; 169; 175]%nat
  ++ [ String "226" (String "129" (String "159" ""));
       String "227" (String "128" (String "128" "")) ].

Definition strip_space_left (s : string) : option string :=
  fold_right (fun sp acc => match has_prefix sp s with
                            | Some rest => Some rest
                            | None => acc
                            end) None spaces.

Definition strip_space_right (s : string) : option string :=
  fold_right (fun sp acc =>
                if HasSuffix s sp
                then Some (String.substring 0 (String.length s - String.length sp) s)
                else acc) None spaces.

Fixpoint trim_left (n : nat) (s : string) : string :=
  match n with
  | O => s
  | S n' => match strip_space_left s with
            | Some rest => trim_left n' rest
            | None => s
            end
  end.

Fixpoint trim_right (n : nat) (s : string) : string :=
  match n with
  | O => s
  | S n' => match strip_space_right s with
            | Some rest => trim_right n' rest
            | None => s
            end
  end.

(** [strings.TrimSpace]: each turn removes at least one byte. *)
Definition TrimSpace (s : string) : string :=
  trim_right (String.length s) (trim_left (String.length s) s).

(** [strings.Split(s, ",")]: the pieces between the commas, one more than
    there are commas. *)
Fixpoint split_comma (s : string) (cur : string) : list string :=
  match s with
  | EmptyString => [cur]
  | String c rest =>
      if Ascii.eqb c "," then cur :: split_comma rest ""
      else split_comma rest (cur ++ String c "")
  end.

Definition Split (s : string) : list string := split_comma s "".

(** [reader.ReadString('\n')]: the text up to and including the first line
    feed and the text after it; [None] is the error [io.EOF], returned when
    the input ends before a line feed (what was read is then dropped by
    the callers). *)
Fixpoint ReadString (s : string) (acc : string) : option (string * string) :=
  match s with
  | EmptyString => None
  | String c rest =>
      if Ascii.eqb c "010" then Some (acc ++ String c "", rest)
      else ReadString rest (acc ++ String c "")
  end.

End golib.

(** A call returns, panics (a nil pointer is dereferenced), or is cut short
    because the recursion budget of this embedding ran out. *)
Inductive result (A : Type) : Type :=
| Ok (a : A)
| Panic
| OutOfFuel.
Arguments Ok {A} a.
Arguments Panic {A}.
Arguments OutOfFuel {A}.

(** ** Package [ast]

    The [Token] field of the nodes only serves [TokenLiteral] and is left
    out, and so are the fields [Body] and [LineStart] of [ForStatement],
    which nothing writes or reads.  A [*Identifier] that is always set is
    its [Value]; the optional one of [NextStatement] is an [option]. *)

Module ast.
Import golib.

(** [Expression]: the six node types and the nil interface value. *)
Inductive Expression : Set :=
| NumberLiteral (Value : float64)
| StringLiteral (Value : string)
| Identifier (Value : string)
| InfixExpression (Left : Expression) (Operator : string) (Right : Expression)
| PrefixExpression (Operator : string) (Right : Expression)
| ArrayAccess (Name : string) (Index : Expression)
| NilExpression.

(** The statement types of which the parser can return a nil pointer;
    stored in a [Statement] interface it is a non-nil value. *)
Inductive NilKind : Set := NilLet | NilIf | NilFor | NilInput | NilDim.

Inductive Statement : Set :=
| PrintStatement (Expressions : list Expression) (Separators : list string)
                 (TrailingNewline : bool)
| LetStatement (Name : string) (Value : Expression)
| IfStatement (Condition : Expression) (Consequence : Statement)
              (Alternative : option Statement)
| GotoStatement (LineNumber : Expression)
| GosubStatement (LineNumber : Expression)
| ReturnStatement
| ForStatement (Var : string) (Start End_ Step : Expression)
| NextStatement (Var : option string)
| InputStatement (Prompt : string) (Vars : list string)
| EndStatement
| RemStatement (Comment : string)
| DimStatement (Name : string) (Size : Expression)
| ExpressionStatement (Expr : Expression)
| SequenceStatement (Statements : list Statement)
| NilStatement (kind : NilKind).

(** [Program.Statements] *)
Record Program : Set := mkProgram { Statements : gmap Z Statement }.

End ast.

(** ** Package [parser] *)

Module parser.
Import token lexer golib ast.

Definition LOWEST : Z := 1.
Definition LOGICAL : Z := 2.
Definition EQUALS : Z := 3.
Definition LESSGREATER : Z := 4.
Definition SUM : Z := 5.
Definition PRODUCT : Z := 6.
Definition PREFIX : Z := 7.
Definition CALL : Z := 8.

(** [var precedences = map[token.TokenType]int{...}] *)
Definition precedences (t : TokenType) : option Z :=
  match t with
  | OR | AND => Some LOGICAL
  | EQ | NE => Some EQUALS
  | LT | GT | LE | GE => Some LESSGREATER
  | PLUS | MINUS => Some SUM
  | DIV | MULT | MOD => Some PRODUCT
  | LPAREN => Some CALL
  | _ => None
  end.

(** The messages appended to [errors], by format:
    ["expected next token to be %s, got %s instead"],
    ["no prefix parse function for %s found"],
    ["could not parse %q as number"] and
    ["could not parse %q as line number"]. *)
Inductive Error : Set :=
| ExpectedNext (want got : TokenType)
| NoPrefixParseFn (t : TokenType)
| NotANumber (literal : string)
| NotALineNumber (literal : string).

Record Parser : Set := mkParser {
  l : Lexer;
  errors : list Error;
  curToken : Token;
  peekToken : Token
}.

(** A method of [*Parser]: it returns a value and leaves the parser in a
    new state. *)
Definition M (A : Type) : Type := Parser -> result (A * Parser).

Definition ret {A} (a : A) : M A := fun p => Ok (a, p).

Definition bind {A B} (m : M A) (k : A -> M B) : M B :=
  fun p => match m p with
           | Ok (a, p') => k a p'
           | Panic => Panic
           | OutOfFuel => OutOfFuel
           end.

Notation "'do' x <- m ; k" := (bind m (fun x => k))
  (at level 10, x name, m at level 100, k at level 200).
Notation "'do_' m ; k" := (bind m (fun _ => k))
  (at level 10, m at level 100, k at level 200).

Definition out_of_fuel {A} : M A := fun _ => OutOfFuel.
Definition panic {A} : M A := fun _ => Panic.

Definition cur : M Token := fun p => Ok (curToken p, p).
Definition peek : M Token := fun p => Ok (peekToken p, p).

Definition addError (e : Error) : M unit :=
  fun p => Ok (tt, mkParser (l p) (errors p ++ [e])%list (curToken p) (peekToken p)).

Definition nextToken : M unit :=
  fun p => let '(tok, l') := NextToken (l p) in
           Ok (tt, mkParser l' (errors p) (peekToken p) tok).

Definition is_ (t : TokenType) (tok : Token) : bool :=
  bool_decide (Type_ tok = t).

Definition curTokenIs (t : TokenType) : M bool :=
  do c <- cur; ret (is_ t c).

Definition peekTokenIs (t : TokenType) : M bool :=
  do c <- peek; ret (is_ t c).

Definition peekError (t : TokenType) : M unit :=
  do c <- peek; addError (ExpectedNext t (Type_ c)).

Definition expectPeek (t : TokenType) : M bool :=
  do b <- peekTokenIs t;
  if b then do_ nextToken; ret true
  else do_ peekError t; ret false.

Definition noPrefixParseFnError (t : TokenType) : M unit :=
  addError (NoPrefixParseFn t).

Definition peekPrecedence : M Z :=
  do c <- peek; ret (default LOWEST (precedences (Type_ c))).

Definition curPrecedence : M Z :=
  do c <- cur; ret (default LOWEST (precedences (Type_ c))).

(** *** Expressions *)

Definition parseIdentifier : M Expression :=
  do c <- cur; ret (Identifier (Literal c)).

Definition parseNumberLiteral : M Expression :=
  do c <- cur;
  match ParseFloat (Literal c) with
  | None => do_ addError (NotANumber (Literal c)); ret NilExpression
  | Some value => ret (NumberLiteral value)
  end.

Definition parseStringLiteral : M Expression :=
  do c <- cur; ret (StringLiteral (Literal c)).

Section expression_functions.
(** [p.parseExpression], which the prefix and infix functions call. *)
Variable parseExpression : Z -> M Expression.

Definition parsePrefixExpression : M Expression :=
  do c <- cur;
  do_ nextToken;
  do right <- parseExpression PREFIX;
  ret (PrefixExpression (Literal c) right).

Definition parseInfixExpression (left : Expression) : M Expression :=
  do c <- cur;
  do precedence <- curPrecedence;
  do_ nextToken;
  do right <- parseExpression precedence;
  ret (InfixExpression left (Literal c) right).

Definition parseGroupedExpression : M Expression :=
  do_ nextToken;
  do exp <- parseExpression LOWEST;
  do ok <- expectPeek RPAREN;
  if ok then ret exp else ret NilExpression.

Definition parseArrayAccess (left : Expression) : M Expression :=
  match left with
  | Identifier name =>
      do_ nextToken;
      do index <- parseExpression LOWEST;
      do ok <- expectPeek RPAREN;
      if ok then ret (ArrayAccess name index) else ret NilExpression
  | _ => ret NilExpression
  end.

(** [p.prefixParseFns] and [p.infixParseFns] as filled in by [New]. *)
Definition prefixParseFns (t : TokenType) : option (M Expression) :=
  match t with
  | IDENT => Some parseIdentifier
  | NUMBER => Some parseNumberLiteral
  | STRING => Some parseStringLiteral
  | MINUS | NOT => Some parsePrefixExpression
  | LPAREN => Some parseGroupedExpression
  | _ => None
  end.

Definition infixParseFns (t : TokenType) : option (Expression -> M Expression) :=
  match t with
  | PLUS | MINUS | DIV | MULT | MOD | EQ | NE | LT | GT | LE | GE | AND | OR =>
      Some parseInfixExpression
  | LPAREN => Some parseArrayAccess
  | _ => None
  end.

(** The [for] loop of [parseExpression]. *)
Fixpoint parseExpression_loop (n : nat) (precedence : Z) (leftExp : Expression)
  : M Expression :=
  do pk <- peek;
  do pp <- peekPrecedence;
  if negb (is_ EOF pk) && negb (is_ NEWLINE pk) && negb (is_ COLON pk)
     && (precedence <? pp)
  then
    match infixParseFns (Type_ pk) with
    | None => ret leftExp
    | Some infix =>
        match n with
        | O => out_of_fuel
        | S n' =>
            do_ nextToken;
            do leftExp' <- infix leftExp;
            parseExpression_loop n' precedence leftExp'
        end
    end
  else ret leftExp.
End expression_functions.

Fixpoint parseExpression (fuel : nat) (precedence : Z) : M Expression :=
  match fuel with
  | O => out_of_fuel
  | S fuel' =>
      do c <- cur;
      match prefixParseFns (parseExpression fuel') (Type_ c) with
      | None => do_ noPrefixParseFnError (Type_ c); ret NilExpression
      | Some prefix =>
          do leftExp <- prefix;
          parseExpression_loop (parseExpression fuel') fuel' precedence leftExp
      end
  end.

(** *** Statements *)

Definition ends_statement (tok : Token) : bool :=
  is_ EOF tok || is_ NEWLINE tok || is_ COLON tok.

Fixpoint parseRemStatement_loop (n : nat) (comment : string) : M string :=
  do c <- cur;
  if negb (is_ EOF c) && negb (is_ COLON c) && negb (is_ NEWLINE c) then
    match n with
    | O => out_of_fuel
    | S n' => do_ nextToken; parseRemStatement_loop n' (comment ++ Literal c ++ " ")
    end
  else ret comment.

Definition parseRemStatement (fuel : nat) : M Statement :=
  do_ nextToken;
  do comment <- parseRemStatement_loop fuel "";
  ret (RemStatement comment).

Definition parseDimStatement (fuel : nat) : M Statement :=
  do ok <- expectPeek IDENT;
  if negb ok then ret (NilStatement NilDim) else
  do name <- cur;
  do ok <- expectPeek LPAREN;
  if negb ok then ret (NilStatement NilDim) else
  do_ nextToken;
  do size <- parseExpression fuel LOWEST;
  do ok <- expectPeek RPAREN;
  if negb ok then ret (NilStatement NilDim) else
  ret (DimStatement (Literal name) size).

Definition parseLetStatement (fuel : nat) : M Statement :=
  do ok <- expectPeek IDENT;
  if negb ok then ret (NilStatement NilLet) else
  do name <- cur;
  do ok <- expectPeek ASSIGN;
  if negb ok then ret (NilStatement NilLet) else
  do_ nextToken;
  do value <- parseExpression fuel LOWEST;
  ret (LetStatement (Literal name) value).

Definition parseGotoStatement (fuel : nat) : M Statement :=
  do_ nextToken;
  do target <- parseExpression fuel LOWEST;
  ret (GotoStatement target).

Definition parseGosubStatement (fuel : nat) : M Statement :=
  do_ nextToken;
  do target <- parseExpression fuel LOWEST;
  ret (GosubStatement target).

Definition parseReturnStatement : M Statement := ret ReturnStatement.

Definition parseEndStatement : M Statement := ret EndStatement.

(** The [for] loop of [parsePrintStatement]: the expressions and the
    separators so far, and [TrailingNewline]. *)
Fixpoint parsePrintStatement_loop (n fuel : nat)
    (exprs : list Expression) (seps : list string) : M Statement :=
  match n with
  | O => out_of_fuel
  | S n' =>
      do expr <- parseExpression fuel LOWEST;
      let exprs :=
        match expr with
        | NilExpression => exprs
        | _ => (exprs ++ [expr])%list
        end in
      let separator (sep : string) : M Statement :=
        do_ nextToken;
        let seps := (seps ++ [sep])%list in
        do pk <- peek;
        if ends_statement pk then ret (PrintStatement exprs seps false)
        else do_ nextToken; parsePrintStatement_loop n' fuel exprs seps in
      do pk <- peek;
      if is_ SEMICOLON pk then separator ""
      else if is_ COMMA pk then separator (String "009" "")
      else ret (PrintStatement exprs seps true)
  end.

Definition parsePrintStatement (fuel : nat) : M Statement :=
  do_ nextToken;
  do c <- cur;
  if ends_statement c then ret (PrintStatement [] [] true)
  else parsePrintStatement_loop fuel fuel [] [].

Definition parseForStatement (fuel : nat) : M Statement :=
  do ok <- expectPeek IDENT;
  if negb ok then ret (NilStatement NilFor) else
  do variable <- cur;
  do ok <- expectPeek ASSIGN;
  if negb ok then ret (NilStatement NilFor) else
  do_ nextToken;
  do start <- parseExpression fuel LOWEST;
  do ok <- expectPeek TO;
  if negb ok then ret (NilStatement NilFor) else
  do_ nextToken;
  do end_ <- parseExpression fuel LOWEST;
  do has_step <- peekTokenIs STEP;
  if has_step then
    do_ nextToken;
    do_ nextToken;
    do step <- parseExpression fuel LOWEST;
    ret (ForStatement (Literal variable) start end_ step)
  else
    ret (ForStatement (Literal variable) start end_ (NumberLiteral 1%float)).

Definition parseNextStatement : M Statement :=
  do has_variable <- peekTokenIs IDENT;
  if has_variable then
    do_ nextToken;
    do c <- cur;
    ret (NextStatement (Some (Literal c)))
  else ret (NextStatement None).

Fixpoint parseInputStatement_loop (n : nat) (prompt : string)
    (variables : list string) : M Statement :=
  do c <- cur;
  if negb (is_ IDENT c) then ret (InputStatement prompt variables) else
  let variables := (variables ++ [Literal c])%list in
  do more <- peekTokenIs COMMA;
  if negb more then ret (InputStatement prompt variables) else
  match n with
  | O => out_of_fuel
  | S n' =>
      do_ nextToken;
      do_ nextToken;
      parseInputStatement_loop n' prompt variables
  end.

Definition parseInputStatement (fuel : nat) : M Statement :=
  do_ nextToken;
  do c <- cur;
  if is_ STRING c then
    do semicolon <- expectPeek SEMICOLON;
    do separated <- (if semicolon then ret true else expectPeek COMMA);
    if negb separated then ret (NilStatement NilInput) else
    do_ nextToken;
    parseInputStatement_loop fuel (Literal c) []
  else parseInputStatement_loop fuel "" [].

Definition parseExpressionStatement (fuel : nat) : M Statement :=
  do expr <- parseExpression fuel LOWEST;
  ret (ExpressionStatement expr).

Section statement_functions.
(** [p.parseStatement], which [parseIfStatement] calls. *)
Variable parseStatement : M Statement.
Variable fuel : nat.

Definition parseIfStatement : M Statement :=
  do_ nextToken;
  do condition <- parseExpression fuel LOWEST;
  do ok <- expectPeek THEN;
  if negb ok then ret (NilStatement NilIf) else
  do_ nextToken;
  do consequence <- parseStatement;
  do has_else <- peekTokenIs ELSE;
  if has_else then
    do_ nextToken;
    do_ nextToken;
    do alternative <- parseStatement;
    ret (IfStatement condition consequence (Some alternative))
  else ret (IfStatement condition consequence None).

(** [parseSingleStatement] parses a single BASIC statement (no [':']
    handling). *)
Definition parseSingleStatement : M Statement :=
  do c <- cur;
  match Type_ c with
  | PRINT => parsePrintStatement fuel
  | LET => parseLetStatement fuel
  | IF => parseIfStatement
  | GOTO => parseGotoStatement fuel
  | GOSUB => parseGosubStatement fuel
  | RETURN => parseReturnStatement
  | FOR => parseForStatement fuel
  | NEXT => parseNextStatement
  | INPUT => parseInputStatement fuel
  | END => parseEndStatement
  | REM => parseRemStatement fuel
  | DIM => parseDimStatement fuel
  | _ => parseExpressionStatement fuel
  end.

(** The [for p.peekTokenIs(token.COLON)] loop of [parseStatement].  A
    statement that came back as a nil pointer is a non-nil interface
    value, so it is appended like any other. *)
Fixpoint parseStatement_loop (n : nat) (stmts : list Statement)
  : M (list Statement) :=
  do colon <- peekTokenIs COLON;
  if negb colon then ret stmts else
  match n with
  | O => out_of_fuel
  | S n' =>
      do_ nextToken;
      do_ nextToken;
      do c <- cur;
      if is_ NEWLINE c || is_ EOF c || is_ COLON c || is_ ELSE c
      then ret stmts
      else
        do nextStmt <- parseSingleStatement;
        parseStatement_loop n' (stmts ++ [nextStmt])%list
  end.
End statement_functions.

(** [parseStatement] parses a statement and any additional statements
    separated by [':'] on the same line. *)
Fixpoint parseStatement (fuel : nat) : M Statement :=
  match fuel with
  | O => out_of_fuel
  | S fuel' =>
      do stmt <- parseSingleStatement (parseStatement fuel') fuel';
      do stmts <- parseStatement_loop (parseStatement fuel') fuel' fuel' [stmt];
      match stmts with
      | [only] => ret only
      | _ => ret (SequenceStatement stmts)
      end
  end.

(** What [parseStatementOrLine] returns: a [*LineStatement], possibly
    nil, or what [parseStatement] returned. *)
Inductive StatementOrLine : Set :=
| Line (line : option (Z * Statement))
| Plain (stmt : Statement).

Definition parseLineStatement (fuel : nat) : M (option (Z * Statement)) :=
  do c <- cur;
  match Atoi (Literal c) with
  | None => do_ addError (NotALineNumber (Literal c)); ret None
  | Some lineNum =>
      do_ nextToken;
      do stmt <- parseStatement fuel;
      ret (Some (lineNum, stmt))
  end.

Definition parseStatementOrLine (fuel : nat) : M StatementOrLine :=
  do c <- cur;
  if is_ NUMBER c then do line <- parseLineStatement fuel; ret (Line line)
  else do stmt <- parseStatement fuel; ret (Plain stmt).

(** The loop of [ParseProgram].  The value [parseStatementOrLine] returns
    is never the nil interface; a nil [*LineStatement] passes the type
    assertion and reading its [LineNumber] panics. *)
Fixpoint ParseProgram_loop (n fuel : nat) (statements : gmap Z Statement)
  : M Program :=
  do c <- cur;
  if is_ EOF c then ret (mkProgram statements) else
  match n with
  | O => out_of_fuel
  | S n' =>
      if is_ NEWLINE c then do_ nextToken; ParseProgram_loop n' fuel statements
      else
        do stmt <- parseStatementOrLine fuel;
        match stmt with
        | Line None => panic
        | Line (Some (lineNumber, statement)) =>
            do_ nextToken;
            ParseProgram_loop n' fuel (<[lineNumber := statement]> statements)
        | Plain statement =>
            do_ nextToken;
            ParseProgram_loop n' fuel (<[0 := statement]> statements)
        end
  end.

Definition ParseProgram (fuel : nat) : M Program :=
  ParseProgram_loop fuel fuel ∅.

Definition New (lx : Lexer) : Parser :=
  match (do_ nextToken; nextToken) (mkParser lx [] token.zero token.zero) with
  | Ok (_, p) => p
  | _ => mkParser lx [] token.zero token.zero
  end.

(** Lex and parse a text: the program and the error list, as the drivers
    obtain them from [ParseProgram] and [Errors]. *)
Definition parse (fuel : nat) (src : string) : result (Program * list Error) :=
  match ParseProgram fuel (New (lexer.New src)) with
  | Ok (program, p) => Ok (program, errors p)
  | Panic => Panic
  | OutOfFuel => OutOfFuel
  end.

End parser.

(** What evaluating an expression or a statement comes to: a value, a
    returned [error], or a panic of the Go runtime. *)
Inductive outcome (E A : Type) : Type :=
| Returns (a : A)
| Fails (err : E)
| Panics.
Arguments Returns {E A} a.
Arguments Fails {E A} err.
Arguments Panics {E A}.

(** ** Package [evaluator] *)

Module evaluator.
Import golib ast.

(** The [Value]s an expression evaluates to and a variable holds.
    [*ArrayValue] implements [Value] too but is only ever kept in
    [Environment.arrays]. *)
Inductive Value : Set :=
| NumberValue (Value : float64)
| StringValue (Value : string).

Record ArrayValue : Set := mkArray { Elements : gmap Z Value }.

(** [Type()] *)
Definition Type_ (v : Value) : string :=
  match v with
  | NumberValue _ => "NUMBER"
  | StringValue _ => "STRING"
  end.

Definition Inspect (v : Value) : string :=
  match v with
  | NumberValue n => format_g n
  | StringValue s => s
  end.

(** [reader] is what is left to read of standard input. *)
Record Environment : Set := mkEnv {
  variables : gmap string Value;
  arrays : gmap string ArrayValue;
  reader : string
}.

Definition Get (name : string) (env : Environment) : option Value :=
  variables env !! name.

Definition Set_ (name : string) (val : Value) (env : Environment) : Environment :=
  mkEnv (<[name := val]> (variables env)) (arrays env) (reader env).

Definition GetArray (name : string) (env : Environment) : option ArrayValue :=
  arrays env !! name.

Definition SetArray (name : string) (arr : ArrayValue) (env : Environment)
  : Environment :=
  mkEnv (variables env) (<[name := arr]> (arrays env)) (reader env).

Record ForLoopState : Set := mkLoop {
  Variable_ : string;
  End_ : float64;
  Step : float64;
  NextLine : Z;
  StartLine : Z
}.

(** The fields of the struct, and with them the two things of the process
    a run reads and writes: [stdout], the bytes printed so far, and
    [rangeStarts], the entries at which the runtime starts its next
    iterations over a map (Go leaves the order of a [range] over a map
    unspecified; each such loop uses up one number). *)
Record Evaluator : Set := mkEvaluator {
  env : Environment;
  program : Program;
  lines : list Z;
  currentLine : Z;
  callStack : list Z;
  forLoops : gmap string ForLoopState;
  halted : bool;
  stdout : string;
  rangeStarts : list nat
}.

(** The errors the package returns, one constructor for each message. *)
Inductive Error : Set :=
| UnknownStatementType
| GotoRequiresNumber
| GosubRequiresNumber
| LineNotFound (targetLine : Z)
| ReturnWithoutGosub
| ForStartNotNumber
| ForEndNotNumber
| ForStepNotNumber
| NextWithoutFor
| NextWithoutMatchingFor
| LoopVariableNotFound (varName : string)
| LoopVariableNotNumber
| EndOfInput
| DimSizeNotNumber
| UnknownExpressionType
| DivisionByZero
| UnsupportedOperation (left operator right : string)
| CannotNegate
| UnknownOperator (operator : string)
| ArrayNotDefined (name : string)
| ArrayIndexNotNumber
| AtLine (lineNum : Z) (err : Error).

(** [err.Error()] *)
Fixpoint message (err : Error) : string :=
  match err with
  | UnknownStatementType => "unknown statement type: <nil>"
  | GotoRequiresNumber => "GOTO requires a number"
  | GosubRequiresNumber => "GOSUB requires a number"
  | LineNotFound n => "line " ++ format_d n ++ " not found"
  | ReturnWithoutGosub => "RETURN without GOSUB"
  | ForStartNotNumber => "FOR start value must be a number"
  | ForEndNotNumber => "FOR end value must be a number"
  | ForStepNotNumber => "FOR step value must be a number"
  | NextWithoutFor => "NEXT without FOR"
  | NextWithoutMatchingFor => "NEXT without matching FOR"
  | LoopVariableNotFound v => "loop variable " ++ v ++ " not found"
  | LoopVariableNotNumber => "loop variable must be a number"
  | EndOfInput => "EOF"
  | DimSizeNotNumber => "DIM size must be a number"
  | UnknownExpressionType => "unknown expression type: <nil>"
  | DivisionByZero => "division by zero"
  | UnsupportedOperation a op b =>
      "unsupported operation: " ++ a ++ " " ++ op ++ " " ++ b
  | CannotNegate => "cannot negate non-number"
  | UnknownOperator op => "unknown operator: " ++ op
  | ArrayNotDefined name => "array " ++ name ++ " not defined"
  | ArrayIndexNotNumber => "array index must be a number"
  | AtLine n e => "error at line " ++ format_d n ++ ": " ++ message e
  end.

Definition NewEnvironment (stdin : string) : Environment :=
  mkEnv ∅ ∅ stdin.

(** [sort.Ints] *)
Definition sort_Ints (xs : list Z) : list Z := merge_sort Z.le xs.

(** [New], given also the standard input and the map iteration starts of
    the process. *)
Definition New (program : Program) (stdin : string) (starts : list nat)
  : Evaluator :=
  {| env := NewEnvironment stdin;
     program := program;
     lines := sort_Ints (map fst (map_to_list (Statements program)));
     currentLine := 0;
     callStack := [];
     forLoops := ∅;
     halted := false;
     stdout := "";
     rangeStarts := starts |}.

Definition isTruthy (val : Value) : bool :=
  match val with
  | NumberValue v => negb (v =? 0)%float
  | StringValue v => negb (String.eqb v "")
  end.

Definition truth (b : bool) : outcome Error Value :=
  Returns (NumberValue (if b then 1%float else 0%float)).

(** The two [switch]es of [evalInfixExpression], on the values of the
    operands. *)
Definition infix (operator : string) (left right : Value) : outcome Error Value :=
  let unsupported :=
    Fails (UnsupportedOperation (Type_ left) operator (Type_ right)) in
  match left, right with
  | NumberValue a, NumberValue b =>
      if String.eqb operator "+" then Returns (NumberValue (a + b)%float)
      else if String.eqb operator "-" then Returns (NumberValue (a - b)%float)
      else if String.eqb operator "*" then Returns (NumberValue (a * b)%float)
      else if String.eqb operator "/" then
        if (b =? 0)%float then Fails DivisionByZero
        else Returns (NumberValue (a / b)%float)
      else if String.eqb operator "MOD" then Returns (NumberValue (Mod a b))
      else if String.eqb operator "<" then truth (a <? b)%float
      else if String.eqb operator ">" then truth (b <? a)%float
      else if String.eqb operator "<=" then truth (a <=? b)%float
      else if String.eqb operator ">=" then truth (b <=? a)%float
      else if String.eqb operator "==" then truth (a =? b)%float
      else if String.eqb operator "<>" then truth (negb (a =? b)%float)
      else if String.eqb operator "AND" then truth (isTruthy left && isTruthy right)
      else if String.eqb operator "OR" then truth (isTruthy left || isTruthy right)
      else unsupported
  | StringValue a, StringValue b =>
      if String.eqb operator "+" then Returns (StringValue (a ++ b))
      else if String.eqb operator "==" then truth (String.eqb a b)
      else if String.eqb operator "<>" then truth (negb (String.eqb a b))
      else unsupported
  | _, _ => unsupported
  end.

(** The [switch] of [evalPrefixExpression], on the value of the operand. *)
Definition prefix (operator : string) (right : Value) : outcome Error Value :=
  if String.eqb operator "-" then
    match right with
    | NumberValue num => Returns (NumberValue (- num)%float)
    | _ => Fails CannotNegate
    end
  else if String.eqb operator "NOT" then truth (negb (isTruthy right))
  else Fails (UnknownOperator operator).

(** [evalExpression] with [evalInfixExpression], [evalPrefixExpression]
    and [evalArrayAccess], which call it back.  Evaluating an expression
    reads the evaluator and changes nothing. *)
Fixpoint evalExpression (expr : Expression) (e : Evaluator) : outcome Error Value :=
  match expr with
  | NumberLiteral v => Returns (NumberValue v)
  | StringLiteral v => Returns (StringValue v)
  | Identifier name =>
      match Get name (env e) with
      | None => Returns (NumberValue 0%float)
      | Some val => Returns val
      end
  | InfixExpression l operator r =>
      match evalExpression l e with
      | Returns lhs =>
          match evalExpression r e with
          | Returns rhs => infix operator lhs rhs
          | other => other
          end
      | other => other
      end
  | PrefixExpression operator r =>
      match evalExpression r e with
      | Returns rhs => prefix operator rhs
      | other => other
      end
  | ArrayAccess name idx =>
      match GetArray name (env e) with
      | None => Fails (ArrayNotDefined name)
      | Some arr =>
          match evalExpression idx e with
          | Returns (NumberValue indexNum) =>
              match Elements arr !! int_of_float indexNum with
              | None => Returns (NumberValue 0%float)
              | Some val => Returns val
              end
          | Returns _ => Fails ArrayIndexNotNumber
          | other => other
          end
      end
  | NilExpression => Fails UnknownExpressionType
  end.

(** *** Statements: each returns the evaluator as it has become, and
    [nil] or an error. *)

Definition St : Type := Evaluator -> Evaluator * outcome Error unit.

Definition done (e : Evaluator) : Evaluator * outcome Error unit := (e, Returns tt).
Definition fail (err : Error) (e : Evaluator) : Evaluator * outcome Error unit :=
  (e, Fails err).

Definition set_env (f : Environment -> Environment) (e : Evaluator) : Evaluator :=
  mkEvaluator (f (env e)) (program e) (lines e) (currentLine e) (callStack e)
              (forLoops e) (halted e) (stdout e) (rangeStarts e).

Definition set_currentLine (n : Z) (e : Evaluator) : Evaluator :=
  mkEvaluator (env e) (program e) (lines e) n (callStack e)
              (forLoops e) (halted e) (stdout e) (rangeStarts e).

Definition set_callStack (s : list Z) (e : Evaluator) : Evaluator :=
  mkEvaluator (env e) (program e) (lines e) (currentLine e) s
              (forLoops e) (halted e) (stdout e) (rangeStarts e).

Definition set_forLoops (m : gmap string ForLoopState) (e : Evaluator) : Evaluator :=
  mkEvaluator (env e) (program e) (lines e) (currentLine e) (callStack e)
              m (halted e) (stdout e) (rangeStarts e).

Definition set_halted (b : bool) (e : Evaluator) : Evaluator :=
  mkEvaluator (env e) (program e) (lines e) (currentLine e) (callStack e)
              (forLoops e) b (stdout e) (rangeStarts e).

Definition set_rangeStarts (r : list nat) (e : Evaluator) : Evaluator :=
  mkEvaluator (env e) (program e) (lines e) (currentLine e) (callStack e)
              (forLoops e) (halted e) (stdout e) r.

(** [fmt.fmt_Print(text)] *)
Definition fmt_Print (text : string) (e : Evaluator) : Evaluator :=
  mkEvaluator (env e) (program e) (lines e) (currentLine e) (callStack e)
              (forLoops e) (halted e) (stdout e ++ text) (rangeStarts e).

(** [fmt.fmt_Println()] *)
Definition fmt_Println (e : Evaluator) : Evaluator := fmt_Print (String "010" "") e.

(** The loop of [evalPrintStatement], from index [i] on. *)
Fixpoint evalPrintStatement_loop (i : nat) (exprs : list Expression)
    (separators : list string) (e : Evaluator) : Evaluator * outcome Error unit :=
  match exprs with
  | [] => done e
  | expr :: rest =>
      match evalExpression expr e with
      | Returns val =>
          let e := fmt_Print (Inspect val) e in
          let e := match separators !! i with
                   | Some sep => fmt_Print sep e
                   | None => e
                   end in
          evalPrintStatement_loop (S i) rest separators e
      | Fails err => fail err e
      | Panics => (e, Panics)
      end
  end.

Definition evalPrintStatement (exprs : list Expression) (separators : list string)
    (trailingNewline : bool) : St := fun e =>
  match exprs with
  | [] => done (fmt_Println e)
  | _ =>
      match evalPrintStatement_loop 0 exprs separators e with
      | (e', Returns _) => done (if trailingNewline then fmt_Println e' else e')
      | other => other
      end
  end.

Definition evalLetStatement (name : string) (value : Expression) : St := fun e =>
  match evalExpression value e with
  | Returns val => done (set_env (Set_ name val) e)
  | Fails err => fail err e
  | Panics => (e, Panics)
  end.

(** The index of the first element equal to [target], as the [for i, line
    := range e.lines] loops of GOTO and GOSUB find it. *)
Fixpoint index_of (target : Z) (xs : list Z) (i : Z) : option Z :=
  match xs with
  | [] => None
  | x :: rest => if x =? target then Some i else index_of target rest (i + 1)
  end.

Definition evalGotoStatement (lineNumber : Expression) : St := fun e =>
  match evalExpression lineNumber e with
  | Returns (NumberValue numVal) =>
      let targetLine := int_of_float numVal in
      match index_of targetLine (lines e) 0 with
      | Some i => done (set_currentLine (i - 1) e)
      | None => fail (LineNotFound targetLine) e
      end
  | Returns _ => fail GotoRequiresNumber e
  | Fails err => fail err e
  | Panics => (e, Panics)
  end.

Definition evalGosubStatement (lineNumber : Expression) : St := fun e =>
  match evalExpression lineNumber e with
  | Returns (NumberValue numVal) =>
      let e := set_callStack (callStack e ++ [currentLine e])%list e in
      let targetLine := int_of_float numVal in
      match index_of targetLine (lines e) 0 with
      | Some i => done (set_currentLine (i - 1) e)
      | None => fail (LineNotFound targetLine) e
      end
  | Returns _ => fail GosubRequiresNumber e
  | Fails err => fail err e
  | Panics => (e, Panics)
  end.

Definition evalReturnStatement : St := fun e =>
  match last (callStack e) with
  | None => fail ReturnWithoutGosub e
  | Some top =>
      done (set_callStack (removelast (callStack e)) (set_currentLine top e))
  end.

Definition evalForStatement (variable : string) (start end_ step : Expression)
  : St := fun e =>
  match evalExpression start e with
  | Returns (NumberValue startNum) =>
      match evalExpression end_ e with
      | Returns (NumberValue endNum) =>
          match evalExpression step e with
          | Returns (NumberValue stepNum) =>
              let e := set_env (Set_ variable (NumberValue startNum)) e in
              done (set_forLoops
                      (<[variable := mkLoop variable endNum stepNum 0 (currentLine e)]>
                         (forLoops e)) e)
          | Returns _ => fail ForStepNotNumber e
          | Fails err => fail err e
          | Panics => (e, Panics)
          end
      | Returns _ => fail ForEndNotNumber e
      | Fails err => fail err e
      | Panics => (e, Panics)
      end
  | Returns _ => fail ForStartNotNumber e
  | Fails err => fail err e
  | Panics => (e, Panics)
  end.

(** [for name := range e.forLoops { varName = name; break }]: the key the
    iteration starts at, [""] (the zero value of [varName]) when the map is
    empty; one number of [rangeStarts] is used up. *)
Definition first_key (e : Evaluator) : string * Evaluator :=
  let keys := elements (dom (forLoops e)) in
  let start := hd 0%nat (rangeStarts e) in
  let e' := set_rangeStarts (tl (rangeStarts e)) e in
  (default "" (keys !! (start mod length keys)%nat), e').

Definition evalNextStatement (variable : option string) : St := fun e =>
  let '(varName, e) :=
    match variable with
    | Some name => (name, e)
    | None => first_key e
    end in
  if String.eqb varName "" then fail NextWithoutFor e else
  match forLoops e !! varName with
  | None => fail NextWithoutMatchingFor e
  | Some loopState =>
      match Get varName (env e) with
      | None => fail (LoopVariableNotFound varName) e
      | Some (NumberValue numVal) =>
          let newVal := (numVal + Step loopState)%float in
          let shouldContinue :=
            if (0 <? Step loopState)%float
            then (newVal <=? End_ loopState)%float
            else (End_ loopState <=? newVal)%float in
          if shouldContinue then
            done (set_currentLine (StartLine loopState)
                    (set_env (Set_ varName (NumberValue newVal)) e))
          else done (set_forLoops (delete varName (forLoops e)) e)
      | Some _ => fail LoopVariableNotNumber e
      end
  end.

(** The value an input field stands for. *)
Definition field_value (text : string) : Value :=
  let val := TrimSpace text in
  match ParseFloat val with
  | Some num => NumberValue num
  | None => StringValue val
  end.

Fixpoint evalInputStatement_loop (i : nat) (vars : list string)
    (values : list string) (env : Environment) : Environment :=
  match vars with
  | [] => env
  | variable :: rest =>
      let env :=
        match values !! i with
        | None => Set_ variable (NumberValue 0%float) env
        | Some text => Set_ variable (field_value text) env
        end in
      evalInputStatement_loop (S i) rest values env
  end.

Definition evalInputStatement (prompt : string) (vars : list string) : St := fun e =>
  let e :=
    if String.eqb prompt "" then e
    else
      let e := fmt_Print prompt e in
      if HasSuffix prompt " " then e else fmt_Print " " e in
  match ReadString (reader (env e)) "" with
  | None =>
      fail EndOfInput
           (set_env (fun env => mkEnv (variables env) (arrays env) "") e)
  | Some (input, rest) =>
      let values := Split (TrimSpace input) in
      done (set_env
              (fun env =>
                 evalInputStatement_loop 0 vars values
                   (mkEnv (variables env) (arrays env) rest)) e)
  end.

Definition evalDimStatement (name : string) (size : Expression) : St := fun e =>
  match evalExpression size e with
  | Returns (NumberValue _) => done (set_env (SetArray name (mkArray ∅)) e)
  | Returns _ => fail DimSizeNotNumber e
  | Fails err => fail err e
  | Panics => (e, Panics)
  end.

Section evalStatement_functions.
Variable evalStatement : Statement -> St.

Definition evalIfStatement (condition : Expression) (consequence : Statement)
    (alternative : option Statement) : St := fun e =>
  match evalExpression condition e with
  | Returns cond =>
      if isTruthy cond then evalStatement consequence e
      else match alternative with
           | Some alt => evalStatement alt e
           | None => done e
           end
  | Fails err => fail err e
  | Panics => (e, Panics)
  end.

(** The loop of the [*ast.SequenceStatement] case. *)
Fixpoint evalSequence (stmts : list Statement) : St := fun e =>
  match stmts with
  | [] => done e
  | inner :: rest =>
      match evalStatement inner e with
      | (e', Returns _) => evalSequence rest e'
      | other => other
      end
  end.
End evalStatement_functions.

(** A nil [*LetStatement], [*IfStatement], [*ForStatement],
    [*InputStatement] or [*DimStatement] selects its case of the type
    switch, and the handler panics on its first field access. *)
Fixpoint evalStatement (stmt : Statement) : St :=
  match stmt with
  | PrintStatement exprs separators nl => evalPrintStatement exprs separators nl
  | LetStatement name value => evalLetStatement name value
  | IfStatement condition consequence alternative =>
      evalIfStatement evalStatement condition consequence alternative
  | GotoStatement lineNumber => evalGotoStatement lineNumber
  | GosubStatement lineNumber => evalGosubStatement lineNumber
  | ReturnStatement => evalReturnStatement
  | ForStatement variable start end_ step => evalForStatement variable start end_ step
  | NextStatement variable => evalNextStatement variable
  | InputStatement prompt vars => evalInputStatement prompt vars
  | EndStatement => fun e => done (set_halted true e)
  | RemStatement _ => done
  | DimStatement name size => evalDimStatement name size
  | ExpressionStatement expr => fun e =>
      match evalExpression expr e with
      | Returns _ => done e
      | Fails err => fail err e
      | Panics => (e, Panics)
      end
  | SequenceStatement stmts => evalSequence evalStatement stmts
  | NilStatement _ => fun e => (e, Panics)
  end.

(** One turn of the loop of [Run]: fetch, dispatch, advance. *)
Definition step (e : Evaluator) : Evaluator * outcome Error unit :=
  if currentLine e <? 0 then (e, Panics) else
  match lines e !! Z.to_nat (currentLine e) with
  | None => (e, Panics)
  | Some lineNum =>
      match
        match Statements (program e) !! lineNum with
        | Some stmt => evalStatement stmt e
        | None => fail UnknownStatementType e
        end
      with
      | (e', Returns _) => done (set_currentLine (currentLine e' + 1) e')
      | (e', Fails err) => (e', Fails (AtLine lineNum err))
      | (e', Panics) => (e', Panics)
      end
  end.

Definition running (e : Evaluator) : bool :=
  (currentLine e <? Z.of_nat (length (lines e))) && negb (halted e).

(** How a run ends: [Run] returns [nil] or an error, or the process
    panics; [Unfinished] when the budget of turns is used up first. *)
Inductive Ending : Set :=
| Finished (err : option Error)
| Crashed
| Unfinished.

Fixpoint Run_loop (turns : nat) (e : Evaluator) : Evaluator * Ending :=
  if running e then
    match turns with
    | O => (e, Unfinished)
    | S turns' =>
        match step e with
        | (e', Returns _) => Run_loop turns' e'
        | (e', Fails err) => (e', Finished (Some err))
        | (e', Panics) => (e', Crashed)
        end
    end
  else (e, Finished None).

Definition Run (turns : nat) (e : Evaluator) : Evaluator * Ending :=
  match lines e with
  | [] => (e, Finished None)
  | _ => Run_loop turns (set_currentLine 0 e)
  end.

End evaluator.

(** ** Package [compiler]

    [Compile] writes the text of a Go program.  The embedding gives that
    text its meaning: the runtime support that [runtimeHelpers] holds is
    translated like the rest of the code, and each [emit] function yields,
    instead of the lines it writes, what those lines do when the emitted
    program runs.  The temporaries [tmpN] are the values bound along the
    way.  Whether the Go compiler accepts the text is [builds] below: a
    text it refuses has no process to run. *)

Module compiler.
Import golib ast.

(** *** [runtimeHelpers] *)

Inductive valueKind : Set := numberKind | stringKind.

Record Value : Set := mkValue { kind : valueKind; num : float64; str : string }.

Definition numVal (v : float64) : Value := mkValue numberKind v "".
Definition strVal (v : string) : Value := mkValue stringKind 0%float v.

Definition isNumber (v : Value) : bool :=
  match kind v with numberKind => true | stringKind => false end.

Definition inspect (v : Value) : string :=
  if isNumber v then format_g (num v) else str v.

Record env : Set := mkEnv {
  vars : gmap string Value;
  arrays : gmap string (gmap Z Value);
  reader : string
}.

Definition newEnv (stdin : string) : env := mkEnv ∅ ∅ stdin.

Definition get (name : string) (e : env) : Value :=
  match vars e !! name with
  | Some v => v
  | None => numVal 0%float
  end.

Definition set (name : string) (val : Value) (e : env) : env :=
  mkEnv (<[name := val]> (vars e)) (arrays e) (reader e).

Definition ensureArray (name : string) (e : env) : env :=
  match arrays e !! name with
  | Some _ => e
  | None => mkEnv (vars e) (<[name := ∅]> (arrays e)) (reader e)
  end.

Definition array (name : string) (e : env) : option (gmap Z Value) :=
  arrays e !! name.

Record forLoopState : Set := mkLoop {
  End_ : float64;
  Step : float64;
  StartPC : Z
}.

(** The errors [run] returns, one constructor for each message.  [emitGoto]
    and [emitGosub] hand the text [return fmt.Errorf("line %d not found",
    lineNum)] to [emitter.line] as a format without arguments, so [Sprintf]
    writes [%!d(MISSING)] for the verb into the emitted source; at run time
    [Errorf] reads [!] as the verb for [lineNum], which gives
    [%!!(int=N)], and copies the rest. *)
Inductive Error : Set :=
| ExpectedNumber
| GotoRequiresNumber
| GosubRequiresNumber
| LineNotFound (lineNum : Z)
| ReturnWithoutGosub
| ForStartNotNumber
| ForEndNotNumber
| ForStepNotNumber
| NextWithoutFor
| NextWithoutMatchingFor
| LoopVariableNotNumber
| EndOfInput
| DivisionByZero
| UnsupportedOperation (left operator right : string)
| CannotNegate
| UnknownOperator (operator : string)
| ArrayNotDefined (name : string)
| ArrayIndexNotNumber
| UnknownLine (lineNum : Z).

Definition message (err : Error) : string :=
  match err with
  | ExpectedNumber => "expected number"
  | GotoRequiresNumber => "GOTO requires a number"
  | GosubRequiresNumber => "GOSUB requires a number"
  | LineNotFound n => "line %!!(int=" ++ format_d n ++ ")d(MISSING) not found"
  | ReturnWithoutGosub => "RETURN without GOSUB"
  | ForStartNotNumber => "FOR start value must be a number"
  | ForEndNotNumber => "FOR end value must be a number"
  | ForStepNotNumber => "FOR step value must be a number"
  | NextWithoutFor => "NEXT without FOR"
  | NextWithoutMatchingFor => "NEXT without matching FOR"
  | LoopVariableNotNumber => "loop variable must be a number"
  | EndOfInput => "EOF"
  | DivisionByZero => "division by zero"
  | UnsupportedOperation a op b =>
      "unsupported operation: " ++ a ++ " " ++ op ++ " " ++ b
  | CannotNegate => "cannot negate non-number"
  | UnknownOperator op => "unknown operator: " ++ op
  | ArrayNotDefined name => "array " ++ name ++ " not defined"
  | ArrayIndexNotNumber => "array index must be a number"
  | UnknownLine n => "unknown line " ++ format_d n
  end.

Definition mustNumber (v : Value) : outcome Error float64 :=
  if isNumber v then Returns (num v) else Fails ExpectedNumber.

Definition truthy (v : Value) : bool :=
  match kind v with
  | numberKind => negb (num v =? 0)%float
  | stringKind => negb (String.eqb (str v) "")
  end.

Definition truth (b : bool) : outcome Error Value :=
  Returns (numVal (if b then 1%float else 0%float)).

Definition applyPrefix (op : string) (right : Value) : outcome Error Value :=
  if String.eqb op "-" then
    if isNumber right then Returns (numVal (- num right)%float)
    else Fails CannotNegate
  else if String.eqb op "NOT" then truth (negb (truthy right))
  else Fails (UnknownOperator op).

Definition applyInfix (op : string) (left right : Value) : outcome Error Value :=
  let unsupported :=
    Fails (UnsupportedOperation (inspect left) op (inspect right)) in
  let strings :=
    match kind left, kind right with
    | stringKind, stringKind =>
        if String.eqb op "+" then Returns (strVal (str left ++ str right))
        else if String.eqb op "==" then truth (String.eqb (str left) (str right))
        else if String.eqb op "<>" then
          truth (negb (String.eqb (str left) (str right)))
        else unsupported
    | _, _ => unsupported
    end in
  if isNumber left && isNumber right then
    let a := num left in
    let b := num right in
    if String.eqb op "+" then Returns (numVal (a + b)%float)
    else if String.eqb op "-" then Returns (numVal (a - b)%float)
    else if String.eqb op "*" then Returns (numVal (a * b)%float)
    else if String.eqb op "/" then
      if (b =? 0)%float then Fails DivisionByZero
      else Returns (numVal (a / b)%float)
    else if String.eqb op "MOD" then Returns (numVal (Mod a b))
    else if String.eqb op "<" then truth (a <? b)%float
    else if String.eqb op ">" then truth (b <? a)%float
    else if String.eqb op "<=" then truth (a <=? b)%float
    else if String.eqb op ">=" then truth (b <=? a)%float
    else if String.eqb op "==" then truth (a =? b)%float
    else if String.eqb op "<>" then truth (negb (a =? b)%float)
    else if String.eqb op "AND" then truth (truthy left && truthy right)
    else if String.eqb op "OR" then truth (truthy left || truthy right)
    else strings
  else strings.

Definition arrayAccess (e : env) (name : string) (index : Value)
  : outcome Error Value :=
  match array name e with
  | None => Fails (ArrayNotDefined name)
  | Some arr =>
      match mustNumber index with
      | Returns idx =>
          match arr !! int_of_float idx with
          | None => Returns (numVal 0%float)
          | Some val => Returns val
          end
      | _ => Fails ArrayIndexNotNumber
      end
  end.

(** *** The emitted [run]

    Its package-level tables and its local variables, with the standard
    output and the map iteration starts of the process as for the
    interpreter. *)

Record Tables : Set := mkTables {
  programLines : list Z;
  lineIndex : gmap Z Z
}.

Record State : Set := mkState {
  env_ : env;
  callStack : list Z;
  forLoops : gmap string forLoopState;
  halted : bool;
  pc : Z;
  stdout : string;
  rangeStarts : list nat
}.

Definition with_env (f : env -> env) (s : State) : State :=
  mkState (f (env_ s)) (callStack s) (forLoops s) (halted s) (pc s)
          (stdout s) (rangeStarts s).
Definition with_callStack (c : list Z) (s : State) : State :=
  mkState (env_ s) c (forLoops s) (halted s) (pc s) (stdout s) (rangeStarts s).
Definition with_forLoops (m : gmap string forLoopState) (s : State) : State :=
  mkState (env_ s) (callStack s) m (halted s) (pc s) (stdout s) (rangeStarts s).
Definition with_halted (b : bool) (s : State) : State :=
  mkState (env_ s) (callStack s) (forLoops s) b (pc s) (stdout s) (rangeStarts s).
Definition with_pc (n : Z) (s : State) : State :=
  mkState (env_ s) (callStack s) (forLoops s) (halted s) n (stdout s)
          (rangeStarts s).
Definition with_rangeStarts (r : list nat) (s : State) : State :=
  mkState (env_ s) (callStack s) (forLoops s) (halted s) (pc s) (stdout s) r.

Definition fmt_Print (text : string) (s : State) : State :=
  mkState (env_ s) (callStack s) (forLoops s) (halted s) (pc s)
          (stdout s ++ text) (rangeStarts s).
Definition fmt_Println (s : State) : State := fmt_Print (String "010" "") s.

(** What emitted lines do: the lines of an expression bind a temporary or
    make [run] return an error; the lines of a statement change the
    variables of [run] or make it return an error. *)
Definition ExprCode : Type := State -> outcome Error Value.
Definition Code : Type := Tables -> State -> State * outcome Error unit.

Definition done (s : State) : State * outcome Error unit := (s, Returns tt).
Definition fail (err : Error) (s : State) : State * outcome Error unit :=
  (s, Fails err).

(** The errors of [Compile]: ["compiler: unsupported expression %T"] (the
    nil expression) and ["compiler: unsupported statement %T"]; on a nil
    statement pointer it panics. *)
Inductive CompileError : Set := UnsupportedExpression | UnsupportedStatement.

Definition Emit (A : Type) : Type := outcome CompileError A.

Definition emit_bind {A B} (m : Emit A) (k : A -> Emit B) : Emit B :=
  match m with
  | Returns a => k a
  | Fails err => Fails err
  | Panics => Panics
  end.

Notation "'emit' x <- m ; k" := (emit_bind m (fun x => k))
  (at level 10, x name, m at level 100, k at level 200).

Fixpoint emitExpression (expr : Expression) : Emit ExprCode :=
  match expr with
  | NumberLiteral v => Returns (fun _ => Returns (numVal v))
  | StringLiteral v => Returns (fun _ => Returns (strVal v))
  | Identifier name => Returns (fun s => Returns (get name (env_ s)))
  | InfixExpression l op r =>
      emit left <- emitExpression l;
      emit right <- emitExpression r;
      Returns (fun s =>
        match left s with
        | Returns a =>
            match right s with
            | Returns b => applyInfix op a b
            | other => other
            end
        | other => other
        end)
  | PrefixExpression op r =>
      emit right <- emitExpression r;
      Returns (fun s =>
        match right s with
        | Returns b => applyPrefix op b
        | other => other
        end)
  | ArrayAccess name idx =>
      emit index <- emitExpression idx;
      Returns (fun s =>
        match index s with
        | Returns i => arrayAccess (env_ s) name i
        | other => other
        end)
  | NilExpression => Fails UnsupportedExpression
  end.

(** Run the lines of an expression, then the lines that use its value. *)
Definition with_value (val : ExprCode) (k : Value -> State -> State * outcome Error unit)
  : State -> State * outcome Error unit := fun s =>
  match val s with
  | Returns v => k v s
  | Fails err => fail err s
  | Panics => (s, Panics)
  end.

Fixpoint emitPrint_loop (i : nat) (exprs : list Expression) (separators : list string)
  : Emit Code :=
  match exprs with
  | [] => Returns (fun _ s => done s)
  | expr :: rest =>
      emit val <- emitExpression expr;
      emit more <- emitPrint_loop (S i) rest separators;
      Returns (fun t =>
        with_value val (fun v s =>
          let s := fmt_Print (inspect v) s in
          let s := match separators !! i with
                   | Some sep => fmt_Print sep s
                   | None => s
                   end in
          more t s))
  end.

Definition emitPrint (exprs : list Expression) (separators : list string)
    (trailingNewline : bool) : Emit Code :=
  match exprs with
  | [] => Returns (fun _ s => done (fmt_Println s))
  | _ =>
      emit body <- emitPrint_loop 0 exprs separators;
      Returns (fun t s =>
        match body t s with
        | (s', Returns _) => done (if trailingNewline then fmt_Println s' else s')
        | other => other
        end)
  end.

Definition emitLet (name : string) (value : Expression) : Emit Code :=
  emit val <- emitExpression value;
  Returns (fun _ => with_value val (fun v s => done (with_env (set name v) s))).

Definition emitGoto (lineNumber : Expression) : Emit Code :=
  emit targetVal <- emitExpression lineNumber;
  Returns (fun t => with_value targetVal (fun v s =>
    match mustNumber v with
    | Returns numVar =>
        let lineNum := int_of_float numVar in
        match lineIndex t !! lineNum with
        | Some idx => done (with_pc (idx - 1) s)
        | None => fail (LineNotFound lineNum) s
        end
    | _ => fail GotoRequiresNumber s
    end)).

Definition emitGosub (lineNumber : Expression) : Emit Code :=
  emit targetVal <- emitExpression lineNumber;
  Returns (fun t => with_value targetVal (fun v s =>
    match mustNumber v with
    | Returns numVar =>
        let lineNum := int_of_float numVar in
        match lineIndex t !! lineNum with
        | Some idx =>
            let s := with_callStack (callStack s ++ [pc s])%list s in
            done (with_pc (idx - 1) s)
        | None => fail (LineNotFound lineNum) s
        end
    | _ => fail GosubRequiresNumber s
    end)).

(** The lines of the [*ast.ReturnStatement] case. *)
Definition emitReturn : Code := fun _ s =>
  match last (callStack s) with
  | None => fail ReturnWithoutGosub s
  | Some top => done (with_callStack (removelast (callStack s)) (with_pc top s))
  end.

Definition emitFor (variable : string) (start end_ step : Expression) : Emit Code :=
  emit startVal <- emitExpression start;
  emit endVal <- emitExpression end_;
  emit stepVal <- emitExpression step;
  Returns (fun _ =>
    with_value startVal (fun sv =>
    with_value endVal (fun ev =>
    with_value stepVal (fun pv s =>
      match mustNumber sv with
      | Returns startNum =>
          match mustNumber ev with
          | Returns endNum =>
              match mustNumber pv with
              | Returns stepNum =>
                  let s := with_env (set variable (numVal startNum)) s in
                  done (with_forLoops
                          (<[variable := mkLoop endNum stepNum (pc s)]> (forLoops s)) s)
              | _ => fail ForStepNotNumber s
              end
          | _ => fail ForEndNotNumber s
          end
      | _ => fail ForStartNotNumber s
      end)))).

(** [for name := range forLoops { loopName = name; break }] *)
Definition first_key (s : State) : string * State :=
  let keys := elements (dom (forLoops s)) in
  let start := hd 0%nat (rangeStarts s) in
  let s' := with_rangeStarts (tl (rangeStarts s)) s in
  (default "" (keys !! (start mod length keys)%nat), s').

Definition emitNext (variable : option string) : Code := fun _ s =>
  let '(loopName, s) :=
    match variable with
    | Some name => (name, s)
    | None => first_key s
    end in
  if String.eqb loopName "" then fail NextWithoutFor s else
  match forLoops s !! loopName with
  | None => fail NextWithoutMatchingFor s
  | Some loopState =>
      let val := get loopName (env_ s) in
      if negb (isNumber val) then fail LoopVariableNotNumber s else
      let newVal := (num val + Step loopState)%float in
      let shouldContinue :=
        if (0 <? Step loopState)%float
        then (newVal <=? End_ loopState)%float
        else (End_ loopState <=? newVal)%float in
      if shouldContinue then
        done (with_pc (StartPC loopState) (with_env (set loopName (numVal newVal)) s))
      else done (with_forLoops (delete loopName (forLoops s)) s)
  end.

Definition field_value (part : string) : Value :=
  let text := TrimSpace part in
  match ParseFloat text with
  | Some n => numVal n
  | None => strVal text
  end.

Fixpoint emitInput_loop (i : nat) (idents : list string) (parts : list string)
    (e : env) : env :=
  match idents with
  | [] => e
  | ident :: rest =>
      let valVar :=
        match parts !! i with
        | Some part => field_value part
        | None => numVal 0%float
        end in
      emitInput_loop (S i) rest parts (set ident valVar e)
  end.

Definition emitInput (prompt : string) (idents : list string) : Code := fun _ s =>
  let s :=
    if String.eqb prompt "" then s
    else
      let s := fmt_Print prompt s in
      if HasSuffix prompt " " then s else fmt_Print " " s in
  match ReadString (reader (env_ s)) "" with
  | None => fail EndOfInput (with_env (fun e => mkEnv (vars e) (arrays e) "") s)
  | Some (line, rest) =>
      let parts := Split (TrimSpace line) in
      done (with_env
              (fun e => emitInput_loop 0 idents parts (mkEnv (vars e) (arrays e) rest)) s)
  end.

Section emitStatement_functions.
Variable emitStatement : Statement -> Emit Code.

Definition emitIf (condition : Expression) (consequence : Statement)
    (alternative : option Statement) : Emit Code :=
  emit cond <- emitExpression condition;
  emit thenCode <- emitStatement consequence;
  emit elseCode <-
    match alternative with
    | Some alt => emitStatement alt
    | None => Returns (fun _ s => done s)
    end;
  Returns (fun t => with_value cond (fun v s =>
    if truthy v then thenCode t s else elseCode t s)).

Fixpoint emitSequence (stmts : list Statement) : Emit Code :=
  match stmts with
  | [] => Returns (fun _ s => done s)
  | inner :: rest =>
      emit first <- emitStatement inner;
      emit others <- emitSequence rest;
      Returns (fun t s =>
        match first t s with
        | (s', Returns _) => others t s'
        | other => other
        end)
  end.
End emitStatement_functions.

(** A nil statement pointer selects its case and [Compile] panics on the
    first field access. *)
Fixpoint emitStatement (stmt : Statement) : Emit Code :=
  match stmt with
  | PrintStatement exprs separators nl => emitPrint exprs separators nl
  | LetStatement name value => emitLet name value
  | IfStatement condition consequence alternative =>
      emitIf emitStatement condition consequence alternative
  | GotoStatement lineNumber => emitGoto lineNumber
  | GosubStatement lineNumber => emitGosub lineNumber
  | ReturnStatement => Returns emitReturn
  | ForStatement variable start end_ step => emitFor variable start end_ step
  | NextStatement variable => Returns (emitNext variable)
  | InputStatement prompt vars => Returns (emitInput prompt vars)
  | EndStatement => Returns (fun _ s => done (with_halted true s))
  | RemStatement _ => Returns (fun _ s => done s)
  | DimStatement name _ => Returns (fun _ s => done (with_env (ensureArray name) s))
  | ExpressionStatement expr =>
      emit val <- emitExpression expr;
      Returns (fun _ => with_value val (fun _ s => done s))
  | SequenceStatement stmts => emitSequence emitStatement stmts
  | NilStatement _ => Panics
  end.

(** *** What the Go compiler makes of the emitted text

    The lines of one [case] stand in one block, those of a [SequenceStatement]
    in the block of the sequence itself, those of each branch of an [IF] in a
    block of their own.  Temporaries are numbered and [err] always comes with
    one, so a short declaration of them is always of a new variable.  The
    other names are declared as they are written: [lineNum] by GOTO and
    GOSUB, [loopName] by NEXT, [parts] by INPUT, and a second [:=] of one of
    them in the same block is an error of the Go compiler.  So is [parts]
    when no variable follows INPUT: it is declared and not used. *)
Fixpoint block (stmt : Statement) : list Statement :=
  match stmt with
  | SequenceStatement stmts => flat_map block stmts
  | _ => [stmt]
  end.

Definition declares_lineNum (stmt : Statement) : bool :=
  match stmt with
  | GotoStatement _ | GosubStatement _ => true
  | _ => false
  end.

Definition declares_loopName (stmt : Statement) : bool :=
  match stmt with NextStatement _ => true | _ => false end.

Definition declares_parts (stmt : Statement) : bool :=
  match stmt with InputStatement _ _ => true | _ => false end.

Definition declared_once (stmt : Statement) : bool :=
  let lines := block stmt in
  ((length (filter declares_lineNum lines) <=? 1)%nat
   && (length (filter declares_loopName lines) <=? 1)%nat
   && (length (filter declares_parts lines) <=? 1)%nat)%bool.

Fixpoint blocks_build (stmt : Statement) : bool :=
  match stmt with
  | IfStatement _ consequence alternative =>
      declared_once consequence && blocks_build consequence
      && match alternative with
         | Some alt => declared_once alt && blocks_build alt
         | None => true
         end
  | SequenceStatement stmts => forallb blocks_build stmts
  | InputStatement _ [] => false
  | _ => true
  end.

Definition case_builds (stmt : Statement) : bool :=
  declared_once stmt && blocks_build stmt.

(** The emitted program: the two tables and the [case] of each line, and
    whether the Go compiler accepts the text. *)
Record Emitted : Type := mkEmitted {
  tables : Tables;
  cases : list (Z * Code);
  builds : bool
}.

Fixpoint emitCases (program : Program) (lines : list Z) : Emit (list (Z * Code)) :=
  match lines with
  | [] => Returns []
  | line :: rest =>
      emit code <-
        match Statements program !! line with
        | Some stmt => emitStatement stmt
        | None => Fails UnsupportedStatement
        end;
      emit others <- emitCases program rest;
      Returns ((line, code) :: others)
  end.

Fixpoint index_lines (lines : list Z) (i : Z) (m : gmap Z Z) : gmap Z Z :=
  match lines with
  | [] => m
  | line :: rest => index_lines rest (i + 1) (<[line := i]> m)
  end.

Definition Compile (program : Program) : Emit Emitted :=
  let lines := merge_sort Z.le (map fst (map_to_list (Statements program))) in
  let lineIndex := index_lines lines 0 ∅ in
  emit cases <- emitCases program lines;
  Returns (mkEmitted (mkTables lines lineIndex) cases
             (forallb (fun line =>
                         match Statements program !! line with
                         | Some stmt => case_builds stmt
                         | None => true
                         end) lines)).

(** [switch programLines[pc]]: the first [case] with that line. *)
Fixpoint select (line : Z) (cases : list (Z * Code)) : option Code :=
  match cases with
  | [] => None
  | (l, code) :: rest => if l =? line then Some code else select line rest
  end.

(** One turn of the loop of [run]. *)
Definition step (p : Emitted) (s : State) : State * outcome Error unit :=
  if pc s <? 0 then (s, Panics) else
  match programLines (tables p) !! Z.to_nat (pc s) with
  | None => (s, Panics)
  | Some line =>
      match select line (cases p) with
      | None => fail (UnknownLine line) s
      | Some code =>
          match code (tables p) s with
          | (s', Returns _) => done (with_pc (pc s' + 1) s')
          | other => other
          end
      end
  end.

Definition running (p : Emitted) (s : State) : bool :=
  (pc s <? Z.of_nat (length (programLines (tables p)))) && negb (halted s).

(** How the emitted process ends: [main] returns (exit status 0), [run]
    returned an error (exit status 1), or a panic; [NotBuilt] when the Go
    compiler refuses the text and there is no process. *)
Inductive Ending : Set :=
| Exit (err : option Error)
| Crashed
| Unfinished
| NotBuilt.

Fixpoint run_loop (turns : nat) (p : Emitted) (s : State) : State * Ending :=
  if running p s then
    match turns with
    | O => (s, Unfinished)
    | S turns' =>
        match step p s with
        | (s', Returns _) => run_loop turns' p s'
        | (s', Fails err) => (s', Exit (Some err))
        | (s', Panics) => (s', Crashed)
        end
    end
  else (s, Exit None).

Definition run (turns : nat) (p : Emitted) (stdin : string) (starts : list nat)
  : State * Ending :=
  let start := mkState (newEnv stdin) [] ∅ false 0 "" starts in
  if builds p then run_loop turns p start else (start, NotBuilt).

End compiler.


(** ** The commands of the prompt: LIST and DELETE

    The functions of package [main] that read the arguments of LIST and
    DELETE and go through the stored lines, a [map[int]string] from line
    numbers to the text of the lines. *)

Module repl.
Import golib.

(** [strings.Contains(s, "-")] *)
Fixpoint contains_dash (s : string) : bool :=
  match s with
  | EmptyString => false
  | String c rest => Ascii.eqb c "-" || contains_dash rest
  end.

(** [strings.SplitN(s, "-", 2)] for a text that holds a ["-"]: what is
    before the first one and what is after it. *)
Fixpoint split_at_dash (s : string) (before : string) : string * string :=
  match s with
  | EmptyString => (before, "")
  | String c rest =>
      if Ascii.eqb c "-" then (before, rest)
      else split_at_dash rest (before ++ String c "")
  end.

(** The errors of the two commands, one constructor for each message
    (the messages of [strconv.Atoi] are left out). *)
Inductive Error : Set :=
| MissingLineNumber
| RangeRequiresBoth
| ListRequiresStart
| InvalidStartLine
| InvalidEndLine
| EndBeforeStart
| InvalidLineNumber.

Definition message (err : Error) : string :=
  match err with
  | MissingLineNumber => "missing line number"
  | RangeRequiresBoth =>
      "DELETE range requires both start and end, e.g. DELETE 10-20"
  | ListRequiresStart => "LIST requires a starting line number"
  | InvalidStartLine => "invalid start line: "
  | InvalidEndLine => "invalid end line: "
  | EndBeforeStart => "end line must be >= start line"
  | InvalidLineNumber => "invalid line number: "
  end.

Definition parseDeleteArgs (arg : string) : outcome Error (Z * Z) :=
  let arg := TrimSpace arg in
  if String.eqb arg "" then Fails MissingLineNumber else
  if contains_dash arg then
    let parts := split_at_dash arg "" in
    let startStr := TrimSpace (fst parts) in
    let endStr := TrimSpace (snd parts) in
    if String.eqb startStr "" || String.eqb endStr "" then Fails RangeRequiresBoth
    else
      match Atoi startStr with
      | None => Fails InvalidStartLine
      | Some start =>
          match Atoi endStr with
          | None => Fails InvalidEndLine
          | Some end_ =>
              if end_ <? start then Fails EndBeforeStart
              else Returns (start, end_)
          end
      end
  else
    match Atoi arg with
    | None => Fails InvalidLineNumber
    | Some num => Returns (num, num)
    end.

(** [deleteLines]: the lines that are left and the number of lines
    deleted.  (Deleting the entry reached by a [range] over a map is
    allowed, and every entry is reached once.) *)
Definition deleteLines (lines : gmap Z string) (arg : string)
  : outcome Error (gmap Z string * Z) :=
  match parseDeleteArgs arg with
  | Returns (start, end_) =>
      let deleted := filter (fun entry => start <= fst entry /\ fst entry <= end_) lines in
      Returns (filter (fun entry => ~ (start <= fst entry /\ fst entry <= end_)) lines,
               Z.of_nat (size deleted))
  | Fails err => Fails err
  | Panics => Panics
  end.


End repl.


(** * Properties *)

Import golib ast.

(** ** Reading variables and arrays *)

Section reads.
Import evaluator.
Variable e : Evaluator.

Lemma identifier_read (name : string) :
  evalExpression (Identifier name) e
  = Returns (default (NumberValue 0%float) (Get name (env e))).
Proof. simpl. destruct (Get name (env e)); reflexivity. Qed.

Lemma array_read_undeclared (name : string) (index : Expression) :
  GetArray name (env e) = None ->
  evalExpression (ArrayAccess name index) e = Fails (ArrayNotDefined name).
Proof. intros H. simpl. rewrite H. reflexivity. Qed.

Lemma array_read_declared (name : string) (index : Expression)
    (arr : ArrayValue) (i : float64) :
  GetArray name (env e) = Some arr ->
  evalExpression index e = Returns (NumberValue i) ->
  evalExpression (ArrayAccess name index) e
  = Returns (default (NumberValue 0%float) (Elements arr !! int_of_float i)).
Proof.
  intros Harr Hidx. simpl. rewrite Harr, Hidx.
  destruct (Elements arr !! int_of_float i); reflexivity.
Qed.

Lemma array_read_bad_index (name : string) (index : Expression)
    (arr : ArrayValue) (s : string) :
  GetArray name (env e) = Some arr ->
  evalExpression index e = Returns (StringValue s) ->
  evalExpression (ArrayAccess name index) e = Fails ArrayIndexNotNumber.
Proof. intros Harr Hidx. simpl. rewrite Harr, Hidx. reflexivity. Qed.

End reads.

(** C7: reading an unset scalar variable gives Number 0 and reading a
    scalar never fails; reading an element of an array that was never
    declared fails with "array <name> not defined"; in a declared array an
    index with no stored value reads as Number 0; an index expression whose
    value is not a Number is the error "array index must be a number". *)
Theorem C7_scalar_and_array_reads (e : evaluator.Evaluator) (name : string)
    (index : Expression) :
  (evaluator.Get name (evaluator.env e) = None ->
   evaluator.evalExpression (Identifier name) e
   = Returns (evaluator.NumberValue 0%float))
  /\ (exists v, evaluator.evalExpression (Identifier name) e = Returns v)
  /\ (evaluator.GetArray name (evaluator.env e) = None ->
      evaluator.evalExpression (ArrayAccess name index) e
      = Fails (evaluator.ArrayNotDefined name)
      /\ evaluator.message (evaluator.ArrayNotDefined name)
         = "array " ++ name ++ " not defined")
  /\ (forall arr i,
        evaluator.GetArray name (evaluator.env e) = Some arr ->
        evaluator.evalExpression index e = Returns (evaluator.NumberValue i) ->
        evaluator.Elements arr !! int_of_float i = None ->
        evaluator.evalExpression (ArrayAccess name index) e
        = Returns (evaluator.NumberValue 0%float))
  /\ (forall arr s,
        evaluator.GetArray name (evaluator.env e) = Some arr ->
        evaluator.evalExpression index e = Returns (evaluator.StringValue s) ->
        evaluator.evalExpression (ArrayAccess name index) e
        = Fails evaluator.ArrayIndexNotNumber
        /\ evaluator.message evaluator.ArrayIndexNotNumber
           = "array index must be a number").
Proof.
  repeat split.
  - intros H. rewrite identifier_read, H. reflexivity.
  - rewrite identifier_read. eauto.
  - apply array_read_undeclared; assumption.
  - intros arr i Harr Hidx Hnone.
    rewrite (array_read_declared e name index arr i Harr Hidx), Hnone.
    reflexivity.
  - eapply array_read_bad_index; eassumption.
Qed.

(** ** Division and remainder *)

Lemma Mod_zero_divisor (x y : float64) :
  (y =? 0)%float = true -> is_nan (Mod x y) = true.
Proof. intros H. unfold Mod. rewrite H. reflexivity. Qed.

Lemma interpreter_mod (x y : float64) :
  evaluator.infix "MOD" (evaluator.NumberValue x) (evaluator.NumberValue y)
  = Returns (evaluator.NumberValue (Mod x y)).
Proof. reflexivity. Qed.

Lemma interpreter_div (x y : float64) :
  evaluator.infix "/" (evaluator.NumberValue x) (evaluator.NumberValue y)
  = if (y =? 0)%float then Fails evaluator.DivisionByZero
    else Returns (evaluator.NumberValue (x / y)%float).
Proof. reflexivity. Qed.

Lemma emitted_mod (x y : float64) :
  compiler.applyInfix "MOD" (compiler.numVal x) (compiler.numVal y)
  = Returns (compiler.numVal (Mod x y)).
Proof. reflexivity. Qed.

Lemma emitted_div (x y : float64) :
  compiler.applyInfix "/" (compiler.numVal x) (compiler.numVal y)
  = if (y =? 0)%float then Fails compiler.DivisionByZero
    else Returns (compiler.numVal (x / y)%float).
Proof. reflexivity. Qed.

(** C8: when both operands evaluate to Numbers [x] and [y], [x MOD y]
    never fails, also for [y = 0], where its value [math.Mod x y] is NaN;
    [x / y] fails with "division by zero" exactly when [y == 0] and is the
    quotient otherwise.  The interpreter and the emitted [applyInfix] agree
    on this. *)
Theorem C8_mod_total_division_guarded (e : evaluator.Evaluator)
    (l r : Expression) (x y : float64) :
  evaluator.evalExpression l e = Returns (evaluator.NumberValue x) ->
  evaluator.evalExpression r e = Returns (evaluator.NumberValue y) ->
  evaluator.evalExpression (InfixExpression l "MOD" r) e
  = Returns (evaluator.NumberValue (Mod x y))
  /\ ((y =? 0)%float = true -> is_nan (Mod x y) = true)
  /\ (evaluator.evalExpression (InfixExpression l "/" r) e
      = Fails evaluator.DivisionByZero <-> (y =? 0)%float = true)
  /\ ((y =? 0)%float = false ->
      evaluator.evalExpression (InfixExpression l "/" r) e
      = Returns (evaluator.NumberValue (x / y)%float))
  /\ evaluator.message evaluator.DivisionByZero = "division by zero"
  /\ compiler.applyInfix "MOD" (compiler.numVal x) (compiler.numVal y)
     = Returns (compiler.numVal (Mod x y))
  /\ (compiler.applyInfix "/" (compiler.numVal x) (compiler.numVal y)
      = Fails compiler.DivisionByZero <-> (y =? 0)%float = true)
  /\ ((y =? 0)%float = false ->
      compiler.applyInfix "/" (compiler.numVal x) (compiler.numVal y)
      = Returns (compiler.numVal (x / y)%float))
  /\ compiler.message compiler.DivisionByZero = "division by zero".
Proof.
  intros Hl Hr.
  assert (Hmod : evaluator.evalExpression (InfixExpression l "MOD" r) e
                 = Returns (evaluator.NumberValue (Mod x y))).
  { simpl. rewrite Hl, Hr. apply interpreter_mod. }
  assert (Hdiv : evaluator.evalExpression (InfixExpression l "/" r) e
                 = if (y =? 0)%float then Fails evaluator.DivisionByZero
                   else Returns (evaluator.NumberValue (x / y)%float)).
  { simpl. rewrite Hl, Hr. apply interpreter_div. }
  split; [exact Hmod|].
  split; [apply Mod_zero_divisor|].
  split; [rewrite Hdiv; destruct (y =? 0)%float; split; congruence|].
  split; [intros H; rewrite Hdiv, H; reflexivity|].
  split; [reflexivity|].
  split; [apply emitted_mod|].
  split; [rewrite emitted_div; destruct (y =? 0)%float; split; congruence|].
  split; [intros H; rewrite emitted_div, H; reflexivity|].
  reflexivity.
Qed.

(** [7 MOD 0] and [7 / 0] in a fresh interpreter. *)
Lemma C8_witness :
  let e := evaluator.New (mkProgram ∅) "" [] in
  evaluator.evalExpression
    (InfixExpression (NumberLiteral 7%float) "MOD" (NumberLiteral 0%float)) e
  = Returns (evaluator.NumberValue (Mod 7 0)%float)
  /\ evaluator.evalExpression
       (InfixExpression (NumberLiteral 7%float) "/" (NumberLiteral 0%float)) e
     = Fails evaluator.DivisionByZero.
Proof.
  intros e.
  pose proof (C8_mod_total_division_guarded e
                (NumberLiteral 7%float) (NumberLiteral 0%float) 7%float 0%float
                eq_refl eq_refl) as (Hmod & _ & Hdiv & _).
  split; [exact Hmod|]. apply Hdiv. reflexivity.
Defined.

(** ** GOSUB and RETURN *)

Section call_stack.
Import evaluator.








End call_stack.

Section emitted_call_stack.
Import compiler.



End emitted_call_stack.


(** ** Programs as text *)

(** A string literal of the language: the text between two double quotes. *)
Definition quoted (s : string) : string :=
  String "034" s ++ String "034" "".

(** The lines of a program, each ended by a line feed. *)
Fixpoint text_of (source_lines : list string) : string :=
  match source_lines with
  | [] => ""
  | line :: rest => line ++ String "010" (text_of rest)
  end.

(** What the interpreter prints and how its run ends, for a text that parses
    without errors ([None] otherwise). *)
Definition interpret (src stdin : string) (starts : list nat)
  : option (string * evaluator.Ending) :=
  match parser.parse 100 src with
  | Ok (program, []) =>
      let '(e, ending) := evaluator.Run 1000 (evaluator.New program stdin starts) in
      Some (evaluator.stdout e, ending)
  | _ => None
  end.

(** What the emitted program prints and how its process ends. *)
Definition compile_and_run (src stdin : string) (starts : list nat)
  : option (string * compiler.Ending) :=
  match parser.parse 100 src with
  | Ok (program, []) =>
      match compiler.Compile program with
      | Returns emitted =>
          let '(s, ending) := compiler.run 1000 emitted stdin starts in
          Some (compiler.stdout s, ending)
      | _ => None
      end
  | _ => None
  end.

(** ** IF with colon-chained statements *)

Definition if_chain_source : string :=
  "10 IF 1 THEN PRINT " ++ quoted "Y" ++ ": PRINT " ++ quoted "Z"
  ++ " ELSE PRINT " ++ quoted "N".

Definition if_chain_let_source : string :=
  "20 IF X > 0 THEN LET A = 1: GOTO 50 ELSE LET A = 2".

Definition print_text (s : string) : Statement :=
  PrintStatement [StringLiteral s] [] true.

Definition nested_if_source : string :=
  "10 IF 1 THEN IF 0 THEN PRINT " ++ quoted "Y" ++ ": PRINT " ++ quoted "Z"
  ++ " ELSE PRINT " ++ quoted "N".

Definition rem_chain_source : string :=
  "10 IF 1 THEN REM x: PRINT " ++ quoted "Z" ++ " ELSE PRINT " ++ quoted "N".

Definition second_if_source : string :=
  "10 IF 1 THEN PRINT " ++ quoted "Y" ++ ": IF 0 THEN PRINT " ++ quoted "Z"
  ++ " ELSE PRINT " ++ quoted "N".

Definition second_rem_source : string :=
  "10 IF 1 THEN PRINT " ++ quoted "Y" ++ ": REM x ELSE PRINT " ++ quoted "N".

(** What the rule gives for [nested_if_source], with
    [a := IF 0 THEN PRINT "Y"]. *)
Definition nested_if_by_the_rule : Statement :=
  IfStatement (NumberLiteral 1%float)
    (SequenceStatement
       [IfStatement (NumberLiteral 0%float) (print_text "Y") None; print_text "Z"])
    (Some (print_text "N")).

Section if_chain.
Import token lexer parser.

(** The parser after one call of [nextToken]. *)
Definition advanced (p : Parser) : Parser :=
  mkParser (snd (NextToken (l p))) (errors p) (peekToken p)
           (fst (NextToken (l p))).

(** The token after the next one starts a statement: it does not end the
    loop of [parseStatement]. *)
Definition starts_statement (p : Parser) : Prop :=
  let t := Type_ (curToken (advanced (advanced p))) in
  t <> NEWLINE /\ t <> EOF /\ t <> COLON /\ t <> ELSE.

(** Where a method leaves the parser. *)
Definition reached {A : Type} (m : M A) (p : Parser) : Parser :=
  match m p with
  | Ok (_, p') => p'
  | _ => p
  end.

Lemma nextToken_advanced (p : Parser) : nextToken p = Ok (tt, advanced p).
Proof. unfold nextToken, advanced. destruct (NextToken (l p)). reflexivity. Qed.

Lemma bind_Ok {A B : Type} (m : M A) (k : A -> M B) (p p' : Parser) (a : A) :
  m p = Ok (a, p') -> bind m k p = k a p'.
Proof. intros H. unfold bind. rewrite H. reflexivity. Qed.

Lemma peekTokenIs_peek (t : TokenType) (p : Parser) :
  peekTokenIs t p = Ok (bool_decide (Type_ (peekToken p) = t), p).
Proof. reflexivity. Qed.

(** The rule of [IF c THEN a: b ELSE c2], for the parser at the IF: when
    the statement parsed after THEN stops in front of a colon, a statement
    starts after the colon, and the statement parsed there stops in front of
    ELSE, the IF has the sequence of the two as its consequence and what
    [parseStatement] returns after ELSE as its alternative. *)
Lemma if_colon_chain (h : nat) (p pc pa pb pe : Parser)
    (c : Expression) (a b c2 : Statement) :
  let g := S h in
  let f := S g in
  Type_ (curToken p) = IF ->
  parseExpression f LOWEST (advanced p) = Ok (c, pc) ->
  Type_ (peekToken pc) = THEN ->
  parseSingleStatement (parseStatement g) g (advanced (advanced pc)) = Ok (a, pa) ->
  Type_ (peekToken pa) = COLON ->
  starts_statement pa ->
  parseSingleStatement (parseStatement g) g (advanced (advanced pa)) = Ok (b, pb) ->
  Type_ (peekToken pb) = ELSE ->
  parseStatement f (advanced (advanced pb)) = Ok (c2, pe) ->
  parseSingleStatement (parseStatement f) f p
  = Ok (IfStatement c (SequenceStatement [a; b]) (Some c2), pe).
Proof.
  intros g f Hif Hc Hthen Ha Hcolon Hstart Hb Helse Hc2.
  unfold parseSingleStatement at 1. unfold bind at 1, cur at 1. rewrite Hif.
  unfold parseIfStatement.
  rewrite (bind_Ok _ _ _ _ _ (nextToken_advanced p)).
  rewrite (bind_Ok _ _ _ _ _ Hc).
  assert (Hexpect : expectPeek THEN pc = Ok (true, advanced pc)).
  { unfold expectPeek. rewrite (bind_Ok _ _ _ _ _ (peekTokenIs_peek THEN pc)).
    rewrite bool_decide_eq_true_2 by exact Hthen.
    rewrite (bind_Ok _ _ _ _ _ (nextToken_advanced pc)). reflexivity. }
  rewrite (bind_Ok _ _ _ _ _ Hexpect). cbn [negb].
  rewrite (bind_Ok _ _ _ _ _ (nextToken_advanced (advanced pc))).
  assert (Hconsequence :
            parseStatement f (advanced (advanced pc))
            = Ok (SequenceStatement [a; b], pb)).
  { subst f. cbn [parseStatement]. fold g.
    rewrite (bind_Ok _ _ _ _ _ Ha).
    assert (Hloop : parseStatement_loop (parseStatement g) g g [a] pa
                    = Ok ([a; b], pb)).
    { subst g. cbn [parseStatement_loop].
      rewrite (bind_Ok _ _ _ _ _ (peekTokenIs_peek COLON pa)).
      rewrite bool_decide_eq_true_2 by exact Hcolon. cbn [negb].
      rewrite (bind_Ok _ _ _ _ _ (nextToken_advanced pa)).
      rewrite (bind_Ok _ _ _ _ _ (nextToken_advanced (advanced pa))).
      unfold bind at 1, cur at 1.
      destruct Hstart as (Hn & He & Hk & Hl). unfold is_.
      rewrite !bool_decide_eq_false_2 by assumption. cbn [orb].
      rewrite (bind_Ok _ _ _ _ _ Hb). cbn [app].
      destruct h; cbn [parseStatement_loop];
        rewrite (bind_Ok _ _ _ _ _ (peekTokenIs_peek COLON pb));
        rewrite bool_decide_eq_false_2 by (rewrite Helse; discriminate);
        reflexivity. }
    rewrite (bind_Ok _ _ _ _ _ Hloop). reflexivity. }
  rewrite (bind_Ok _ _ _ _ _ Hconsequence).
  rewrite (bind_Ok _ _ _ _ _ (peekTokenIs_peek ELSE pb)).
  rewrite bool_decide_eq_true_2 by exact Helse.
  rewrite (bind_Ok _ _ _ _ _ (nextToken_advanced pb)).
  rewrite (bind_Ok _ _ _ _ _ (nextToken_advanced (advanced pb))).
  rewrite (bind_Ok _ _ _ _ _ Hc2). reflexivity.
Qed.

End if_chain.

(** C3 fails as a rule for every [a] and [b]: an IF in the place of [a]
    takes the rest of the line, ELSE included, for its own branches.  The
    line [10 IF 1 THEN IF 0 THEN PRINT "Y": PRINT "Z" ELSE PRINT "N"] parses,
    without errors, to an IF without alternative whose consequence is the
    inner IF with both PRINTs as its consequence and the third as its
    alternative; it prints [N], where the grouping of the rule prints [Z].
    With REM in the place of [a] the comment ends at the colon, the IF ends
    there, without the chain and without alternative, and the ELSE is
    reported as an error.  In the place of [b], an IF takes the ELSE and what
    follows it as its own alternative, and a REM takes them into its
    comment; the outer IF is left without alternative. *)
Lemma C3_nested_if_counterexample :
  (exists program,
      parser.parse 100 nested_if_source = Ok (program, [])
      /\ map_to_list (Statements program)
         = [(10, IfStatement (NumberLiteral 1%float)
                   (IfStatement (NumberLiteral 0%float)
                      (SequenceStatement [print_text "Y"; print_text "Z"])
                      (Some (print_text "N")))
                   None)]
      /\ Statements program !! 10 <> Some nested_if_by_the_rule)
  /\ interpret nested_if_source "" []
     = Some (text_of ["N"], evaluator.Finished None)
  /\ compile_and_run nested_if_source "" []
     = Some (text_of ["N"], compiler.Exit None)
  /\ evaluator.evalStatement nested_if_by_the_rule
       (evaluator.New (mkProgram ∅) "" [])
     = (evaluator.fmt_Print (text_of ["Z"]) (evaluator.New (mkProgram ∅) "" []),
        Returns tt)
  /\ (exists program,
        parser.parse 100 rem_chain_source
        = Ok (program, [parser.NoPrefixParseFn token.ELSE])
        /\ Statements program !! 10
           = Some (IfStatement (NumberLiteral 1%float) (RemStatement "x ") None))
  /\ (exists program,
        parser.parse 100 second_if_source = Ok (program, [])
        /\ Statements program !! 10
           = Some (IfStatement (NumberLiteral 1%float)
                     (SequenceStatement
                        [print_text "Y";
                         IfStatement (NumberLiteral 0%float) (print_text "Z")
                           (Some (print_text "N"))])
                     None))
  /\ (exists program,
        parser.parse 100 second_rem_source = Ok (program, [])
        /\ Statements program !! 10
           = Some (IfStatement (NumberLiteral 1%float)
                     (SequenceStatement
                        [print_text "Y"; RemStatement "x ELSE PRINT N "])
                     None)).
Proof.
  split.
  { eexists. split; [vm_compute; reflexivity|].
    split; [vm_compute; reflexivity|].
    vm_compute. intros H. discriminate H. }
  split; [vm_compute; reflexivity|].
  split; [vm_compute; reflexivity|].
  split; [vm_compute; reflexivity|].
  split; [eexists; split; [vm_compute; reflexivity|]; vm_compute; reflexivity|].
  split; eexists; (split; [vm_compute; reflexivity|]); vm_compute; reflexivity.
Qed.

(** C3, as the code has it: in [IF c THEN a: b ELSE c2] the statements [a]
    and [b] both go to the consequence and what follows ELSE is the
    alternative, when the parsing of [a] stops in front of the colon and the
    parsing of [b] in front of ELSE (an IF or a REM does not: it goes on to
    the end of the line, or to the colon).  The rule is stated for the parser
    at the token IF, with every budget of turns: [parseSingleStatement]
    returns that IF, and so does [parseStatement] when no colon follows the
    alternative.  The line
    [10 IF 1 THEN PRINT "Y": PRINT "Z" ELSE PRINT "N"] parses, without
    errors, to an IF whose consequence is the sequence of the two PRINTs and
    whose alternative is the third; it prints [Y], [Z], each followed by a
    line feed, and nothing else, interpreted or compiled.  A second line with
    LET and GOTO groups the same way. *)
Theorem C3_if_colon_chain_goes_to_consequence :
  (forall (h : nat) (p pc pa pb pe : parser.Parser)
          (c : Expression) (a b c2 : Statement),
      token.Type_ (parser.curToken p) = token.IF ->
      parser.parseExpression (S (S h)) parser.LOWEST (advanced p) = Ok (c, pc) ->
      token.Type_ (parser.peekToken pc) = token.THEN ->
      parser.parseSingleStatement (parser.parseStatement (S h)) (S h)
        (advanced (advanced pc)) = Ok (a, pa) ->
      token.Type_ (parser.peekToken pa) = token.COLON ->
      starts_statement pa ->
      parser.parseSingleStatement (parser.parseStatement (S h)) (S h)
        (advanced (advanced pa)) = Ok (b, pb) ->
      token.Type_ (parser.peekToken pb) = token.ELSE ->
      parser.parseStatement (S (S h)) (advanced (advanced pb)) = Ok (c2, pe) ->
      parser.parseSingleStatement (parser.parseStatement (S (S h))) (S (S h)) p
      = Ok (IfStatement c (SequenceStatement [a; b]) (Some c2), pe)
      /\ (token.Type_ (parser.peekToken pe) <> token.COLON ->
          parser.parseStatement (S (S (S h))) p
          = Ok (IfStatement c (SequenceStatement [a; b]) (Some c2), pe)))
  /\ (exists program,
        parser.parse 100 if_chain_source = Ok (program, [])
        /\ map_to_list (Statements program)
           = [(10, IfStatement (NumberLiteral 1%float)
                     (SequenceStatement [print_text "Y"; print_text "Z"])
                     (Some (print_text "N")))])
  /\ interpret if_chain_source "" []
     = Some (text_of ["Y"; "Z"], evaluator.Finished None)
  /\ compile_and_run if_chain_source "" []
     = Some (text_of ["Y"; "Z"], compiler.Exit None)
  /\ (exists program,
        parser.parse 100 if_chain_let_source = Ok (program, [])
        /\ map_to_list (Statements program)
           = [(20, IfStatement
                     (InfixExpression (Identifier "X") ">" (NumberLiteral 0%float))
                     (SequenceStatement
                        [LetStatement "A" (NumberLiteral 1%float);
                         GotoStatement (NumberLiteral 50%float)])
                     (Some (LetStatement "A" (NumberLiteral 2%float))))]).
Proof.
  split.
  { intros h p pc pa pb pe c a b c2 Hif Hc Hthen Ha Hcolon Hstart Hb Helse Hc2.
    pose proof (if_colon_chain h p pc pa pb pe c a b c2
                  Hif Hc Hthen Ha Hcolon Hstart Hb Helse Hc2) as H.
    cbv zeta in H. split; [exact H|]. intros Hend.
    cbn [parser.parseStatement]. rewrite (bind_Ok _ _ _ _ _ H).
    unfold parser.bind at 1. cbn [parser.parseStatement_loop].
    rewrite (bind_Ok _ _ _ _ _ (peekTokenIs_peek token.COLON pe)).
    rewrite bool_decide_eq_false_2 by exact Hend. reflexivity. }
  split.
  { eexists. split; [vm_compute; reflexivity|]. vm_compute. reflexivity. }
  split; [vm_compute; reflexivity|].
  split; [vm_compute; reflexivity|].
  eexists. split; [vm_compute; reflexivity|]. vm_compute. reflexivity.
Qed.

(** The rule at the line of the claim: the parser at the IF of
    [10 IF 1 THEN PRINT "Y": PRINT "Z" ELSE PRINT "N"]. *)
Lemma C3_witness :
  let p := advanced (parser.New (lexer.New if_chain_source)) in
  exists pe,
    parser.parseSingleStatement (parser.parseStatement 4) 4 p
    = Ok (IfStatement (NumberLiteral 1%float)
            (SequenceStatement [print_text "Y"; print_text "Z"])
            (Some (print_text "N")), pe).
Proof.
  intros p.
  set (pc := reached (parser.parseExpression 4 parser.LOWEST) (advanced p)).
  set (pa := reached (parser.parseSingleStatement (parser.parseStatement 3) 3)
                     (advanced (advanced pc))).
  set (pb := reached (parser.parseSingleStatement (parser.parseStatement 3) 3)
                     (advanced (advanced pa))).
  set (pe := reached (parser.parseStatement 4) (advanced (advanced pb))).
  exists pe.
  refine (proj1 (proj1 C3_if_colon_chain_goes_to_consequence
                   2%nat p pc pa pb pe (NumberLiteral 1%float)
                   (print_text "Y") (print_text "Z") (print_text "N")
                   _ _ _ _ _ _ _ _ _));
    try (vm_compute; reflexivity).
  repeat split; vm_compute; discriminate.
Defined.

(** ** DIM in the two back ends *)

Definition dim_source : string :=
  text_of ["10 DIM A(" ++ quoted "X" ++ ")"; "20 PRINT " ++ quoted "OK"].

(** C1, at the program [10 DIM A("X")], [20 PRINT "OK"]: the text parses
    without errors and compiles; the interpreter stops at line 10 with "DIM
    size must be a number" and prints nothing; the emitted program prints
    [OK] and exits with status 0.  The two back ends differ in what they
    print and in whether they fail. *)
Theorem C1_backends_differ_on_dim_size :
  interpret dim_source "" []
  = Some ("", evaluator.Finished
                (Some (evaluator.AtLine 10 evaluator.DimSizeNotNumber)))
  /\ compile_and_run dim_source "" []
     = Some (text_of ["OK"], compiler.Exit None).
Proof. split; vm_compute; reflexivity. Qed.

(** Two INPUT statements on one line: the interpreter reads both values;
    the emitted text declares [line] and [parts] twice in one block, which
    the Go compiler refuses. *)
Definition two_inputs_source : string :=
  text_of ["10 INPUT A: INPUT B"; "20 PRINT A + B"].

Lemma two_inputs_not_built :
  interpret two_inputs_source (text_of ["1"; "2"]) []
  = Some (text_of ["3"], evaluator.Finished None)
  /\ compile_and_run two_inputs_source (text_of ["1"; "2"]) []
     = Some ("", compiler.NotBuilt).
Proof. split; vm_compute; reflexivity. Qed.

(** ** FOR and NEXT *)

(** Comparing with zero: a step that is at most 0 is not above 0. *)
Lemma leb_zero_not_ltb (s : float64) :
  (s <=? 0)%float = true -> (0 <? s)%float = false.
Proof.
  rewrite leb_spec, ltb_spec.
  change (Prim2SF 0%float) with (S754_zero false).
  destruct (Prim2SF s) as [[|]|[|]| |[|] m ex]; cbn; congruence.
Qed.

(** The condition of the specification: with [new = current + step], the
    loop goes on iff [new <= end] when [step > 0], iff [new >= end] when
    [step <= 0]. *)
Definition goes_on (step new end_ : float64) (b : bool) : Prop :=
  ((0 <? step)%float = true -> b = (new <=? end_)%float)
  /\ ((step <=? 0)%float = true -> b = (end_ <=? new)%float).

Lemma shouldContinue_goes_on (step new end_ : float64) :
  goes_on step new end_
    (if (0 <? step)%float then (new <=? end_)%float else (end_ <=? new)%float).
Proof.
  split.
  - intros ->. reflexivity.
  - intros H. rewrite (leb_zero_not_ltb step H). reflexivity.
Qed.

Section next_interpreter.
Import evaluator.

Lemma next_not_number (e : Evaluator) (name : string) (ls : ForLoopState)
    (s : string) :
  name <> "" ->
  forLoops e !! name = Some ls ->
  Get name (env e) = Some (StringValue s) ->
  evalStatement (NextStatement (Some name)) e = (e, Fails LoopVariableNotNumber).
Proof.
  intros Hname Hloop Hvar. simpl. unfold evalNextStatement.
  destruct (String.eqb_spec name ""); [contradiction|].
  rewrite Hloop, Hvar. reflexivity.
Qed.

Lemma next_number (e : Evaluator) (name : string) (ls : ForLoopState)
    (current : float64) :
  name <> "" ->
  forLoops e !! name = Some ls ->
  Get name (env e) = Some (NumberValue current) ->
  let new := (current + Step ls)%float in
  evalStatement (NextStatement (Some name)) e
  = if (if (0 <? Step ls)%float then (new <=? End_ ls)%float
        else (End_ ls <=? new)%float)
    then (set_currentLine (StartLine ls)
            (set_env (Set_ name (NumberValue new)) e), Returns tt)
    else (set_forLoops (delete name (forLoops e)) e, Returns tt).
Proof.
  intros Hname Hloop Hvar new. simpl. unfold evalNextStatement.
  destruct (String.eqb_spec name ""); [contradiction|].
  rewrite Hloop, Hvar. fold new.
  destruct (if (0 <? Step ls)%float then _ else _); reflexivity.
Qed.

End next_interpreter.

Section next_emitted.
Import compiler.

Lemma emitted_next_not_number (t : Tables) (s : State) (name : string)
    (ls : forLoopState) :
  name <> "" ->
  forLoops s !! name = Some ls ->
  isNumber (get name (env_ s)) = false ->
  emitNext (Some name) t s = (s, Fails LoopVariableNotNumber).
Proof.
  intros Hname Hloop Hvar. unfold emitNext.
  destruct (String.eqb_spec name ""); [contradiction|].
  rewrite Hloop, Hvar. reflexivity.
Qed.

Lemma emitted_next_number (t : Tables) (s : State) (name : string)
    (ls : forLoopState) :
  name <> "" ->
  forLoops s !! name = Some ls ->
  isNumber (get name (env_ s)) = true ->
  let new := (num (get name (env_ s)) + Step ls)%float in
  emitNext (Some name) t s
  = if (if (0 <? Step ls)%float then (new <=? End_ ls)%float
        else (End_ ls <=? new)%float)
    then (with_pc (StartPC ls) (with_env (set name (numVal new)) s), Returns tt)
    else (with_forLoops (delete name (forLoops s)) s, Returns tt).
Proof.
  intros Hname Hloop Hvar new. unfold emitNext.
  destruct (String.eqb_spec name ""); [contradiction|].
  rewrite Hloop, Hvar. cbn [negb]. fold new.
  destruct (if (0 <? Step ls)%float then _ else _); reflexivity.
Qed.

End next_emitted.

(** The countdown [FOR I = 5 TO 1 STEP -1], [PRINT I], [NEXT I]. *)
Definition countdown_source : string :=
  text_of ["10 FOR I = 5 TO 1 STEP -1"; "20 PRINT I"; "30 NEXT I"].

(** The interpreter at the start of each turn of the run loop, while it
    runs, for at most [turns] turns. *)
Fixpoint turns_of (turns : nat) (e : evaluator.Evaluator)
  : list evaluator.Evaluator :=
  match turns with
  | O => []
  | S turns' =>
      if evaluator.running e then
        e :: match evaluator.step e with
             | (e', Returns _) => turns_of turns' e'
             | _ => []
             end
      else []
  end.

(** The line a turn executes and the value of [I] when it starts. *)
Definition line_and_I (e : evaluator.Evaluator) : option Z * option evaluator.Value :=
  (evaluator.lines e !! Z.to_nat (evaluator.currentLine e),
   evaluator.Get "I" (evaluator.env e)).

Definition body_visits (program : Program) : list (option evaluator.Value) :=
  map snd
    (filter (fun v => fst v = Some 20)
       (map line_and_I (turns_of 100 (evaluator.New program "" [])))).

Lemma countdown_runs :
  exists program,
    parser.parse 100 countdown_source = Ok (program, [])
    /\ body_visits program
       = map (fun v => Some (evaluator.NumberValue v))
           [5; 4; 3; 2; 1]%float
    /\ (let '(e, ending) := evaluator.Run 1000 (evaluator.New program "" []) in
        ending = evaluator.Finished None
        /\ evaluator.stdout e = text_of ["5"; "4"; "3"; "2"; "1"]
        /\ evaluator.forLoops e = ∅)
    /\ compile_and_run countdown_source "" []
       = Some (text_of ["5"; "4"; "3"; "2"; "1"], compiler.Exit None).
Proof.
  eexists. split; [vm_compute; reflexivity|].
  split; [vm_compute; reflexivity|].
  split; [vm_compute; auto|].
  vm_compute. reflexivity.
Qed.

(** C4: for an open loop on [name], NEXT reads the loop variable, fails
    with "loop variable must be a number" if it holds a String, and otherwise
    computes [new = current + step]; it goes on iff [new <= end] when
    [step > 0] and iff [new >= end] when [step <= 0].  Going on stores [new]
    in the variable and sets the program counter to the loop's resume index;
    stopping removes the loop-state entry and changes nothing else.  The
    lines emitted for NEXT do the same.  So the countdown
    [FOR I = 5 TO 1 STEP -1], [PRINT I], [NEXT I] runs its body exactly five
    times, with [I] = 5, 4, 3, 2, 1, and then ends with the loop closed. *)
Theorem C4_next_advances_or_closes (name : string) :
  name <> "" ->
  (forall (e : evaluator.Evaluator) ls,
      evaluator.forLoops e !! name = Some ls ->
      (forall s,
          evaluator.Get name (evaluator.env e) = Some (evaluator.StringValue s) ->
          evaluator.evalStatement (NextStatement (Some name)) e
          = (e, Fails evaluator.LoopVariableNotNumber))
      /\ (forall current,
            evaluator.Get name (evaluator.env e)
            = Some (evaluator.NumberValue current) ->
            let new := (current + evaluator.Step ls)%float in
            exists shouldContinue e',
              goes_on (evaluator.Step ls) new (evaluator.End_ ls) shouldContinue
              /\ evaluator.evalStatement (NextStatement (Some name)) e
                 = (e', Returns tt)
              /\ (shouldContinue = true ->
                  evaluator.Get name (evaluator.env e')
                  = Some (evaluator.NumberValue new)
                  /\ evaluator.currentLine e' = evaluator.StartLine ls
                  /\ evaluator.forLoops e' = evaluator.forLoops e)
              /\ (shouldContinue = false ->
                  evaluator.forLoops e' = delete name (evaluator.forLoops e)
                  /\ evaluator.forLoops e' !! name = None
                  /\ evaluator.env e' = evaluator.env e
                  /\ evaluator.currentLine e' = evaluator.currentLine e)))
  /\ (forall t (s : compiler.State) ls,
        compiler.forLoops s !! name = Some ls ->
        let val := compiler.get name (compiler.env_ s) in
        (compiler.isNumber val = false ->
         compiler.emitNext (Some name) t s
         = (s, Fails compiler.LoopVariableNotNumber))
        /\ (compiler.isNumber val = true ->
            let new := (compiler.num val + compiler.Step ls)%float in
            exists shouldContinue s',
              goes_on (compiler.Step ls) new (compiler.End_ ls) shouldContinue
              /\ compiler.emitNext (Some name) t s = (s', Returns tt)
              /\ (shouldContinue = true ->
                  compiler.get name (compiler.env_ s') = compiler.numVal new
                  /\ compiler.pc s' = compiler.StartPC ls
                  /\ compiler.forLoops s' = compiler.forLoops s)
              /\ (shouldContinue = false ->
                  compiler.forLoops s' = delete name (compiler.forLoops s)
                  /\ compiler.forLoops s' !! name = None
                  /\ compiler.env_ s' = compiler.env_ s
                  /\ compiler.pc s' = compiler.pc s)))
  /\ (exists program,
        parser.parse 100 countdown_source = Ok (program, [])
        /\ body_visits program
           = map (fun v => Some (evaluator.NumberValue v)) [5; 4; 3; 2; 1]%float
        /\ (let '(e, ending) :=
              evaluator.Run 1000 (evaluator.New program "" []) in
            ending = evaluator.Finished None
            /\ evaluator.stdout e = text_of ["5"; "4"; "3"; "2"; "1"]
            /\ evaluator.forLoops e = ∅)
        /\ compile_and_run countdown_source "" []
           = Some (text_of ["5"; "4"; "3"; "2"; "1"], compiler.Exit None)).
Proof.
  intros Hname. split; [|split; [|exact countdown_runs]].
  - intros e ls Hloop. split.
    + intros s Hvar. apply (next_not_number e name ls s); assumption.
    + intros current Hvar new.
      pose proof (next_number e name ls current Hname Hloop Hvar) as Hnext.
      cbv zeta in Hnext. fold new in Hnext.
      pose proof (shouldContinue_goes_on (evaluator.Step ls) new (evaluator.End_ ls))
        as Hgo.
      destruct (if (0 <? evaluator.Step ls)%float then _ else _) eqn:Hc;
        eexists _, _; (split; [exact Hgo|]); (split; [exact Hnext|]);
        split; try discriminate; intros _.
      * cbn. unfold evaluator.Get. cbn. rewrite lookup_insert_eq. auto.
      * cbn. rewrite lookup_delete_eq. auto.
  - intros t s ls Hloop val. split.
    + intros Hvar. apply (emitted_next_not_number t s name ls); assumption.
    + intros Hvar new.
      pose proof (emitted_next_number t s name ls Hname Hloop Hvar) as Hnext.
      cbv zeta in Hnext. fold val in Hnext. fold new in Hnext.
      pose proof (shouldContinue_goes_on (compiler.Step ls) new (compiler.End_ ls))
        as Hgo.
      destruct (if (0 <? compiler.Step ls)%float then _ else _) eqn:Hc;
        eexists _, _; (split; [exact Hgo|]); (split; [exact Hnext|]);
        split; try discriminate; intros _.
      * cbn. unfold compiler.get. cbn. rewrite lookup_insert_eq. auto.
      * cbn. rewrite lookup_delete_eq. auto.
Qed.

(** The theorem at the loop variable [I]. *)
Lemma C4_witness :
  "I" <> ""
  /\ exists program,
       parser.parse 100 countdown_source = Ok (program, [])
       /\ body_visits program
          = map (fun v => Some (evaluator.NumberValue v)) [5; 4; 3; 2; 1]%float.
Proof.
  assert (Hname : "I" <> "") by discriminate.
  split; [exact Hname|].
  destruct (C4_next_advances_or_closes "I" Hname)
    as (_ & _ & program & Hparse & Hvisits & _).
  exists program. split; assumption.
Defined.

Section dim.
Variable name : string.
Variable size : Expression.

Lemma interpreter_dim_number (e : evaluator.Evaluator) (v : float64) :
  evaluator.evalExpression size e = Returns (evaluator.NumberValue v) ->
  evaluator.evalStatement (DimStatement name size) e
  = (evaluator.set_env (evaluator.SetArray name (evaluator.mkArray ∅)) e,
     Returns tt).
Proof. intros H. simpl. unfold evaluator.evalDimStatement. rewrite H. reflexivity. Qed.

Lemma interpreter_dim_string (e : evaluator.Evaluator) (s : string) :
  evaluator.evalExpression size e = Returns (evaluator.StringValue s) ->
  evaluator.evalStatement (DimStatement name size) e
  = (e, Fails evaluator.DimSizeNotNumber).
Proof. intros H. simpl. unfold evaluator.evalDimStatement. rewrite H. reflexivity. Qed.

Lemma interpreter_dim_error (e : evaluator.Evaluator) (err : evaluator.Error) :
  evaluator.evalExpression size e = Fails err ->
  evaluator.evalStatement (DimStatement name size) e = (e, Fails err).
Proof. intros H. simpl. unfold evaluator.evalDimStatement. rewrite H. reflexivity. Qed.

Lemma ensureArray_lookup (e : compiler.env) (other : string) :
  compiler.array other (compiler.ensureArray name e)
  = if decide (other = name)
    then Some (default ∅ (compiler.array name e))
    else compiler.array other e.
Proof.
  unfold compiler.ensureArray, compiler.array.
  destruct (decide (other = name)) as [->|Hne].
  - destruct (compiler.arrays e !! name) eqn:H; cbn.
    + rewrite H. reflexivity.
    + apply lookup_insert_eq.
  - destruct (compiler.arrays e !! name); cbn; [reflexivity|].
    apply lookup_insert_ne. congruence.
Qed.

End dim.

(** DIM as the code has it: in the interpreter it evaluates the size
    expression, fails with that expression's error or, when its value is a
    String, with "DIM size must be a number", and otherwise binds a fresh,
    empty array to the name, whatever was bound to it before, leaving every
    other array and the variables as they were.  In the emitted program the
    lines of DIM leave an array bound to the name: the one that was bound to
    it, or a fresh, empty one if there was none; every other array and the
    variables are as they were. *)
Lemma dim_binds_an_array (name : string) (size : Expression) :
  (forall e : evaluator.Evaluator,
      (forall v,
          evaluator.evalExpression size e = Returns (evaluator.NumberValue v) ->
          exists e',
            evaluator.evalStatement (DimStatement name size) e = (e', Returns tt)
            /\ evaluator.GetArray name (evaluator.env e')
               = Some (evaluator.mkArray ∅)
            /\ (forall other, other <> name ->
                  evaluator.GetArray other (evaluator.env e')
                  = evaluator.GetArray other (evaluator.env e))
            /\ evaluator.variables (evaluator.env e')
               = evaluator.variables (evaluator.env e))
      /\ (forall s,
            evaluator.evalExpression size e = Returns (evaluator.StringValue s) ->
            evaluator.evalStatement (DimStatement name size) e
            = (e, Fails evaluator.DimSizeNotNumber))
      /\ (forall err,
            evaluator.evalExpression size e = Fails err ->
            evaluator.evalStatement (DimStatement name size) e = (e, Fails err)))
  /\ evaluator.message evaluator.DimSizeNotNumber = "DIM size must be a number"
  /\ (exists code, compiler.emitStatement (DimStatement name size) = Returns code
      /\ forall t (s s' : compiler.State),
          code t s = (s', Returns tt) ->
          compiler.array name (compiler.env_ s')
          = Some (default ∅ (compiler.array name (compiler.env_ s)))
          /\ (forall other, other <> name ->
                compiler.array other (compiler.env_ s')
                = compiler.array other (compiler.env_ s))
          /\ compiler.vars (compiler.env_ s') = compiler.vars (compiler.env_ s)).
Proof.
  split; [|split; [reflexivity|]].
  - intros e. split; [|split].
    + intros v H. eexists. split; [apply (interpreter_dim_number name size e v H)|].
      cbn. unfold evaluator.GetArray. cbn.
      split; [apply lookup_insert_eq|]. split; [|reflexivity].
      intros other Hne. apply lookup_insert_ne. congruence.
    + apply interpreter_dim_string.
    + apply interpreter_dim_error.
  - eexists. split; [reflexivity|].
    intros t s s' [= <-]. cbn.
    split; [|split].
    + rewrite ensureArray_lookup. destruct (decide (name = name)); congruence.
    + intros other Hne. rewrite ensureArray_lookup.
      destruct (decide (other = name)); congruence.
    + unfold compiler.ensureArray.
      destruct (compiler.arrays (compiler.env_ s) !! name); reflexivity.
Qed.

(** The start of the emitted [run]. *)
Definition emitted_start : compiler.State :=
  compiler.mkState (compiler.newEnv "") [] ∅ false 0 "" [].

(** C2, at [DIM A("X")]: the interpreter evaluates the size, finds a String
    and returns "DIM size must be a number"; the lines emitted for the same
    statement are [env.ensureArray("A")] alone, which bind an array to [A]
    and return no error.  Whatever the size expression is, the emitted lines
    do not evaluate it and never fail. *)
Theorem C2_emitted_dim_skips_the_size :
  evaluator.evalStatement (DimStatement "A" (StringLiteral "X"))
    (evaluator.New (mkProgram ∅) "" [])
  = (evaluator.New (mkProgram ∅) "" [], Fails evaluator.DimSizeNotNumber)
  /\ (exists code,
        compiler.emitStatement (DimStatement "A" (StringLiteral "X")) = Returns code
        /\ exists s', code (compiler.mkTables [] ∅) emitted_start = (s', Returns tt)
                      /\ compiler.array "A" (compiler.env_ s') = Some ∅)
  /\ (forall name size, exists code,
        compiler.emitStatement (DimStatement name size) = Returns code
        /\ forall t s,
            code t s = (compiler.with_env (compiler.ensureArray name) s, Returns tt)).
Proof.
  split; [reflexivity|].
  split.
  - eexists. split; [reflexivity|]. eexists. split; reflexivity.
  - intros name size. eexists. split; reflexivity.
Qed.

(** ** Open loops have their variable set *)

(** Induction on statements that reaches into the branches of IF and the
    members of a sequence. *)
Lemma Statement_nested_ind (P : Statement -> Prop) :
  (forall c s alt, P s -> (forall a, alt = Some a -> P a) -> P (IfStatement c s alt)) ->
  (forall stmts, Forall P stmts -> P (SequenceStatement stmts)) ->
  (forall s, (forall c a b, s <> IfStatement c a b) ->
             (forall stmts, s <> SequenceStatement stmts) -> P s) ->
  forall s, P s.
Proof.
  intros Hif Hseq Hother.
  fix IH 1. intros s.
  destruct s as [| |c s alt| | | | | | | | | | |stmts|];
    try (apply Hother; intros; discriminate).
  - apply Hif; [apply IH|].
    destruct alt as [a0|]; intros a H; [|discriminate].
    assert (Ha0 : P a0) by apply IH.
    injection H as <-. exact Ha0.
  - apply Hseq.
    induction stmts as [|s rest IHrest]; constructor; [apply IH|exact IHrest].
Qed.

Section loop_state.
Import evaluator.

(** Every name with an entry in the loop-state table is bound in the scalar
    environment. *)
Definition loops_bound (e : Evaluator) : Prop :=
  forall name, is_Some (forLoops e !! name) -> is_Some (Get name (env e)).

(** No scalar binding of [e] is missing from [e']. *)
Definition keeps_variables (e e' : Evaluator) : Prop :=
  forall name, is_Some (Get name (env e)) -> is_Some (Get name (env e')).

(** What a statement may do to the two tables without breaking
    [loops_bound]: leave the loops as they are, or open a loop on a variable
    it has set, or close one. *)
Definition tables_step (e e' : Evaluator) : Prop :=
  keeps_variables e e'
  /\ forall name, is_Some (forLoops e' !! name) ->
                  is_Some (forLoops e !! name) \/ is_Some (Get name (env e')).

Lemma tables_step_bound (e e' : Evaluator) :
  loops_bound e -> tables_step e e' -> loops_bound e'.
Proof.
  intros Hb [Hkeep Hloops] name Hsome.
  destruct (Hloops name Hsome) as [H|H]; [|exact H].
  apply Hkeep, Hb, H.
Qed.

Lemma tables_step_refl (e e' : Evaluator) :
  variables (env e') = variables (env e) -> forLoops e' = forLoops e ->
  tables_step e e'.
Proof.
  intros Hv Hl. split.
  - intros name. unfold Get. rewrite Hv. auto.
  - intros name. rewrite Hl. auto.
Qed.

Lemma tables_step_trans (e1 e2 e3 : Evaluator) :
  tables_step e1 e2 -> tables_step e2 e3 -> tables_step e1 e3.
Proof.
  intros [K12 L12] [K23 L23]. split.
  - intros name H. apply K23, K12, H.
  - intros name H. destruct (L23 name H) as [H2|H2]; [|right; exact H2].
    destruct (L12 name H2) as [H1|H1]; [left; exact H1|right; apply K23, H1].
Qed.

Lemma tables_step_set (e : Evaluator) (name : string) (val : Value) :
  tables_step e (set_env (Set_ name val) e).
Proof.
  split.
  - intros other [v H]. unfold Get in *. cbn.
    destruct (decide (name = other)) as [->|Hne].
    + rewrite lookup_insert_eq. eauto.
    + rewrite lookup_insert_ne by exact Hne. eauto.
  - intros other H. left. exact H.
Qed.

(** Expressions never return the error of NEXT. *)
Lemma infix_not_loop_error (op : string) (a b : Value) (v : string) :
  infix op a b <> Fails (LoopVariableNotFound v).
Proof.
  unfold infix, truth.
  destruct a, b;
    repeat match goal with
           | |- context [if ?c then _ else _] => destruct c
           end; discriminate.
Qed.

Lemma prefix_not_loop_error (op : string) (a : Value) (v : string) :
  prefix op a <> Fails (LoopVariableNotFound v).
Proof.
  unfold prefix, truth.
  destruct a;
    repeat match goal with
           | |- context [if ?c then _ else _] => destruct c
           end; discriminate.
Qed.

Lemma evalExpression_not_loop_error (expr : Expression) (e : Evaluator) (v : string) :
  evalExpression expr e <> Fails (LoopVariableNotFound v).
Proof.
  induction expr as [n|s|name|l IHl op r IHr|op r IHr|name idx IHidx|]; cbn.
  - discriminate.
  - discriminate.
  - destruct (Get name (env e)); discriminate.
  - destruct (evalExpression l e) as [a|err|]; [|exact IHl|discriminate].
    destruct (evalExpression r e) as [b|err|]; [|exact IHr|discriminate].
    apply infix_not_loop_error.
  - destruct (evalExpression r e) as [b|err|]; [|exact IHr|discriminate].
    apply prefix_not_loop_error.
  - destruct (GetArray name (env e)); [|discriminate].
    destruct (evalExpression idx e) as [[n|s]|err|];
      [|discriminate|exact IHidx|discriminate].
    destruct (Elements a !! int_of_float n); discriminate.
  - discriminate.
Qed.

Ltac not_loop_error :=
  let v := fresh "v" in
  let Hv := fresh "Hv" in
  intros v Hv; try discriminate;
  injection Hv as ->;
  match goal with
  | H : evalExpression _ _ = Fails (LoopVariableNotFound _) |- _ =>
      exact (evalExpression_not_loop_error _ _ _ H)
  end.

(** Split the result of a handler along the tests it makes. *)
Ltac along_tests H :=
  repeat match type of H with
         | context [match evalExpression ?x ?e with _ => _ end] =>
             destruct (evalExpression x e) as [[?|?]|?|] eqn:?
         | context [match ?o with Some _ => _ | None => _ end] =>
             destruct o eqn:?
         | context [if ?b then _ else _] => destruct b eqn:?
         end;
  cbn in H; injection H as <- <-.

Ltac unchanged_tables :=
  split; [apply tables_step_refl; reflexivity|not_loop_error].

Lemma print_loop_tables (exprs : list Expression) (seps : list string) :
  forall i e e' r,
    evalPrintStatement_loop i exprs seps e = (e', r) ->
    variables (env e') = variables (env e) /\ forLoops e' = forLoops e
    /\ forall v, r <> Fails (LoopVariableNotFound v).
Proof.
  induction exprs as [|expr rest IH]; intros i e e' r H; cbn in H.
  - injection H as <- <-. repeat split. discriminate.
  - destruct (evalExpression expr e) as [val|err|] eqn:Hval.
    + apply IH in H. destruct H as (Hv & Hl & Hr).
      destruct (seps !! i); cbn in Hv, Hl; auto.
    + injection H as <- <-. repeat split. not_loop_error.
    + injection H as <- <-. repeat split. discriminate.
Qed.

Lemma print_tables (exprs : list Expression) (seps : list string) (nl : bool)
    (e e' : Evaluator) r :
  evalPrintStatement exprs seps nl e = (e', r) ->
  tables_step e e' /\ forall v, r <> Fails (LoopVariableNotFound v).
Proof.
  unfold evalPrintStatement. intros H.
  destruct exprs as [|expr rest].
  - injection H as <- <-. unchanged_tables.
  - destruct (evalPrintStatement_loop 0 (expr :: rest) seps e) as [e1 r1] eqn:Hloop.
    apply print_loop_tables in Hloop. destruct Hloop as (Hv & Hl & Hr).
    destruct r1 as [[]|err|]; injection H as <- <-.
    + split; [|discriminate].
      apply tables_step_refl; destruct nl; cbn; assumption.
    + split; [apply tables_step_refl; assumption|exact Hr].
    + split; [apply tables_step_refl; assumption|discriminate].
Qed.

Lemma input_loop_keeps (vars values : list string) :
  forall i env0 name,
    is_Some (variables env0 !! name) ->
    is_Some (variables (evalInputStatement_loop i vars values env0) !! name).
Proof.
  induction vars as [|variable rest IH]; intros i env0 name H; cbn; [exact H|].
  apply IH.
  destruct (values !! i); cbn;
    (destruct (decide (variable = name)) as [->|Hne];
     [rewrite lookup_insert_eq; eauto|rewrite lookup_insert_ne by exact Hne; exact H]).
Qed.

Lemma input_tables (prompt : string) (vars : list string) (e e' : Evaluator) r :
  evalInputStatement prompt vars e = (e', r) ->
  tables_step e e' /\ forall v, r <> Fails (LoopVariableNotFound v).
Proof.
  unfold evalInputStatement. intros H.
  set (e1 := if String.eqb prompt "" then e else _) in H.
  assert (H1 : env e1 = env e /\ forLoops e1 = forLoops e).
  { subst e1. destruct (String.eqb prompt ""); [auto|].
    destruct (HasSuffix prompt " "); auto. }
  destruct H1 as [Henv Hloops].
  destruct (ReadString (reader (env e1)) "") as [[input rest]|];
    injection H as <- <-; (split; [|discriminate]).
  - split.
    + intros name Hsome. unfold Get in *. cbn.
      apply input_loop_keeps. cbn. rewrite Henv. exact Hsome.
    + intros name Hsome. left. cbn in Hsome. rewrite Hloops in Hsome. exact Hsome.
  - apply tables_step_refl; cbn; [rewrite Henv|rewrite Hloops]; reflexivity.
Qed.

Lemma for_tables (variable : string) (start end_ step : Expression)
    (e e' : Evaluator) r :
  evalForStatement variable start end_ step e = (e', r) ->
  tables_step e e' /\ forall v, r <> Fails (LoopVariableNotFound v).
Proof.
  unfold evalForStatement. intros H.
  along_tests H; try unchanged_tables.
  split; [|discriminate]. split.
  - apply tables_step_set.
  - intros name Hsome. cbn in Hsome. unfold Get. cbn.
    destruct (decide (variable = name)) as [->|Hne].
    + right. rewrite lookup_insert_eq. eauto.
    + left. rewrite lookup_insert_ne in Hsome by exact Hne. exact Hsome.
Qed.

Lemma next_tables (variable : option string) (e e' : Evaluator) r :
  loops_bound e ->
  evalNextStatement variable e = (e', r) ->
  tables_step e e' /\ forall v, r <> Fails (LoopVariableNotFound v).
Proof.
  intros Hbound. unfold evalNextStatement.
  set (picked := match variable with Some name => (name, e) | None => first_key e end).
  assert (Hpicked : env (snd picked) = env e /\ forLoops (snd picked) = forLoops e).
  { subst picked. destruct variable; cbn; auto. }
  destruct picked as [varName e1]. cbn in Hpicked. destruct Hpicked as [Henv Hloops].
  intros H.
  destruct (String.eqb varName "").
  { injection H as <- <-. split; [apply tables_step_refl; congruence|discriminate]. }
  destruct (forLoops e1 !! varName) as [loopState|] eqn:Hloop.
  2: { injection H as <- <-. split; [apply tables_step_refl; congruence|discriminate]. }
  destruct (Get varName (env e1)) as [[numVal|s]|] eqn:Hvar.
  - destruct (if (0 <? Step loopState)%float then _ else _);
      injection H as <- <-; (split; [|discriminate]).
    + split.
      * intros name Hsome. unfold Get in *. cbn. rewrite Henv.
        destruct (decide (varName = name)) as [->|Hne].
        -- rewrite lookup_insert_eq. eauto.
        -- rewrite lookup_insert_ne by exact Hne. exact Hsome.
      * intros name Hsome. left. cbn in Hsome. rewrite Hloops in Hsome. exact Hsome.
    + split.
      * intros name Hsome. cbn. rewrite Henv. exact Hsome.
      * intros name Hsome. left. cbn in Hsome. rewrite Hloops in Hsome.
        destruct (decide (varName = name)) as [->|Hne].
        -- rewrite lookup_delete_eq in Hsome. destruct Hsome; discriminate.
        -- rewrite lookup_delete_ne in Hsome by exact Hne. exact Hsome.
  - injection H as <- <-. split; [apply tables_step_refl; congruence|discriminate].
  - exfalso.
    assert (Hsome : is_Some (Get varName (env e))).
    { apply Hbound. rewrite <- Hloops, Hloop. eauto. }
    rewrite <- Henv, Hvar in Hsome. destruct Hsome; discriminate.
Qed.

(** A statement keeps the scalar bindings, opens loops only on variables it
    has set, and, from a state where open loops have their variable, never
    returns "loop variable ... not found". *)
Lemma evalStatement_tables (stmt : Statement) :
  forall e e' r,
    loops_bound e ->
    evalStatement stmt e = (e', r) ->
    tables_step e e' /\ forall v, r <> Fails (LoopVariableNotFound v).
Proof.
  induction stmt as [c s alt IHs IHalt|stmts IHstmts|s Hnot_if Hnot_seq]
    using Statement_nested_ind; intros e e' r Hbound H.
  - cbn in H. unfold evalIfStatement in H.
    destruct (evalExpression c e) as [cond|err|] eqn:Hc.
    + destruct (isTruthy cond); [eapply IHs; eassumption|].
      destruct alt as [a|]; [eapply (IHalt a eq_refl); eassumption|].
      injection H as <- <-. unchanged_tables.
    + injection H as <- <-. unchanged_tables.
    + injection H as <- <-. unchanged_tables.
  - cbn in H. revert e Hbound H.
    induction IHstmts as [|s rest IHs _ IHrest]; intros e Hbound H; cbn in H.
    + injection H as <- <-. unchanged_tables.
    + destruct (evalStatement s e) as [e1 r1] eqn:Hs.
      destruct (IHs e e1 r1 Hbound Hs) as [Hstep Hr1].
      destruct r1 as [[]|err|].
      * destruct (IHrest e1 (tables_step_bound e e1 Hbound Hstep) H) as [Hstep' Hr].
        split; [eapply tables_step_trans; eassumption|exact Hr].
      * injection H as <- <-. split; assumption.
      * injection H as <- <-. split; assumption.
  - destruct s; cbn in H;
      try (exfalso; eapply Hnot_if; reflexivity);
      try (exfalso; eapply Hnot_seq; reflexivity).
    + eapply print_tables; eassumption.
    + unfold evalLetStatement in H.
      along_tests H; try unchanged_tables;
        (split; [apply tables_step_set|discriminate]).
    + unfold evalGotoStatement in H. along_tests H; unchanged_tables.
    + unfold evalGosubStatement in H. along_tests H; unchanged_tables.
    + unfold evalReturnStatement in H. along_tests H; unchanged_tables.
    + eapply for_tables; eassumption.
    + eapply next_tables; eassumption.
    + eapply input_tables; eassumption.
    + injection H as <- <-. unchanged_tables.
    + injection H as <- <-. unchanged_tables.
    + unfold evalDimStatement in H. along_tests H; unchanged_tables.
    + along_tests H; unchanged_tables.
    + injection H as <- <-. unchanged_tables.
Qed.

End loop_state.

(** The states of a run: the one [New] builds; a reachable state with the
    program counter set anew (as [Run] does before and after each
    statement); and the state a statement, any statement, leaves behind when
    evaluated in a reachable state, which covers the states between the
    members of a sequence and inside the branches of an IF. *)
Inductive reachable (program : Program) (stdin : string) (starts : list nat)
  : evaluator.Evaluator -> Prop :=
| reach_New : reachable program stdin starts (evaluator.New program stdin starts)
| reach_counter e n :
    reachable program stdin starts e ->
    reachable program stdin starts (evaluator.set_currentLine n e)
| reach_statement e stmt e' r :
    reachable program stdin starts e ->
    evaluator.evalStatement stmt e = (e', r) ->
    reachable program stdin starts e'.

Lemma reachable_step program stdin starts (e e' : evaluator.Evaluator) r :
  reachable program stdin starts e ->
  evaluator.step e = (e', r) ->
  reachable program stdin starts e'.
Proof.
  intros Hreach. unfold evaluator.step.
  destruct (evaluator.currentLine e <? 0); [intros [= <- <-]; exact Hreach|].
  destruct (evaluator.lines e !! _) as [lineNum|]; [|intros [= <- <-]; exact Hreach].
  destruct (Statements (evaluator.program e) !! lineNum) as [stmt|].
  - destruct (evaluator.evalStatement stmt e) as [e1 r1] eqn:Hstmt.
    assert (reachable program stdin starts e1)
      by (eapply reach_statement; eassumption).
    destruct r1 as [[]|err|]; intros [= <- <-]; [apply reach_counter|..]; assumption.
  - cbn. intros [= <- <-]. exact Hreach.
Qed.

(** The states at the start of the turns of [Run] are reachable. *)
Lemma reachable_Run_loop program stdin starts (turns : nat) :
  forall (e e' : evaluator.Evaluator) ending,
    reachable program stdin starts e ->
    evaluator.Run_loop turns e = (e', ending) ->
    reachable program stdin starts e'.
Proof.
  induction turns as [|turns IH]; intros e e' ending Hreach; cbn.
  - destruct (evaluator.running e); intros [= <- <-]; exact Hreach.
  - destruct (evaluator.running e); [|intros [= <- <-]; exact Hreach].
    destruct (evaluator.step e) as [e1 r1] eqn:Hstep.
    pose proof (reachable_step _ _ _ e e1 r1 Hreach Hstep) as Hreach1.
    destruct r1 as [[]|err|]; [apply IH; exact Hreach1|..];
      intros [= <- <-]; exact Hreach1.
Qed.

Lemma reachable_loops_bound program stdin starts (e : evaluator.Evaluator) :
  reachable program stdin starts e -> loops_bound e.
Proof.
  induction 1 as [|e n _ IH|e stmt e' r _ IH Hstmt].
  - intros name [ls Hls]. cbn in Hls. rewrite lookup_empty in Hls. discriminate.
  - exact IH.
  - eapply tables_step_bound; [exact IH|].
    eapply evalStatement_tables; eassumption.
Qed.

(** C10: in every state a run of the interpreter reaches, every name with
    an entry in the loop-state table has a value in the scalar environment;
    a statement never removes a scalar binding; and so no statement
    evaluated in such a state, NEXT included, returns "loop variable ... not
    found", nor does a turn of the run loop. *)
Theorem C10_open_loops_have_their_variable
    (program : Program) (stdin : string) (starts : list nat)
    (e : evaluator.Evaluator) :
  reachable program stdin starts e ->
  loops_bound e
  /\ (forall stmt e' r,
        evaluator.evalStatement stmt e = (e', r) ->
        keeps_variables e e'
        /\ forall varName, r <> Fails (evaluator.LoopVariableNotFound varName))
  /\ (forall e' r,
        evaluator.step e = (e', r) ->
        forall lineNum varName,
          r <> Fails (evaluator.AtLine lineNum
                        (evaluator.LoopVariableNotFound varName))).
Proof.
  intros Hreach.
  pose proof (reachable_loops_bound _ _ _ e Hreach) as Hbound.
  split; [exact Hbound|]. split.
  - intros stmt e' r Hstmt.
    destruct (evalStatement_tables stmt e e' r Hbound Hstmt) as [[Hkeep _] Hr].
    split; assumption.
  - intros e' r. unfold evaluator.step.
    destruct (evaluator.currentLine e <? 0); [intros [= <- <-]; discriminate|].
    destruct (evaluator.lines e !! _) as [line|]; [|intros [= <- <-]; discriminate].
    destruct (Statements (evaluator.program e) !! line) as [stmt|].
    + destruct (evaluator.evalStatement stmt e) as [e1 r1] eqn:Hstmt.
      destruct (evalStatement_tables stmt e e1 r1 Hbound Hstmt) as [_ Hr].
      destruct r1 as [[]|err|]; intros [= <- <-] lineNum varName; try discriminate.
      intros [= _ ->]. exact (Hr varName eq_refl).
    + cbn. intros [= <- <-]. discriminate.
Qed.

(** The theorem at the state a FOR leaves behind in a fresh interpreter:
    the loop on [I] is open and [I] is set. *)
Definition countdown_for : Statement :=
  ForStatement "I" (NumberLiteral 5%float) (NumberLiteral 1%float)
    (PrefixExpression "-" (NumberLiteral 1%float)).

Definition after_for : evaluator.Evaluator :=
  fst (evaluator.evalStatement countdown_for (evaluator.New (mkProgram ∅) "" [])).

Lemma C10_witness :
  reachable (mkProgram ∅) "" [] after_for
  /\ is_Some (evaluator.forLoops after_for !! "I")
  /\ loops_bound after_for.
Proof.
  assert (Hreach : reachable (mkProgram ∅) "" [] after_for).
  { apply (reach_statement _ _ _ (evaluator.New (mkProgram ∅) "" [])
             countdown_for after_for (Returns tt)); [apply reach_New|].
    vm_compute. reflexivity. }
  split; [exact Hreach|].
  split; [vm_compute; eauto|].
  exact (proj1 (C10_open_loops_have_their_variable _ _ _ _ Hreach)).
Defined.

(** ** The index that GOSUB saves *)


Section gosub_site.
Import evaluator.

Ltac kept H :=
  repeat match type of H with
         | context [match evalExpression ?x ?e with _ => _ end] =>
             destruct (evalExpression x e) as [[?|?]|?|]
         | context [match ?o with Some _ => _ | None => _ end] =>
             destruct o
         | context [if ?b then _ else _] => destruct b
         end;
  cbn in H; injection H as <- <-; split; reflexivity.









End gosub_site.

Section emitted_gosub_site.
Import compiler.


End emitted_gosub_site.







(** ** The lexer's NUMBER tokens *)

Section lexer_facts.
Import token lexer bytes.

(** The byte [ch] is the byte at [position], the zero byte past the end, and
    [readPosition] is the next offset: what [readChar] establishes. *)
Definition well_formed (l : Lexer) : Prop :=
  readPosition l = S (position l)
  /\ ch l = if (String.length (input l) <=? position l)%nat then Ascii.zero
            else at_ (input l) (position l).

Lemma readChar_well_formed (l : Lexer) : well_formed (readChar l).
Proof. split; reflexivity. Qed.

Lemma New_well_formed (src : string) : well_formed (lexer.New src).
Proof. apply readChar_well_formed. Qed.

Lemma skipWhitespace_well_formed (l : Lexer) :
  well_formed l -> well_formed (skipWhitespace l).
Proof.
  unfold skipWhitespace. generalize (loop_bound l). intros n. revert l.
  induction n as [|n IH]; intros l Hwf; cbn; [exact Hwf|].
  destruct (isSpace (ch l)); [apply IH, readChar_well_formed|exact Hwf].
Qed.

Lemma readIdentifier_well_formed (n : nat) (l : Lexer) :
  well_formed l -> well_formed (readIdentifier_loop n l).
Proof.
  revert l. induction n as [|n IH]; intros l Hwf; cbn; [exact Hwf|].
  destruct (isLetter (ch l) || isDigit (ch l))%bool;
    [apply IH, readChar_well_formed|exact Hwf].
Qed.

(** The scanning loops stop on their own: past the end of the input the
    current byte is the zero byte, which none of them reads over, so a loop
    given more turns than there are bytes left ends on a byte that it
    refuses, not on its last turn. *)
Lemma past_the_end (l : Lexer) :
  well_formed l -> (String.length (input l) <= position l)%nat ->
  ch l = Ascii.zero.
Proof.
  intros [_ Hch] Hlen. rewrite Hch.
  destruct (Nat.leb_spec (String.length (input l)) (position l)); [reflexivity|lia].
Qed.

Ltac loop_stops IH :=
  match goal with
  | Hwf : well_formed ?l |- _ =>
      cbn;
      match goal with
      | |- context [if ?c then _ else _] =>
          destruct c eqn:Hc;
          [apply IH; [apply readChar_well_formed | cbn; destruct Hwf; lia]
          |exact Hc]
      end
  end.

Lemma skipWhitespace_stops (n : nat) (l : Lexer) :
  well_formed l -> (String.length (input l) < n + position l)%nat ->
  isSpace (ch (skipWhitespace_loop n l)) = false.
Proof.
  revert l. induction n as [|n IH]; intros l Hwf Hlen.
  - cbn. rewrite (past_the_end l Hwf); [reflexivity|lia].
  - loop_stops IH.
Qed.

Lemma readIdentifier_stops (n : nat) (l : Lexer) :
  well_formed l -> (String.length (input l) < n + position l)%nat ->
  (isLetter (ch (readIdentifier_loop n l))
   || isDigit (ch (readIdentifier_loop n l)))%bool = false.
Proof.
  revert l. induction n as [|n IH]; intros l Hwf Hlen.
  - cbn. rewrite (past_the_end l Hwf); [reflexivity|lia].
  - loop_stops IH.
Qed.

Lemma readNumber_stops (n : nat) (l : Lexer) :
  well_formed l -> (String.length (input l) < n + position l)%nat ->
  (isDigit (ch (readNumber_loop n l))
   || Ascii.eqb (ch (readNumber_loop n l)) ".")%bool = false.
Proof.
  revert l. induction n as [|n IH]; intros l Hwf Hlen.
  - cbn. rewrite (past_the_end l Hwf); [reflexivity|lia].
  - loop_stops IH.
Qed.

Lemma readString_stops (n : nat) (l : Lexer) :
  well_formed l -> (String.length (input l) < n + position l)%nat ->
  (negb (Ascii.eqb (ch (readString_loop n l)) "034")
   && negb (Ascii.eqb (ch (readString_loop n l)) Ascii.zero))%bool = false.
Proof.
  revert l. induction n as [|n IH]; intros l Hwf Hlen.
  - cbn. rewrite (past_the_end l Hwf); [reflexivity|lia].
  - cbn.
    destruct (negb (Ascii.eqb (ch l) "034")
              && negb (Ascii.eqb (ch l) Ascii.zero))%bool eqn:Hc; [|exact Hc].
    apply IH; [apply readChar_well_formed|].
    destruct Hwf as [Hnext _].
    destruct (Ascii.eqb (ch l) "010"); cbn; lia.
Qed.

(** With the turns that the lexer's functions give them, that is
    [loop_bound], the four loops end on a byte they refuse. *)
Lemma scanning_loops_stop (l : Lexer) :
  well_formed l ->
  isSpace (ch (skipWhitespace l)) = false
  /\ (let l' := snd (readIdentifier l) in
      (isLetter (ch l') || isDigit (ch l'))%bool = false)
  /\ (let l' := snd (readNumber l) in
      (isDigit (ch l') || Ascii.eqb (ch l') ".")%bool = false)
  /\ (let l' := snd (readString l) in
      Ascii.eqb (ch l') "034" = true \/ Ascii.eqb (ch l') Ascii.zero = true).
Proof.
  intros Hwf. unfold skipWhitespace, readIdentifier, readNumber, readString,
    loop_bound. cbn [snd].
  split; [apply skipWhitespace_stops; [exact Hwf|lia]|].
  split; [apply readIdentifier_stops; [exact Hwf|lia]|].
  split; [apply readNumber_stops; [exact Hwf|lia]|].
  cbv zeta.
  pose proof (readString_stops (S (S (String.length (input (readChar l)))))
                (readChar l) (readChar_well_formed l)) as H.
  apply andb_false_iff in H; [|cbn; lia].
  destruct H as [H|H]; apply negb_false_iff in H; [left|right]; exact H.
Qed.

(** A byte of a number: a digit or the point. *)
Definition number_byte (c : ascii) : bool :=
  (isDigit c || Ascii.eqb c ".")%bool.

(** What [readNumber_loop] runs over: from [position l] up to where it
    stops, every offset is inside the input and holds a digit or a point. *)
Lemma readNumber_span (n : nat) :
  forall l,
    well_formed l ->
    let l' := readNumber_loop n l in
    well_formed l'
    /\ input l' = input l
    /\ (position l <= position l')%nat
    /\ forall i, (position l <= i < position l')%nat ->
                 (i < String.length (input l))%nat
                 /\ number_byte (at_ (input l) i) = true.
Proof.
  assert (Hstay : forall l : Lexer,
             well_formed l ->
             well_formed l /\ input l = input l
             /\ (position l <= position l)%nat
             /\ forall i, (position l <= i < position l)%nat ->
                          (i < String.length (input l))%nat
                          /\ number_byte (at_ (input l) i) = true).
  { intros l Hwf. split; [exact Hwf|]. split; [reflexivity|].
    split; [lia|]. intros i Hi. lia. }
  induction n as [|n IH]; intros l Hwf; cbn.
  - apply Hstay, Hwf.
  - fold (number_byte (ch l)).
    destruct (number_byte (ch l)) eqn:Hch; [|apply Hstay, Hwf].
    destruct (IH (readChar l) (readChar_well_formed l)) as (Hwf' & Hin & Hle & Hspan).
    cbn in Hin, Hle, Hspan. destruct Hwf as [Hrp Hcur].
    rewrite Hrp in Hle, Hspan.
    split; [exact Hwf'|]. split; [exact Hin|]. split; [lia|].
    intros i Hi.
    destruct (decide (i = position l)) as [->|Hne]; [|apply Hspan; lia].
    rewrite Hcur in Hch.
    destruct (String.length (input l) <=? position l)%nat eqn:Hlen;
      [discriminate|].
    apply Nat.leb_gt in Hlen. split; assumption.
Qed.

Fixpoint all_bytes (P : ascii -> bool) (s : string) : bool :=
  match s with
  | EmptyString => true
  | String c rest => (P c && all_bytes P rest)%bool
  end.

Lemma all_bytes_substring (P : ascii -> bool) (s : string) :
  forall lo n,
    (forall i, (lo <= i < lo + n)%nat ->
               (i < String.length s)%nat /\ P (at_ s i) = true) ->
    all_bytes P (String.substring lo n s) = true.
Proof.
  induction s as [|c s IH]; intros lo n H.
  - destruct lo, n; reflexivity.
  - destruct lo as [|lo].
    + destruct n as [|n]; [reflexivity|]. cbn.
      destruct (H 0%nat ltac:(lia)) as [_ Hc]. cbn in Hc. rewrite Hc. cbn.
      apply IH. intros i Hi.
      destruct (H (S i) ltac:(lia)) as [Hlen HP]. cbn in Hlen, HP.
      split; [lia|exact HP].
    + cbn. apply IH. intros i Hi.
      destruct (H (S i) ltac:(lia)) as [Hlen HP]. cbn in Hlen, HP.
      split; [lia|exact HP].
Qed.

Lemma substring_first (s : string) :
  forall lo n,
    (lo < String.length s)%nat -> (0 < n)%nat ->
    exists rest, String.substring lo n s = String (at_ s lo) rest.
Proof.
  induction s as [|c s IH]; intros lo n Hlo Hn; cbn in Hlo; [lia|].
  destruct lo as [|lo].
  - destruct n as [|n]; [lia|]. cbn. eauto.
  - cbn. apply IH; lia.
Qed.

(** The shape of a number literal: a digit, then digits and points. *)
Definition number_shape (literal : string) : bool :=
  match literal with
  | EmptyString => false
  | String c rest => (isDigit c && all_bytes number_byte rest)%bool
  end.

Lemma readNumber_shape (l : Lexer) :
  well_formed l -> isDigit (ch l) = true ->
  number_shape (fst (readNumber l)) = true /\ well_formed (snd (readNumber l)).
Proof.
  intros Hwf Hdigit. unfold readNumber. cbn [fst snd].
  destruct (readNumber_span (loop_bound l) l Hwf) as (Hwf' & _ & _ & Hspan).
  split; [|exact Hwf'].
  assert (Hfirst : (position l < position (readNumber_loop (loop_bound l) l))%nat).
  { unfold loop_bound.
    change (readNumber_loop (S (S (String.length (input l)))) l)
      with (if (isDigit (ch l) || Ascii.eqb (ch l) ".")%bool
            then readNumber_loop (S (String.length (input l))) (readChar l)
            else l).
    rewrite Hdigit. cbn [orb].
    destruct (readNumber_span (S (String.length (input l))) (readChar l)
                (readChar_well_formed l)) as (_ & _ & Hle & _).
    cbn [readChar position] in Hle. destruct Hwf as [Hrp _].
    rewrite Hrp in Hle. lia. }
  set (stop := position (readNumber_loop (loop_bound l) l)) in *.
  unfold slice.
  destruct (Hspan (position l) ltac:(lia)) as [Hlen _].
  destruct (substring_first (input l) (position l) (stop - position l) Hlen ltac:(lia))
    as [rest Hrest].
  assert (Hall : all_bytes number_byte
                   (String.substring (position l) (stop - position l) (input l))
                 = true).
  { apply all_bytes_substring. intros i Hi. apply Hspan. lia. }
  rewrite Hrest in Hall |- *. cbn in Hall |- *.
  apply andb_prop in Hall. destruct Hall as [_ Hall]. rewrite Hall.
  destruct Hwf as [_ Hcur]. rewrite Hcur in Hdigit.
  destruct (String.length (input l) <=? position l)%nat eqn:Hle;
    [apply Nat.leb_le in Hle; lia|].
  rewrite Hdigit. reflexivity.
Qed.

Lemma LookupIdent_not_NUMBER (ident : string) : LookupIdent ident <> NUMBER.
Proof.
  unfold LookupIdent, keywords, lookup.
  repeat match goal with
         | |- context [if ?c then _ else _] => destruct c; try discriminate
         end.
Qed.

(** [NextToken] keeps the lexer well formed, and a token of type NUMBER
    can only come from [readNumber]. *)
Lemma NextToken_facts (l : Lexer) :
  well_formed l ->
  well_formed (snd (NextToken l))
  /\ (Type_ (fst (NextToken l)) = NUMBER ->
      number_shape (Literal (fst (NextToken l))) = true).
Proof.
  intros Hwf. unfold NextToken.
  pose proof (skipWhitespace_well_formed l Hwf) as Hwf1.
  set (l1 := skipWhitespace l) in *.
  repeat match goal with
         | |- context [if Ascii.eqb ?a ?b then _ else _] =>
             destruct (Ascii.eqb a b)
         end;
    try (unfold twoChar, oneChar, readString; cbn [fst snd Type_];
         split; [apply readChar_well_formed|discriminate]).
  destruct (isLetter (ch l1)).
  { unfold readIdentifier. cbn [fst snd Type_]. split.
    - apply readIdentifier_well_formed, Hwf1.
    - intros H. exfalso. exact (LookupIdent_not_NUMBER _ H). }
  destruct (isDigit (ch l1)) eqn:Hdigit.
  { destruct (readNumber_shape l1 Hwf1 Hdigit) as [Hshape Hwf'].
    destruct (readNumber l1) as [lit l']. cbn [fst snd Type_ Literal] in *.
    split; [exact Hwf'|intros _; exact Hshape]. }
  unfold oneChar. cbn [fst snd Type_].
  split; [apply readChar_well_formed|discriminate].
Qed.






End lexer_facts.





(** ** The keys of a parsed program *)

Section parser_facts.
Import token lexer parser.

(** A token of type NUMBER carries a literal of the lexer's number shape. *)
Definition token_ok (tok : Token) : Prop :=
  Type_ tok = NUMBER -> number_shape (Literal tok) = true.

(** The parser's lexer is well formed and its two tokens come from it. *)
Definition parser_ok (p : Parser) : Prop :=
  well_formed (l p) /\ token_ok (curToken p) /\ token_ok (peekToken p).

(** A method of the parser that leaves a good parser good. *)
Definition preserves {A : Type} (m : M A) : Prop :=
  forall p, parser_ok p ->
            match m p with
            | Ok (_, p') => parser_ok p'
            | _ => True
            end.

Lemma preserves_ret {A} (a : A) : preserves (ret a).
Proof. intros p Hp. exact Hp. Qed.

Lemma preserves_bind {A B} (m : M A) (k : A -> M B) :
  preserves m -> (forall a, preserves (k a)) -> preserves (bind m k).
Proof.
  intros Hm Hk p Hp. unfold bind. specialize (Hm p Hp).
  destruct (m p) as [[a p']| |]; [|exact I|exact I].
  apply Hk, Hm.
Qed.

Lemma preserves_out_of_fuel {A} : preserves (@out_of_fuel A).
Proof. intros p Hp. exact I. Qed.

Lemma preserves_panic {A} : preserves (@panic A).
Proof. intros p Hp. exact I. Qed.

Lemma preserves_cur : preserves cur.
Proof. intros p Hp. exact Hp. Qed.

Lemma preserves_peek : preserves peek.
Proof. intros p Hp. exact Hp. Qed.

Lemma preserves_addError (err : Error) : preserves (addError err).
Proof. intros p Hp. exact Hp. Qed.

Lemma preserves_nextToken : preserves nextToken.
Proof.
  intros p (Hl & _ & Hpeek). unfold nextToken.
  destruct (NextToken_facts (l p) Hl) as [Hl' Htok].
  destruct (NextToken (l p)) as [tok l']. cbn [fst snd] in *.
  split; [exact Hl'|]. split; [exact Hpeek|exact Htok].
Qed.

Create HintDb preserve.

#[local] Hint Resolve preserves_ret preserves_out_of_fuel preserves_panic
  preserves_cur preserves_peek preserves_addError preserves_nextToken : preserve.

(** Take a method apart along its binds and tests. *)
Ltac preserve :=
  repeat first
    [ progress intros
    | solve [auto with preserve]
    | apply preserves_bind
    | progress cbv zeta
    | match goal with
      | |- preserves (if ?b then _ else _) => destruct b
      | |- preserves (match ?x with _ => _ end) => destruct x
      end ].

Lemma preserves_curTokenIs t : preserves (curTokenIs t).
Proof. unfold curTokenIs. preserve. Qed.

Lemma preserves_peekTokenIs t : preserves (peekTokenIs t).
Proof. unfold peekTokenIs. preserve. Qed.

Lemma preserves_peekError t : preserves (peekError t).
Proof. unfold peekError. preserve. Qed.

#[local] Hint Resolve preserves_curTokenIs preserves_peekTokenIs
  preserves_peekError : preserve.

Lemma preserves_expectPeek t : preserves (expectPeek t).
Proof. unfold expectPeek. preserve. Qed.

Lemma preserves_noPrefixParseFnError t : preserves (noPrefixParseFnError t).
Proof. unfold noPrefixParseFnError. preserve. Qed.

Lemma preserves_peekPrecedence : preserves peekPrecedence.
Proof. unfold peekPrecedence. preserve. Qed.

Lemma preserves_curPrecedence : preserves curPrecedence.
Proof. unfold curPrecedence. preserve. Qed.

Lemma preserves_parseIdentifier : preserves parseIdentifier.
Proof. unfold parseIdentifier. preserve. Qed.

Lemma preserves_parseNumberLiteral : preserves parseNumberLiteral.
Proof. unfold parseNumberLiteral. preserve. Qed.

Lemma preserves_parseStringLiteral : preserves parseStringLiteral.
Proof. unfold parseStringLiteral. preserve. Qed.

#[local] Hint Resolve preserves_expectPeek preserves_noPrefixParseFnError
  preserves_peekPrecedence preserves_curPrecedence preserves_parseIdentifier
  preserves_parseNumberLiteral preserves_parseStringLiteral : preserve.

Section expressions.
Variable rec : Z -> M ast.Expression.
Hypothesis Hrec : forall precedence, preserves (rec precedence).

Lemma preserves_parsePrefixExpression : preserves (parsePrefixExpression rec).
Proof using Hrec. unfold parsePrefixExpression. preserve. Qed.

Lemma preserves_parseInfixExpression left :
  preserves (parseInfixExpression rec left).
Proof using Hrec. unfold parseInfixExpression. preserve. Qed.

Lemma preserves_parseGroupedExpression : preserves (parseGroupedExpression rec).
Proof using Hrec. unfold parseGroupedExpression. preserve. Qed.

Lemma preserves_parseArrayAccess left : preserves (parseArrayAccess rec left).
Proof using Hrec. unfold parseArrayAccess. preserve. Qed.

Lemma preserves_prefixParseFns t prefix :
  prefixParseFns rec t = Some prefix -> preserves prefix.
Proof using Hrec.
  destruct t; cbn; intros [= <-];
    auto using preserves_parsePrefixExpression, preserves_parseGroupedExpression
      with preserve.
Qed.

Lemma preserves_infixParseFns t infix left :
  infixParseFns rec t = Some infix -> preserves (infix left).
Proof using Hrec.
  destruct t; cbn; intros [= <-];
    auto using preserves_parseInfixExpression, preserves_parseArrayAccess.
Qed.

Lemma preserves_parseExpression_loop n :
  forall precedence leftExp,
    preserves (parseExpression_loop rec n precedence leftExp).
Proof using Hrec.
  induction n as [|n IH]; intros precedence leftExp; cbn [parseExpression_loop].
  - apply preserves_bind; [preserve|]. intros pk.
    apply preserves_bind; [preserve|]. intros pp.
    destruct (_ && _)%bool; [|preserve].
    destruct (infixParseFns rec (Type_ pk)); preserve.
  - apply preserves_bind; [preserve|]. intros pk.
    apply preserves_bind; [preserve|]. intros pp.
    destruct (_ && _)%bool; [|preserve].
    destruct (infixParseFns rec (Type_ pk)) as [infix|] eqn:Hinfix; [|preserve].
    apply preserves_bind; [preserve|]. intros _.
    apply preserves_bind; [eapply preserves_infixParseFns; exact Hinfix|].
    intros leftExp'. apply IH.
Qed.

End expressions.

Lemma preserves_parseExpression fuel :
  forall precedence, preserves (parseExpression fuel precedence).
Proof.
  induction fuel as [|fuel IH]; intros precedence; cbn [parseExpression];
    [preserve|].
  apply preserves_bind; [preserve|]. intros c.
  destruct (prefixParseFns (parseExpression fuel) (Type_ c)) as [prefix|] eqn:Hprefix;
    [|preserve].
  apply preserves_bind; [eapply preserves_prefixParseFns; [exact IH|exact Hprefix]|].
  intros leftExp. apply preserves_parseExpression_loop, IH.
Qed.

#[local] Hint Resolve preserves_parseExpression : preserve.

Lemma preserves_parseRemStatement_loop n :
  forall comment, preserves (parseRemStatement_loop n comment).
Proof.
  induction n as [|n IH]; intros comment; cbn [parseRemStatement_loop]; preserve.
Qed.

Lemma preserves_parsePrintStatement_loop n fuel :
  forall exprs seps, preserves (parsePrintStatement_loop n fuel exprs seps).
Proof.
  induction n as [|n IH]; intros exprs seps; cbn [parsePrintStatement_loop];
    [preserve|].
  apply preserves_bind; [preserve|]. intros expr.
  apply preserves_bind; [preserve|]. intros pk.
  assert (Hsep : forall sep es,
             preserves
               (bind nextToken (fun _ =>
                  bind peek (fun pk0 =>
                    if ends_statement pk0
                    then ret (ast.PrintStatement es (seps ++ [sep])%list false)
                    else bind nextToken (fun _ =>
                           parsePrintStatement_loop n fuel es (seps ++ [sep])%list))))).
  { intros sep es. preserve. }
  destruct (is_ SEMICOLON pk); [apply Hsep|].
  destruct (is_ COMMA pk); [apply Hsep|]. preserve.
Qed.

Lemma preserves_parseInputStatement_loop n :
  forall prompt variables, preserves (parseInputStatement_loop n prompt variables).
Proof.
  induction n as [|n IH]; intros prompt variables;
    cbn [parseInputStatement_loop]; preserve.
Qed.

#[local] Hint Resolve preserves_parseRemStatement_loop
  preserves_parsePrintStatement_loop preserves_parseInputStatement_loop : preserve.

Lemma preserves_simple_statements fuel :
  preserves (parseRemStatement fuel) /\ preserves (parseDimStatement fuel)
  /\ preserves (parseLetStatement fuel) /\ preserves (parseGotoStatement fuel)
  /\ preserves (parseGosubStatement fuel) /\ preserves parseReturnStatement
  /\ preserves parseEndStatement /\ preserves (parsePrintStatement fuel)
  /\ preserves (parseForStatement fuel) /\ preserves parseNextStatement
  /\ preserves (parseInputStatement fuel)
  /\ preserves (parseExpressionStatement fuel).
Proof.
  unfold parseRemStatement, parseDimStatement, parseLetStatement,
    parseGotoStatement, parseGosubStatement, parseReturnStatement,
    parseEndStatement, parsePrintStatement, parseForStatement,
    parseNextStatement, parseInputStatement, parseExpressionStatement.
  repeat match goal with |- _ /\ _ => split end; preserve.
Qed.

Section statements.
Variable rec : M ast.Statement.
Hypothesis Hrec : preserves rec.
Variable fuel : nat.

Lemma preserves_parseIfStatement : preserves (parseIfStatement rec fuel).
Proof using Hrec. unfold parseIfStatement. preserve. Qed.

Lemma preserves_parseSingleStatement : preserves (parseSingleStatement rec fuel).
Proof using Hrec.
  destruct (preserves_simple_statements fuel)
    as (? & ? & ? & ? & ? & ? & ? & ? & ? & ? & ? & ?).
  pose proof preserves_parseIfStatement.
  unfold parseSingleStatement. apply preserves_bind; [preserve|].
  intros c. destruct (Type_ c); assumption.
Qed.

Lemma preserves_parseStatement_loop n :
  forall stmts, preserves (parseStatement_loop rec fuel n stmts).
Proof using Hrec.
  pose proof preserves_parseSingleStatement.
  induction n as [|n IH]; intros stmts; cbn [parseStatement_loop]; preserve.
Qed.

End statements.

Lemma preserves_parseStatement fuel : preserves (parseStatement fuel).
Proof.
  induction fuel as [|fuel IH]; cbn [parseStatement]; [preserve|].
  apply preserves_bind; [apply preserves_parseSingleStatement, IH|]. intros stmt.
  apply preserves_bind; [apply preserves_parseStatement_loop, IH|]. intros stmts.
  preserve.
Qed.

(** [Atoi] of a literal of the number shape is not negative. *)
Lemma decimal_value_nonneg (s : string) :
  forall acc, all_digits s = true -> 0 <= acc -> 0 <= decimal_value s acc.
Proof.
  induction s as [|c s IH]; intros acc Hs Hacc; cbn in *; [exact Hacc|].
  apply andb_prop in Hs. destruct Hs as [Hc Hs].
  apply IH; [exact Hs|].
  assert (0 <= digit_val c); [|lia].
  destruct c as [[] [] [] [] [] [] [] []]; vm_compute in Hc;
    try discriminate Hc; vm_compute; discriminate.
Qed.

Lemma Atoi_number_shape (literal : string) (k : Z) :
  number_shape literal = true -> Atoi literal = Some k -> 0 <= k.
Proof.
  destruct literal as [|c rest]; [discriminate|]. cbn [number_shape].
  intros Hshape. apply andb_prop in Hshape. destruct Hshape as [Hc _].
  assert (Hunsigned :
            Atoi (String c rest)
            = if all_digits (String c rest)
              then let v := decimal_value (String c rest) 0 in
                   if ((- 2 ^ 63 <=? v) && (v <? 2 ^ 63))%bool then Some v else None
              else None).
  { destruct c as [[] [] [] [] [] [] [] []]; vm_compute in Hc;
      try discriminate Hc; reflexivity. }
  rewrite Hunsigned.
  destruct (all_digits (String c rest)) eqn:Hdigits; [|discriminate].
  cbv zeta. destruct (_ && _)%bool; [|discriminate].
  intros [= <-]. apply (decimal_value_nonneg (String c rest) 0 Hdigits). lia.
Qed.

Definition keys_nonneg (statements : gmap Z ast.Statement) : Prop :=
  forall k, is_Some (statements !! k) -> 0 <= k.

Lemma keys_nonneg_insert (statements : gmap Z ast.Statement) k stmt :
  0 <= k -> keys_nonneg statements -> keys_nonneg (<[k := stmt]> statements).
Proof.
  intros Hk Hkeys k' Hsome.
  destruct (decide (k = k')) as [<-|Hne]; [exact Hk|].
  rewrite lookup_insert_ne in Hsome by exact Hne. apply Hkeys, Hsome.
Qed.

Lemma bind_cur {A} (k : Token -> M A) (p : Parser) :
  bind cur k p = k (curToken p) p.
Proof. reflexivity. Qed.

(** A line number that [parseLineStatement] returns is not negative. *)
Lemma parseLineStatement_line fuel (p : Parser) :
  parser_ok p -> Type_ (curToken p) = NUMBER ->
  match parseLineStatement fuel p with
  | Ok (r, p') => parser_ok p' /\ forall n stmt, r = Some (n, stmt) -> 0 <= n
  | _ => True
  end.
Proof.
  intros Hp Hnumber. unfold parseLineStatement. rewrite bind_cur.
  destruct (Atoi (Literal (curToken p))) as [lineNum|] eqn:HAtoi.
  - unfold bind.
    pose proof (preserves_nextToken p Hp) as Hnext.
    destruct (nextToken p) as [[[] p1]| |]; [|exact I|exact I].
    pose proof (preserves_parseStatement fuel p1 Hnext) as Hstmt.
    destruct (parseStatement fuel p1) as [[stmt p2]| |]; [|exact I|exact I].
    cbn. split; [exact Hstmt|].
    intros n stmt' [= <- _].
    apply (Atoi_number_shape (Literal (curToken p))); [|exact HAtoi].
    destruct Hp as (_ & Hcur & _). apply Hcur, Hnumber.
  - cbn. split; [exact Hp|]. intros n stmt [=].
Qed.

Lemma parseStatementOrLine_line fuel (p : Parser) :
  parser_ok p ->
  match parseStatementOrLine fuel p with
  | Ok (r, p') =>
      parser_ok p' /\ forall n stmt, r = Line (Some (n, stmt)) -> 0 <= n
  | _ => True
  end.
Proof.
  intros Hp. unfold parseStatementOrLine. rewrite bind_cur.
  destruct (is_ NUMBER (curToken p)) eqn:Hnumber.
  - unfold is_ in Hnumber. apply bool_decide_eq_true in Hnumber.
    pose proof (parseLineStatement_line fuel p Hp Hnumber) as Hline.
    unfold bind.
    destruct (parseLineStatement fuel p) as [[r p1]| |]; [|exact I|exact I].
    cbn. destruct Hline as [Hp1 Hn]. split; [exact Hp1|].
    intros n stmt [= ->]. eapply Hn. reflexivity.
  - pose proof (preserves_parseStatement fuel p Hp) as Hstmt.
    unfold bind.
    destruct (parseStatement fuel p) as [[stmt p1]| |]; [|exact I|exact I].
    cbn. split; [exact Hstmt|]. intros n stmt' [=].
Qed.

Lemma ParseProgram_loop_keys n fuel :
  forall statements p,
    parser_ok p -> keys_nonneg statements ->
    match ParseProgram_loop n fuel statements p with
    | Ok (program, _) => keys_nonneg (ast.Statements program)
    | _ => True
    end.
Proof.
  induction n as [|n IH]; intros statements p Hp Hkeys; cbn [ParseProgram_loop];
    rewrite bind_cur;
    (destruct (is_ EOF (curToken p)); [exact Hkeys|]); [exact I|].
  destruct (is_ NEWLINE (curToken p)).
  - pose proof (preserves_nextToken p Hp) as Hnext. unfold bind.
    destruct (nextToken p) as [[[] p1]| |]; [|exact I|exact I].
    apply IH; assumption.
  - pose proof (parseStatementOrLine_line fuel p Hp) as Hline. unfold bind at 1.
    destruct (parseStatementOrLine fuel p) as [[r p1]| |]; [|exact I|exact I].
    destruct Hline as [Hp1 Hn].
    pose proof (preserves_nextToken p1 Hp1) as Hnext.
    destruct r as [[[lineNumber statement]|]|statement]; [|exact I|].
    + unfold bind. destruct (nextToken p1) as [[[] p2]| |]; [|exact I|exact I].
      apply IH; [exact Hnext|].
      apply keys_nonneg_insert; [eapply Hn; reflexivity|exact Hkeys].
    + unfold bind. destruct (nextToken p1) as [[[] p2]| |]; [|exact I|exact I].
      apply IH; [exact Hnext|].
      apply keys_nonneg_insert; [lia|exact Hkeys].
Qed.

Lemma New_parser_ok (src : string) : parser_ok (parser.New (lexer.New src)).
Proof.
  assert (H0 : parser_ok (mkParser (lexer.New src) [] token.zero token.zero)).
  { split; [apply New_well_formed|]. split; intros H; discriminate H. }
  pose proof (preserves_bind nextToken (fun _ => nextToken) preserves_nextToken
                (fun _ => preserves_nextToken) _ H0) as H.
  unfold parser.New.
  destruct (bind nextToken (fun _ => nextToken) _) as [[[] p]| |]; assumption.
Qed.

(** Every key of a program that [ParseProgram] returns is 0 or positive. *)
Lemma parse_keys fuel (src : string) program errs :
  parse fuel src = Ok (program, errs) ->
  keys_nonneg (ast.Statements program).
Proof.
  unfold parse, ParseProgram. intros H.
  pose proof (ParseProgram_loop_keys fuel fuel ∅ _ (New_parser_ok src)) as Hkeys.
  destruct (ParseProgram_loop fuel fuel ∅ _) as [[program' p]| |];
    try discriminate H.
  injection H as <- _. apply Hkeys.
  intros k [stmt Hk]. rewrite lookup_empty in Hk. discriminate.
Qed.

End parser_facts.

(** ** The order of execution *)

Section execution_order.
Variable program : Program.
Variable stdin : string.
Variable starts : list nat.

Let e0 : evaluator.Evaluator := evaluator.New program stdin starts.

Lemma lines_keys (k : Z) :
  k ∈ evaluator.lines e0 <-> is_Some (Statements program !! k).
Proof.
  subst e0. cbn. unfold evaluator.sort_Ints.
  rewrite merge_sort_Permutation.
  rewrite list_elem_of_fmap. split.
  - intros [[k' stmt] [-> Hin]]. apply elem_of_map_to_list in Hin. eauto.
  - intros [stmt Hk]. exists (k, stmt). split; [reflexivity|].
    apply elem_of_map_to_list. exact Hk.
Qed.

Lemma lines_sorted : StronglySorted Z.le (evaluator.lines e0).
Proof. subst e0. cbn. apply StronglySorted_merge_sort; apply _. Qed.

Lemma lines_NoDup : NoDup (evaluator.lines e0).
Proof.
  subst e0. cbn. unfold evaluator.sort_Ints.
  rewrite merge_sort_Permutation. apply NoDup_fst_map_to_list.
Qed.

(** With no negative key, key 0 is the first line. *)
Lemma zero_first :
  (forall k, is_Some (Statements program !! k) -> 0 <= k) ->
  is_Some (Statements program !! 0) ->
  evaluator.lines e0 !! 0%nat = Some 0.
Proof.
  intros Hkeys Hzero.
  apply lines_keys in Hzero.
  pose proof lines_sorted as Hsorted.
  assert (Hall : forall k, k ∈ evaluator.lines e0 -> 0 <= k).
  { intros k Hk. apply Hkeys, lines_keys, Hk. }
  destruct (evaluator.lines e0) as [|first rest]; [inversion Hzero|].
  cbn. f_equal.
  apply StronglySorted_inv in Hsorted. destruct Hsorted as [_ Hfirst].
  assert (0 <= first) by (apply Hall; left).
  apply elem_of_cons in Hzero. destruct Hzero as [->|Hin]; [reflexivity|].
  rewrite List.Forall_forall in Hfirst.
  assert (first <= 0) by (apply Hfirst, list_elem_of_In, Hin).
  lia.
Qed.

End execution_order.

(** C9: for a program that [ParseProgram] returns, every key is 0 or
    positive; the interpreter's line list holds exactly the keys, in
    strictly ascending order; so if there is a statement under key 0, it is
    at index 0, where [Run] starts: the first turn of the run loop executes
    it, and every other line is positive and comes at a later index. *)
Theorem C9_immediate_statement_runs_first
    (src : string) (fuel : nat) (program : Program) (errs : list parser.Error)
    (stdin : string) (starts : list nat) :
  parser.parse fuel src = Ok (program, errs) ->
  let e := evaluator.New program stdin starts in
  (forall k, is_Some (Statements program !! k) -> k = 0 \/ 0 < k)
  /\ (forall k, k ∈ evaluator.lines e <-> is_Some (Statements program !! k))
  /\ StronglySorted Z.le (evaluator.lines e)
  /\ NoDup (evaluator.lines e)
  /\ (is_Some (Statements program !! 0) ->
      evaluator.lines e !! 0%nat = Some 0
      /\ (forall turns,
            head (map (fun e' => evaluator.lines e' !! Z.to_nat (evaluator.currentLine e'))
                    (turns_of (S turns) e))
            = Some (Some 0))
      /\ (forall (i : nat) k,
            evaluator.lines e !! i = Some k -> k <> 0 -> (0 < i)%nat /\ 0 < k)).
Proof.
  intros Hparse e.
  pose proof (parse_keys fuel src program errs Hparse) as Hkeys.
  split; [intros k Hk; specialize (Hkeys k Hk); lia|].
  split; [apply lines_keys|].
  split; [apply lines_sorted|].
  split; [apply lines_NoDup|].
  intros Hzero.
  pose proof (zero_first program stdin starts Hkeys Hzero) as Hfirst.
  fold e in Hfirst.
  split; [exact Hfirst|]. split.
  - intros turns. cbn [turns_of].
    assert (Hrun : evaluator.running e = true).
    { unfold evaluator.running. cbn [evaluator.currentLine evaluator.halted e evaluator.New].
      destruct (evaluator.lines e); [discriminate|]. reflexivity. }
    rewrite Hrun. cbn [map head]. cbn [evaluator.currentLine e evaluator.New].
    change (Z.to_nat 0) with 0%nat. rewrite Hfirst. reflexivity.
  - intros i k Hik Hk. split.
    + destruct i; [rewrite Hfirst in Hik; congruence|lia].
    + assert (0 <= k); [|lia].
      apply Hkeys, (lines_keys program stdin starts).
      apply list_elem_of_lookup. eauto.
Qed.

Definition immediate_source : string :=
  text_of ["10 PRINT " ++ quoted "A"; "PRINT " ++ quoted "B"; "20 PRINT " ++ quoted "C"].

(** The theorem at a text with an immediate statement between two numbered
    lines: the immediate statement is printed first. *)
Lemma C9_witness :
  exists program,
    parser.parse 100 immediate_source = Ok (program, [])
    /\ evaluator.lines (evaluator.New program "" []) = [0; 10; 20]
    /\ interpret immediate_source "" []
       = Some (text_of ["B"; "A"; "C"], evaluator.Finished None)
    /\ forall k, is_Some (Statements program !! k) -> k = 0 \/ 0 < k.
Proof.
  destruct (parser.parse 100 immediate_source) as [[program errs]| |] eqn:Hparse;
    try (vm_compute in Hparse; discriminate Hparse).
  assert (Herrs : errs = []) by (vm_compute in Hparse; congruence).
  subst errs. exists program.
  split; [reflexivity|].
  split; [vm_compute in Hparse; injection Hparse as <-; vm_compute; reflexivity|].
  split; [vm_compute; reflexivity|].
  exact (proj1 (C9_immediate_statement_runs_first
                  immediate_source 100 program [] "" [] Hparse)).
Defined.

(** ** The two back ends, side by side

    The variables of the emitted [run] are read off the fields of the
    interpreter: the same scalars, arrays, call stack, loops, program
    counter, output and input, each in the representation of the emitted
    runtime. *)

Section side_by_side.
Import evaluator.

Definition value_of (v : Value) : compiler.Value :=
  match v with
  | NumberValue n => compiler.numVal n
  | StringValue s => compiler.strVal s
  end.

Definition loop_of (l : ForLoopState) : compiler.forLoopState :=
  compiler.mkLoop (End_ l) (Step l) (StartLine l).

Definition env_of (env : Environment) : compiler.env :=
  compiler.mkEnv (value_of <$> variables env)
                 ((fun _ => ∅) <$> arrays env)
                 (reader env).

Definition state_of (e : Evaluator) : compiler.State :=
  compiler.mkState (env_of (env e)) (callStack e) (loop_of <$> forLoops e)
                   (halted e) (currentLine e) (stdout e) (rangeStarts e).

(** No array holds an element: nothing in the language stores one. *)
Definition arrays_empty (e : Evaluator) : Prop :=
  forall name arr, GetArray name (env e) = Some arr -> Elements arr = ∅.

(** The results of the two back ends for one expression: the same value, or
    an error on both sides. *)
Definition same_value (r : outcome Error Value)
    (r' : outcome compiler.Error compiler.Value) : Prop :=
  match r, r' with
  | Returns v, Returns v' => v' = value_of v
  | Fails _, Fails _ => True
  | _, _ => False
  end.

Lemma inspect_value_of (v : Value) : compiler.inspect (value_of v) = Inspect v.
Proof. destruct v; reflexivity. Qed.

Lemma truthy_value_of (v : Value) : compiler.truthy (value_of v) = isTruthy v.
Proof. destruct v; reflexivity. Qed.

Lemma get_value_of (name : string) (e : Evaluator) :
  compiler.get name (env_of (env e))
  = match Get name (env e) with
    | Some v => value_of v
    | None => compiler.numVal 0%float
    end.
Proof.
  unfold compiler.get, Get. cbn. rewrite lookup_fmap.
  destruct (variables (env e) !! name); reflexivity.
Qed.

Ltac each_operator op :=
  repeat match goal with
         | |- context [String.eqb op ?x] => destruct (String.eqb op x)
         | |- context [if ?b then _ else _] => destruct b
         end;
  try exact I; reflexivity.

Lemma applyInfix_value_of (op : string) (a b : Value) :
  same_value (infix op a b) (compiler.applyInfix op (value_of a) (value_of b)).
Proof.
  destruct a as [a|a], b as [b|b]; unfold infix, compiler.applyInfix, truth,
    compiler.truth, same_value; cbn; each_operator op.
Qed.

Lemma applyPrefix_value_of (op : string) (a : Value) :
  same_value (prefix op a) (compiler.applyPrefix op (value_of a)).
Proof.
  destruct a as [a|a]; unfold prefix, compiler.applyPrefix, truth,
    compiler.truth, same_value; cbn; each_operator op.
Qed.

Lemma arrayAccess_value_of (name : string) (e : Evaluator) (arr : ArrayValue)
    (i : float64) :
  arrays_empty e -> GetArray name (env e) = Some arr ->
  compiler.arrayAccess (env_of (env e)) name (compiler.numVal i)
  = Returns (compiler.numVal 0%float)
  /\ Elements arr !! int_of_float i = None.
Proof.
  intros Hempty Harr. split.
  - unfold compiler.arrayAccess, compiler.array. cbn.
    unfold GetArray in Harr. rewrite lookup_fmap, Harr. cbn.
    rewrite lookup_empty. reflexivity.
  - rewrite (Hempty name arr Harr). apply lookup_empty.
Qed.

(** The lines emitted for an expression compute what [evalExpression]
    returns. *)
Lemma emitExpression_same (expr : Expression) :
  forall code e,
    compiler.emitExpression expr = Returns code -> arrays_empty e ->
    same_value (evalExpression expr e) (code (state_of e)).
Proof.
  induction expr as [v|v|name|l IHl op r IHr|op r IHr|name idx IHidx|];
    intros code e Hemit Hempty; cbn in Hemit.
  - injection Hemit as <-. reflexivity.
  - injection Hemit as <-. reflexivity.
  - injection Hemit as <-. cbn [evalExpression same_value state_of compiler.env_].
    rewrite get_value_of. destruct (Get name (env e)); reflexivity.
  - destruct (compiler.emitExpression l) as [left| |]; try discriminate.
    destruct (compiler.emitExpression r) as [right| |]; try discriminate.
    cbn in Hemit. injection Hemit as <-.
    specialize (IHl left e eq_refl Hempty).
    specialize (IHr right e eq_refl Hempty).
    cbn [evalExpression].
    destruct (evalExpression l e) as [a|erra|], (left (state_of e)) as [a'|erra'|];
      cbn in IHl; try contradiction; [|exact I].
    destruct (evalExpression r e) as [b|errb|], (right (state_of e)) as [b'|errb'|];
      cbn in IHr; try contradiction; [|exact I].
    subst. apply applyInfix_value_of.
  - destruct (compiler.emitExpression r) as [right| |]; try discriminate.
    cbn in Hemit. injection Hemit as <-.
    specialize (IHr right e eq_refl Hempty).
    cbn [evalExpression].
    destruct (evalExpression r e) as [b|errb|], (right (state_of e)) as [b'|errb'|];
      cbn in IHr; try contradiction; [|exact I].
    subst. apply applyPrefix_value_of.
  - destruct (compiler.emitExpression idx) as [index| |]; try discriminate.
    cbn in Hemit. injection Hemit as <-.
    specialize (IHidx index e eq_refl Hempty).
    cbn [evalExpression].
    destruct (GetArray name (env e)) as [arr|] eqn:Harr.
    + destruct (evalExpression idx e) as [[i|i]|erri|],
        (index (state_of e)) as [i'|erri'|];
        cbn in IHidx; try contradiction; try exact I; subst.
      * destruct (arrayAccess_value_of name e arr i Hempty Harr) as [Hzero ->].
        cbn [state_of compiler.env_]. rewrite Hzero. reflexivity.
      * unfold compiler.arrayAccess, compiler.array. cbn.
        unfold GetArray in Harr. rewrite lookup_fmap, Harr. exact I.
    + destruct (index (state_of e)) as [i'|erri'|] eqn:Hi.
      * unfold compiler.arrayAccess, compiler.array. cbn.
        unfold GetArray in Harr. rewrite lookup_fmap, Harr.
        destruct (evalExpression idx e); exact I.
      * exact I.
      * destruct (evalExpression idx e); cbn in IHidx; contradiction.
  - discriminate.
Qed.

End side_by_side.

Section statements_side_by_side.
Import evaluator.

(** On the way of [stmt] through the interpreter from [e], every DIM that
    is reached has a size that evaluates to a Number. *)
Fixpoint dims_numeric (stmt : Statement) (e : Evaluator) : bool :=
  match stmt with
  | DimStatement _ size =>
      match evalExpression size e with
      | Returns (NumberValue _) => true
      | _ => false
      end
  | IfStatement condition consequence alternative =>
      match evalExpression condition e with
      | Returns cond =>
          if isTruthy cond then dims_numeric consequence e
          else match alternative with
               | Some alt => dims_numeric alt e
               | None => true
               end
      | _ => true
      end
  | SequenceStatement stmts =>
      (fix all (l : list Statement) (e : Evaluator) : bool :=
         match l with
         | [] => true
         | s :: rest =>
             dims_numeric s e
             && match evalStatement s e with
                | (e', Returns _) => all rest e'
                | _ => true
                end
         end) stmts e
  | _ => true
  end.

(** The tables of the emitted program are those of the interpreter. *)
Definition same_tables (t : compiler.Tables) (e : Evaluator) : Prop :=
  compiler.programLines t = lines e
  /\ forall x, compiler.lineIndex t !! x = index_of x (lines e) 0.

(** The results of the two back ends for one statement, both started from
    [e]: on success the variables of [run] are again those of the
    interpreter; on an error or a panic on both sides the same bytes have
    been printed. *)
Definition same_result (e : Evaluator) (r : Evaluator * outcome Error unit)
    (r' : compiler.State * outcome compiler.Error unit) : Prop :=
  match r, r' with
  | (e', Returns _), (s', Returns _) =>
      s' = state_of e' /\ arrays_empty e'
      /\ program e' = program e /\ lines e' = lines e
  | (e', Fails _), (s', Fails _) => compiler.stdout s' = stdout e'
  | (e', Panics), (s', Panics) => compiler.stdout s' = stdout e'
  | _, _ => False
  end.

Lemma same_result_from (e0 e : Evaluator) r r' :
  program e = program e0 -> lines e = lines e0 ->
  same_result e r r' -> same_result e0 r r'.
Proof.
  intros Hprogram Hlines.
  destruct r as [e' [[]|err|]], r' as [s' [[]|err'|]]; cbn; auto.
  intros (? & ? & ? & ?).
  split; [assumption|]. split; [assumption|]. split; congruence.
Qed.

(** Evaluate an expression on both sides. *)
Ltac on_both_sides Hval Hempty :=
  match type of Hval with
  | compiler.emitExpression ?expr = Returns ?val =>
      match goal with
      | |- context [val (state_of ?e)] =>
          let Hsame := fresh "Hsame" in
          pose proof (emitExpression_same expr val e Hval Hempty) as Hsame;
          destruct (evalExpression expr e) as [?|?|],
            (val (state_of e)) as [?|?|];
          unfold same_value in Hsame; try contradiction; subst
      end
  end.

Ltac emitted_expression Hemit val Hval :=
  match type of Hemit with
  | context [compiler.emitExpression ?expr] =>
      destruct (compiler.emitExpression expr) as [val| |] eqn:Hval;
      try discriminate Hemit
  end.

Lemma state_of_Print (text : string) (e : Evaluator) :
  state_of (fmt_Print text e) = compiler.fmt_Print text (state_of e).
Proof. reflexivity. Qed.

Lemma print_loop_same (exprs : list Expression) (seps : list string) :
  forall i code t e,
    compiler.emitPrint_loop i exprs seps = Returns code -> arrays_empty e ->
    same_result e (evalPrintStatement_loop i exprs seps e) (code t (state_of e)).
Proof.
  induction exprs as [|expr rest IH]; intros i code t e Hemit Hempty; cbn in Hemit.
  - injection Hemit as <-. cbn. auto.
  - emitted_expression Hemit val Hval.
    destruct (compiler.emitPrint_loop (S i) rest seps) as [more| |] eqn:Hmore;
      try discriminate Hemit.
    cbn in Hemit. injection Hemit as <-.
    cbn [evalPrintStatement_loop]. unfold compiler.with_value.
    on_both_sides Hval Hempty; [|reflexivity].
    rewrite inspect_value_of.
    destruct (seps !! i) as [sep|]; rewrite <- !state_of_Print;
      (eapply same_result_from; [| |apply (IH (S i) more t _ Hmore)]);
      try reflexivity; exact Hempty.
Qed.

Lemma print_same (exprs : list Expression) (seps : list string) (nl : bool) :
  forall code t e,
    compiler.emitPrint exprs seps nl = Returns code -> arrays_empty e ->
    same_result e (evalPrintStatement exprs seps nl e) (code t (state_of e)).
Proof.
  intros code t e Hemit Hempty. destruct exprs as [|expr rest].
  - cbn in Hemit. injection Hemit as <-. cbn. auto.
  - unfold compiler.emitPrint in Hemit.
    destruct (compiler.emitPrint_loop 0 (expr :: rest) seps) as [body| |] eqn:Hbody;
      try discriminate Hemit.
    cbn in Hemit. injection Hemit as <-.
    pose proof (print_loop_same _ _ 0%nat body t e Hbody Hempty) as H.
    unfold evalPrintStatement.
    destruct (evalPrintStatement_loop 0 (expr :: rest) seps e) as [e' [[]|err|]],
      (body t (state_of e)) as [s' [[]|err'|]];
      cbn in H |- *; try contradiction; try exact H.
    destruct H as (-> & He & Hp & Hl). destruct nl; cbn; auto.
Qed.

Lemma let_same (name : string) (value : Expression) :
  forall code t e,
    compiler.emitLet name value = Returns code -> arrays_empty e ->
    same_result e (evalLetStatement name value e) (code t (state_of e)).
Proof.
  intros code t e Hemit Hempty. unfold compiler.emitLet in Hemit.
  emitted_expression Hemit val Hval. cbn in Hemit. injection Hemit as <-.
  unfold evalLetStatement, compiler.with_value.
  on_both_sides Hval Hempty; [|reflexivity].
  cbn. split; [|auto].
  unfold state_of, compiler.with_env, env_of, compiler.set. cbn.
  rewrite fmap_insert. reflexivity.
Qed.

Lemma goto_same (lineNumber : Expression) :
  forall code t e,
    compiler.emitGoto lineNumber = Returns code -> arrays_empty e ->
    same_tables t e ->
    same_result e (evalGotoStatement lineNumber e) (code t (state_of e)).
Proof.
  intros code t e Hemit Hempty [_ Hindex]. unfold compiler.emitGoto in Hemit.
  emitted_expression Hemit val Hval. cbn in Hemit. injection Hemit as <-.
  unfold evalGotoStatement, compiler.with_value.
  on_both_sides Hval Hempty; [|reflexivity].
  destruct a as [n|s]; cbn; [|reflexivity].
  rewrite Hindex.
  destruct (index_of (int_of_float n) (lines e) 0); cbn; auto.
Qed.

Lemma gosub_same (lineNumber : Expression) :
  forall code t e,
    compiler.emitGosub lineNumber = Returns code -> arrays_empty e ->
    same_tables t e ->
    same_result e (evalGosubStatement lineNumber e) (code t (state_of e)).
Proof.
  intros code t e Hemit Hempty [_ Hindex]. unfold compiler.emitGosub in Hemit.
  emitted_expression Hemit val Hval. cbn in Hemit. injection Hemit as <-.
  unfold evalGosubStatement, compiler.with_value.
  on_both_sides Hval Hempty; [|reflexivity].
  destruct a as [n|s]; cbn; [|reflexivity].
  rewrite Hindex.
  destruct (index_of (int_of_float n) (lines e) 0); cbn; auto.
Qed.

Lemma return_same (t : compiler.Tables) (e : Evaluator) :
  arrays_empty e ->
  same_result e (evalReturnStatement e) (compiler.emitReturn t (state_of e)).
Proof.
  intros Hempty. unfold evalReturnStatement, compiler.emitReturn. cbn.
  destruct (last (callStack e)); cbn; auto.
Qed.

Lemma for_same (variable : string) (start end_ step : Expression) :
  forall code t e,
    compiler.emitFor variable start end_ step = Returns code -> arrays_empty e ->
    same_result e (evalForStatement variable start end_ step e)
                (code t (state_of e)).
Proof.
  intros code t e Hemit Hempty. unfold compiler.emitFor in Hemit.
  emitted_expression Hemit startVal Hstart. cbn in Hemit.
  emitted_expression Hemit endVal Hend. cbn in Hemit.
  emitted_expression Hemit stepVal Hstep. cbn in Hemit.
  injection Hemit as <-.
  unfold evalForStatement, compiler.with_value.
  pose proof (emitExpression_same start startVal e Hstart Hempty) as Hs.
  pose proof (emitExpression_same end_ endVal e Hend Hempty) as He.
  pose proof (emitExpression_same step stepVal e Hstep Hempty) as Hp.
  destruct (evalExpression start e) as [[sn|ss]|serr|],
    (startVal (state_of e)) as [sv|serr'|];
    cbn in Hs; try contradiction; subst;
  destruct (evalExpression end_ e) as [[en|es]|eerr|],
    (endVal (state_of e)) as [ev|eerr'|];
    cbn in He; try contradiction; subst;
  destruct (evalExpression step e) as [[pn|ps]|perr|],
    (stepVal (state_of e)) as [pv|perr'|];
    cbn in Hp; try contradiction; subst; cbn; try reflexivity.
  split; [|auto].
  unfold state_of, compiler.with_forLoops, compiler.with_env, env_of,
    compiler.set. cbn.
  rewrite !fmap_insert. reflexivity.
Qed.

Lemma first_key_same (e : Evaluator) :
  compiler.first_key (state_of e)
  = (fst (first_key e), state_of (snd (first_key e))).
Proof.
  unfold compiler.first_key, first_key. cbn.
  rewrite dom_fmap_L. reflexivity.
Qed.

Lemma next_same (variable : option string) (t : compiler.Tables) (e : Evaluator) :
  arrays_empty e -> loops_bound e ->
  same_result e (evalNextStatement variable e)
              (compiler.emitNext variable t (state_of e)).
Proof.
  intros Hempty Hbound.
  unfold evalNextStatement, compiler.emitNext.
  assert (Hpick : exists e1,
             match variable with
             | Some name => (name, e)
             | None => first_key e
             end = (match variable with
                    | Some name => name
                    | None => fst (first_key e)
                    end, e1)
             /\ match variable with
                | Some name => (name, state_of e)
                | None => compiler.first_key (state_of e)
                end = (match variable with
                       | Some name => name
                       | None => fst (first_key e)
                       end, state_of e1)
             /\ arrays_empty e1 /\ loops_bound e1 /\ program e1 = program e
             /\ lines e1 = lines e /\ stdout e1 = stdout e).
  { destruct variable as [name|].
    - exists e. auto 10.
    - exists (snd (first_key e)). rewrite first_key_same.
      split; [destruct (first_key e); reflexivity|]. auto 10. }
  destruct Hpick as (e1 & -> & -> & Hempty1 & Hbound1 & Hprogram & Hlines & Hout).
  set (name := match variable with
               | Some name => name
               | None => fst (first_key e)
               end).
  clearbody name.
  destruct (String.eqb name ""); [cbn; congruence|].
  cbn [state_of compiler.forLoops compiler.env_]. rewrite lookup_fmap.
  destruct (forLoops e1 !! name) as [loopState|] eqn:Hloop; cbn; [|congruence].
  rewrite get_value_of.
  destruct (Hbound1 name) as [val Hval]; [rewrite Hloop; eauto|].
  rewrite Hval. destruct val as [n|s]; cbn; [|congruence].
  destruct (if (0 <? Step loopState)%float
            then (n + Step loopState <=? End_ loopState)%float
            else (End_ loopState <=? n + Step loopState)%float); cbn.
  - split; [|auto].
    unfold state_of, compiler.with_pc, compiler.with_env, env_of, compiler.set.
    cbn. rewrite fmap_insert. reflexivity.
  - split; [|auto].
    unfold state_of, compiler.with_forLoops. cbn.
    rewrite fmap_delete. reflexivity.
Qed.

Lemma field_value_same (text : string) :
  compiler.field_value text = value_of (field_value text).
Proof.
  unfold compiler.field_value, field_value.
  destruct (ParseFloat (TrimSpace text)); reflexivity.
Qed.

Lemma input_loop_same (vars : list string) (values : list string) :
  forall i env,
    compiler.emitInput_loop i vars values (env_of env)
    = env_of (evalInputStatement_loop i vars values env)
    /\ arrays (evalInputStatement_loop i vars values env) = arrays env.
Proof.
  induction vars as [|variable rest IH]; intros i env; cbn; [auto|].
  destruct (values !! i) as [text|].
  - rewrite field_value_same.
    destruct (IH (S i) (Set_ variable (field_value text) env)) as [<- ->].
    split; [|reflexivity]. f_equal.
    unfold env_of, compiler.set, Set_. cbn. rewrite fmap_insert. reflexivity.
  - destruct (IH (S i) (Set_ variable (NumberValue 0%float) env)) as [<- ->].
    split; [|reflexivity]. f_equal.
    unfold env_of, compiler.set, Set_. cbn. rewrite fmap_insert. reflexivity.
Qed.

Lemma input_same (prompt : string) (vars : list string) (t : compiler.Tables)
    (e : Evaluator) :
  arrays_empty e ->
  same_result e (evalInputStatement prompt vars e)
              (compiler.emitInput prompt vars t (state_of e)).
Proof.
  intros Hempty. unfold evalInputStatement, compiler.emitInput.
  set (e1 := if String.eqb prompt "" then e
             else if HasSuffix prompt " " then fmt_Print prompt e
                  else fmt_Print " " (fmt_Print prompt e)).
  assert (Hs : (if String.eqb prompt "" then state_of e
                else if HasSuffix prompt " "
                     then compiler.fmt_Print prompt (state_of e)
                     else compiler.fmt_Print " " (compiler.fmt_Print prompt (state_of e)))
               = state_of e1).
  { unfold e1. destruct (String.eqb prompt ""), (HasSuffix prompt " "); reflexivity. }
  assert (He1 : env e1 = env e /\ program e1 = program e /\ lines e1 = lines e).
  { unfold e1. destruct (String.eqb prompt ""), (HasSuffix prompt " "); auto. }
  destruct He1 as (Henv & Hprogram & Hlines).
  cbv zeta. rewrite Hs. fold e1. clearbody e1.
  cbn [state_of compiler.env_ env_of compiler.reader].
  destruct (ReadString (reader (env e1)) "") as [[input rest]|]; cbn; [|reflexivity].
  destruct (input_loop_same vars (Split (TrimSpace input)) 0%nat
              (mkEnv (variables (env e1)) (arrays (env e1)) rest)) as [Hloop Harr].
  split; [|split; [|split; [exact Hprogram|exact Hlines]]].
  - unfold state_of, compiler.with_env. cbn. f_equal.
    rewrite <- Hloop. reflexivity.
  - intros name arr. unfold GetArray. cbn. rewrite Harr. cbn. rewrite Henv.
    apply Hempty.
Qed.

Lemma dim_same (name : string) (size : Expression) (t : compiler.Tables)
    (e : Evaluator) :
  arrays_empty e -> dims_numeric (DimStatement name size) e = true ->
  same_result e (evalDimStatement name size e)
              (compiler.done (compiler.with_env (compiler.ensureArray name)
                                                (state_of e))).
Proof.
  intros Hempty Hsize. cbn in Hsize.
  destruct (evalExpression size e) as [[n|text]|err|] eqn:Hn;
    try discriminate Hsize.
  unfold evalDimStatement. rewrite Hn. cbn.
  split; [|split; [|split; reflexivity]].
  - unfold state_of, compiler.with_env, compiler.ensureArray, env_of. cbn.
    rewrite lookup_fmap, fmap_insert.
    destruct (arrays (env e) !! name) as [arr|] eqn:Harr; cbn; [|reflexivity].
    rewrite insert_id; [reflexivity|].
    rewrite lookup_fmap, Harr. reflexivity.
  - intros other arr. unfold GetArray. cbn.
    destruct (decide (name = other)) as [->|Hne].
    + rewrite lookup_insert_eq. intros [= <-]. reflexivity.
    + rewrite lookup_insert_ne by exact Hne. apply Hempty.
Qed.

Lemma same_tables_from (t : compiler.Tables) (e e' : Evaluator) :
  lines e' = lines e -> same_tables t e -> same_tables t e'.
Proof. intros Hlines [H1 H2]. split; rewrite Hlines; assumption. Qed.

(** The lines emitted for a statement do to the variables of [run] what
    [evalStatement] does to the interpreter. *)
Lemma emitStatement_same (stmt : Statement) :
  forall code t e,
    compiler.emitStatement stmt = Returns code -> dims_numeric stmt e = true ->
    arrays_empty e -> loops_bound e -> same_tables t e ->
    same_result e (evalStatement stmt e) (code t (state_of e)).
Proof.
  induction stmt as [c s alt IHs IHalt|stmts IHstmts|s Hnot_if Hnot_seq]
    using Statement_nested_ind;
    intros code t e Hemit Hsizes Hempty Hbound Htables.
  - cbn in Hemit. unfold compiler.emitIf in Hemit.
    emitted_expression Hemit cond Hcond. cbn in Hemit.
    destruct (compiler.emitStatement s) as [thenCode| |] eqn:Hthen;
      try discriminate Hemit.
    cbn in Hemit. cbn [dims_numeric] in Hsizes.
    cbn [evalStatement]. unfold evalIfStatement.
    destruct alt as [a|].
    + destruct (compiler.emitStatement a) as [elseCode| |] eqn:Helse;
        try discriminate Hemit.
      cbn in Hemit. injection Hemit as <-. unfold compiler.with_value.
      revert Hsizes. on_both_sides Hcond Hempty; intros Hsizes; [|reflexivity].
      rewrite truthy_value_of.
      destruct (isTruthy a0); [apply IHs|apply (IHalt a eq_refl)];
        solve [assumption|reflexivity].
    + cbn in Hemit. injection Hemit as <-. unfold compiler.with_value.
      revert Hsizes. on_both_sides Hcond Hempty; intros Hsizes; [|reflexivity].
      rewrite truthy_value_of.
      destruct (isTruthy a); [apply IHs; solve [assumption|reflexivity]|cbn; auto].
  - cbn in Hemit. cbn [evalStatement]. cbn [dims_numeric] in Hsizes.
    revert code e Hemit Hsizes Hempty Hbound Htables.
    induction IHstmts as [|s rest IHs _ IHrest];
      intros code e Hemit Hsizes Hempty Hbound Htables; cbn in Hemit.
    + injection Hemit as <-. cbn. auto.
    + destruct (compiler.emitStatement s) as [first| |] eqn:Hfirst;
        try discriminate Hemit.
      cbn in Hemit.
      destruct (compiler.emitSequence compiler.emitStatement rest)
        as [others| |] eqn:Hothers; try discriminate Hemit.
      cbn in Hemit. injection Hemit as <-.
      apply andb_true_iff in Hsizes. destruct Hsizes as [Hsize Hsizes].
      pose proof (IHs first t e eq_refl Hsize Hempty Hbound Htables) as H.
      cbn [evalSequence].
      destruct (evalStatement s e) as [e1 [[]|err|]] eqn:Hs,
        (first t (state_of e)) as [s1 [[]|err'|]];
        cbn in H; try contradiction; try exact H.
      destruct H as (-> & Hempty1 & Hprogram & Hlines).
      apply (same_result_from e e1); [exact Hprogram|exact Hlines|].
      apply IHrest; try assumption; try reflexivity.
      * destruct (evalStatement_tables s e e1 (Returns tt) Hbound Hs) as [Hstep _].
        exact (tables_step_bound e e1 Hbound Hstep).
      * exact (same_tables_from t e e1 Hlines Htables).
  - destruct s; cbn in Hemit; cbn [evalStatement];
      try (exfalso; eapply Hnot_if; reflexivity);
      try (exfalso; eapply Hnot_seq; reflexivity).
    + apply print_same; assumption.
    + apply let_same; assumption.
    + apply goto_same; assumption.
    + apply gosub_same; assumption.
    + injection Hemit as <-. apply return_same; assumption.
    + apply for_same; assumption.
    + injection Hemit as <-. apply next_same; assumption.
    + injection Hemit as <-. apply input_same; assumption.
    + injection Hemit as <-. cbn. auto.
    + injection Hemit as <-. cbn. auto.
    + injection Hemit as <-. apply dim_same; assumption.
    + emitted_expression Hemit val Hval. cbn in Hemit. injection Hemit as <-.
      unfold compiler.with_value.
      on_both_sides Hval Hempty; [cbn; auto|reflexivity].
    + discriminate Hemit.
Qed.

End statements_side_by_side.

Section programs_side_by_side.
Import evaluator.

Lemma select_emitCases (program : Program) (lines : list Z) :
  forall cases,
    compiler.emitCases program lines = Returns cases ->
    forall line, line ∈ lines ->
      exists stmt code,
        Statements program !! line = Some stmt
        /\ compiler.emitStatement stmt = Returns code
        /\ compiler.select line cases = Some code.
Proof.
  induction lines as [|l rest IH]; intros cases Hemit line Hin.
  - apply elem_of_nil in Hin. contradiction.
  - cbn in Hemit.
    destruct (Statements program !! l) as [stmt|] eqn:Hstmt;
      [|discriminate Hemit].
    destruct (compiler.emitStatement stmt) as [code| |] eqn:Hcode;
      try discriminate Hemit.
    cbn in Hemit.
    destruct (compiler.emitCases program rest) as [others| |] eqn:Hothers;
      try discriminate Hemit.
    cbn in Hemit. injection Hemit as <-. cbn [compiler.select].
    destruct (Z.eqb_spec l line) as [->|Hne].
    + exists stmt, code. auto.
    + apply elem_of_cons in Hin. destruct Hin as [->|Hin]; [contradiction|].
      exact (IH others eq_refl line Hin).
Qed.

Lemma index_of_absent (x : Z) (xs : list Z) (i : Z) :
  x ∉ xs -> index_of x xs i = None.
Proof.
  revert i. induction xs as [|y rest IH]; intros i Hx; cbn; [reflexivity|].
  apply not_elem_of_cons in Hx. destruct Hx as [Hne Hx].
  destruct (Z.eqb_spec y x); [congruence|]. apply IH, Hx.
Qed.

(** [lineIndex] holds, for a line, the index that the loops of GOTO and
    GOSUB find for it. *)
Lemma index_lines_index_of (xs : list Z) :
  NoDup xs ->
  forall i m x,
    compiler.index_lines xs i m !! x
    = match index_of x xs i with
      | Some j => Some j
      | None => m !! x
      end.
Proof.
  induction 1 as [|y rest Hy _ IH]; intros i m x; cbn; [reflexivity|].
  rewrite IH. destruct (Z.eqb_spec y x) as [->|Hne].
  - rewrite (index_of_absent x rest (i + 1) Hy). apply lookup_insert_eq.
  - destruct (index_of x rest (i + 1)); [reflexivity|].
    apply lookup_insert_ne, Hne.
Qed.

(** All along the [turns] turns of the interpreter from [e], every DIM
    that is executed has a size that evaluates to a Number. *)
Fixpoint dims_numeric_in_run (turns : nat) (e : Evaluator) : bool :=
  if running e then
    match turns with
    | O => true
    | S turns' =>
        match lines e !! Z.to_nat (currentLine e) with
        | Some lineNum =>
            match Statements (evaluator.program e) !! lineNum with
            | Some stmt => dims_numeric stmt e
            | None => true
            end
        | None => true
        end
        && match step e with
           | (e', Returns _) => dims_numeric_in_run turns' e'
           | _ => true
           end
    end
  else true.

(** How the two runs end: with the same bytes printed, and both in
    success, both in an error, both in a panic, or both not within the
    turns.  The two errors are not compared: the interpreter puts "error at
    line N: " in front of its own, and some texts differ between the back
    ends. *)
Definition same_ending (r : Evaluator * Ending)
    (r' : compiler.State * compiler.Ending) : Prop :=
  compiler.stdout (fst r') = stdout (fst r)
  /\ match snd r, snd r' with
     | Finished None, compiler.Exit None => True
     | Finished (Some _), compiler.Exit (Some _) => True
     | Crashed, compiler.Crashed => True
     | Unfinished, compiler.Unfinished => True
     | _, _ => False
     end.

Variable program : Program.
Variable emitted : compiler.Emitted.
Hypothesis Hcompile : compiler.Compile program = Returns emitted.

Let program_lines : list Z :=
  sort_Ints (map fst (map_to_list (Statements program))).

Lemma emitted_tables :
  compiler.programLines (compiler.tables emitted) = program_lines
  /\ compiler.emitCases program program_lines = Returns (compiler.cases emitted).
Proof.
  unfold compiler.Compile in Hcompile. cbv zeta in Hcompile.
  change (merge_sort Z.le (map fst (map_to_list (Statements program))))
    with program_lines in Hcompile.
  destruct (compiler.emitCases program program_lines) as [cases| |];
    try discriminate Hcompile.
  cbn in Hcompile. injection Hcompile as <-. auto.
Qed.

Lemma emitted_lineIndex (x : Z) :
  compiler.lineIndex (compiler.tables emitted) !! x = index_of x program_lines 0.
Proof.
  unfold compiler.Compile in Hcompile. cbv zeta in Hcompile.
  change (merge_sort Z.le (map fst (map_to_list (Statements program))))
    with program_lines in Hcompile.
  destruct (compiler.emitCases program program_lines) as [cases| |];
    try discriminate Hcompile.
  cbn in Hcompile. injection Hcompile as <-. cbn.
  rewrite index_lines_index_of.
  - destruct (index_of x program_lines 0); [reflexivity|apply lookup_empty].
  - exact (lines_NoDup program "" []).
Qed.

(** What holds of the interpreter all along a run of [program]. *)
Definition in_run (e : Evaluator) : Prop :=
  evaluator.program e = program /\ lines e = program_lines
  /\ arrays_empty e /\ loops_bound e.

Lemma step_same (e : Evaluator) :
  in_run e ->
  (forall lineNum stmt,
      lines e !! Z.to_nat (currentLine e) = Some lineNum ->
      Statements program !! lineNum = Some stmt ->
      dims_numeric stmt e = true) ->
  match step e, compiler.step emitted (state_of e) with
  | (e', Returns _), (s', Returns _) => s' = state_of e' /\ in_run e'
  | (e', Fails _), (s', Fails _) => compiler.stdout s' = stdout e'
  | (e', Panics), (s', Panics) => compiler.stdout s' = stdout e'
  | _, _ => False
  end.
Proof.
  intros (Hprogram & Hlines & Hempty & Hbound) Hsizes.
  destruct emitted_tables as [Htable Hcases].
  unfold step, compiler.step. cbn [state_of compiler.pc].
  destruct (currentLine e <? 0); [reflexivity|].
  rewrite Hlines in Hsizes. rewrite Htable, Hlines.
  destruct (program_lines !! Z.to_nat (currentLine e)) as [lineNum|] eqn:Hline;
    [|reflexivity].
  destruct (select_emitCases program program_lines _ Hcases lineNum)
    as (stmt & code & Hstmt & Hcode & Hselect).
  { eapply list_elem_of_lookup_2. exact Hline. }
  rewrite Hprogram, Hstmt, Hselect.
  assert (Htables : same_tables (compiler.tables emitted) e).
  { split; [rewrite Htable, Hlines; reflexivity|].
    intros x. rewrite Hlines. apply emitted_lineIndex. }
  pose proof (emitStatement_same stmt code (compiler.tables emitted) e Hcode
                (Hsizes lineNum stmt eq_refl Hstmt) Hempty Hbound Htables) as H.
  destruct (evalStatement stmt e) as [e1 [[]|err|]] eqn:Hs,
    (code (compiler.tables emitted) (state_of e)) as [s1 [[]|err'|]];
    cbn in H |- *; try contradiction; try exact H.
  destruct H as (-> & Hempty1 & Hprogram1 & Hlines1).
  split; [reflexivity|].
  destruct (evalStatement_tables stmt e e1 (Returns tt) Hbound Hs) as [Hstep _].
  pose proof (tables_step_bound e e1 Hbound Hstep) as Hbound1.
  repeat split; cbn; congruence || assumption.
Qed.

Lemma running_same (e : Evaluator) :
  in_run e -> compiler.running emitted (state_of e) = running e.
Proof.
  intros (_ & Hlines & _). destruct emitted_tables as [Htable _].
  unfold compiler.running, running. cbn. rewrite Htable, Hlines. reflexivity.
Qed.

Lemma run_loop_same (turns : nat) :
  forall e, in_run e -> dims_numeric_in_run turns e = true ->
    same_ending (Run_loop turns e) (compiler.run_loop turns emitted (state_of e)).
Proof.
  induction turns as [|turns IH]; intros e Hrun Hsizes;
    cbn [Run_loop compiler.run_loop dims_numeric_in_run] in Hsizes |- *;
    rewrite (running_same e Hrun); destruct (running e);
    try (split; [reflexivity|exact I]).
  apply andb_true_iff in Hsizes. destruct Hsizes as [Hsize Hsizes].
  assert (Hturn : forall lineNum stmt,
             lines e !! Z.to_nat (currentLine e) = Some lineNum ->
             Statements program !! lineNum = Some stmt ->
             dims_numeric stmt e = true).
  { intros lineNum stmt Hline Hstmt. destruct Hrun as (Hprogram & _).
    rewrite Hline, Hprogram, Hstmt in Hsize. exact Hsize. }
  pose proof (step_same e Hrun Hturn) as H.
  destruct (step e) as [e1 [[]|err|]],
    (compiler.step emitted (state_of e)) as [s1 [[]|err'|]];
    try contradiction; try (split; [exact H|exact I]).
  destruct H as [-> Hrun1]. apply IH; assumption.
Qed.

End programs_side_by_side.

(** The two back ends agree on a program that [Compile] translates into a
    text that the Go compiler accepts, on every run of the interpreter in
    which each DIM that is executed has a size that evaluates to a Number:
    on the same input, with the same starts of the iterations over the loop
    table (the loop that NEXT without a variable picks when several are
    open), and for the same number of turns, the emitted program prints the
    same bytes and ends alike: both in success, both in an error, or
    neither within the turns.  The errors are not compared. *)
Theorem backends_agree (program : Program) (emitted : compiler.Emitted)
    (stdin : string) (starts : list nat) (turns : nat) :
  compiler.Compile program = Returns emitted ->
  compiler.builds emitted = true ->
  dims_numeric_in_run turns (evaluator.New program stdin starts) = true ->
  same_ending (evaluator.Run turns (evaluator.New program stdin starts))
              (compiler.run turns emitted stdin starts).
Proof.
  intros Hcompile Hbuilds Hsizes.
  set (e0 := evaluator.New program stdin starts) in *.
  assert (Hrun : evaluator.Run turns e0 = evaluator.Run_loop turns e0).
  { unfold evaluator.Run.
    destruct (evaluator.lines e0) eqn:Hlines; [|reflexivity].
    destruct turns; cbn; unfold evaluator.running; rewrite Hlines; reflexivity. }
  assert (Hstart : compiler.run turns emitted stdin starts
                   = compiler.run_loop turns emitted (state_of e0)).
  { unfold compiler.run. rewrite Hbuilds. unfold state_of, env_of. cbn.
    rewrite !fmap_empty. reflexivity. }
  rewrite Hrun, Hstart.
  apply (run_loop_same program emitted Hcompile); [|exact Hsizes].
  repeat split.
  - intros name arr H. unfold evaluator.GetArray in H. cbn in H.
    rewrite lookup_empty in H. discriminate H.
  - intros name [l H]. cbn in H. rewrite lookup_empty in H. discriminate H.
Qed.


Definition squares_source : string :=
  text_of ["10 INPUT " ++ quoted "N" ++ "; N";
           "20 DIM A(N)";
           "30 FOR I = 1 TO N";
           "40 GOSUB 100";
           "50 NEXT I";
           "60 IF N > 2 THEN PRINT " ++ quoted "BIG" ++ " ELSE PRINT " ++ quoted "SMALL";
           "70 END";
           "100 PRINT I * I; A(I)";
           "110 RETURN"].

(** The theorem at a program with an input, an array whose size is the
    number that was read, a loop and a subroutine: both back ends print the
    same four lines and end in success. *)
Lemma backends_agree_witness :
  exists program emitted,
    parser.parse 100 squares_source = Ok (program, [])
    /\ compiler.Compile program = Returns emitted
    /\ compiler.builds emitted = true
    /\ dims_numeric_in_run 1000 (evaluator.New program (text_of ["3"]) []) = true
    /\ same_ending (evaluator.Run 1000 (evaluator.New program (text_of ["3"]) []))
                   (compiler.run 1000 emitted (text_of ["3"]) [])
    /\ interpret squares_source (text_of ["3"]) []
       = Some (text_of ["N 10"; "40"; "90"; "BIG"], evaluator.Finished None).
Proof.
  destruct (parser.parse 100 squares_source) as [[program errs]| |] eqn:Hparse;
    try (vm_compute in Hparse; discriminate Hparse).
  assert (Herrs : errs = []) by (vm_compute in Hparse; congruence).
  subst errs. exists program.
  assert (Hbuilds : match parser.parse 100 squares_source with
                    | Ok (p, _) =>
                        match compiler.Compile p with
                        | Returns emitted => compiler.builds emitted
                        | _ => false
                        end
                    | _ => false
                    end = true) by (vm_compute; reflexivity).
  assert (Hsizes : match parser.parse 100 squares_source with
                   | Ok (p, _) =>
                       dims_numeric_in_run 1000 (evaluator.New p (text_of ["3"]) [])
                   | _ => false
                   end = true) by (vm_compute; reflexivity).
  rewrite Hparse in Hbuilds, Hsizes.
  destruct (compiler.Compile program) as [emitted| |] eqn:Hcompile;
    try discriminate Hbuilds.
  rename Hbuilds into Hemitted.
  exists emitted.
  split; [reflexivity|]. split; [reflexivity|]. split; [exact Hemitted|].
  split; [exact Hsizes|].
  split; [|vm_compute; reflexivity].
  exact (backends_agree program emitted (text_of ["3"]) [] 1000 Hcompile Hemitted
           Hsizes).
Defined.


(** ** Line numbers and indexes *)

Section line_indexes.
Import evaluator.

(** What the loops of GOTO and GOSUB find: the index of the first
    occurrence, counted from [k]. *)
Lemma index_of_found (x : Z) (xs : list Z) :
  forall k i, index_of x xs k = Some i ->
    k <= i /\ xs !! Z.to_nat (i - k) = Some x.
Proof.
  induction xs as [|y rest IH]; intros k i H; cbn in H; [discriminate|].
  destruct (Z.eqb_spec y x) as [->|Hne].
  - injection H as <-. split; [lia|]. rewrite Z.sub_diag. reflexivity.
  - destruct (IH (k + 1) i H) as [Hle Hat]. split; [lia|].
    replace (Z.to_nat (i - k)) with (S (Z.to_nat (i - (k + 1)))) by lia.
    exact Hat.
Qed.

Lemma index_of_missing (x : Z) (xs : list Z) :
  forall k, index_of x xs k = None <-> x ∉ xs.
Proof.
  induction xs as [|y rest IH]; intros k; cbn.
  - split; [intros _; apply not_elem_of_nil|reflexivity].
  - destruct (Z.eqb_spec y x) as [->|Hne].
    + split; [discriminate|]. intros H. exfalso. apply H. left.
    + rewrite IH, not_elem_of_cons. split; [auto|]. intros [_ H]. exact H.
Qed.

Lemma index_of_at (xs : list Z) :
  NoDup xs ->
  forall x k (i : nat), xs !! i = Some x -> index_of x xs k = Some (k + Z.of_nat i).
Proof.
  induction 1 as [|y rest Hy _ IH]; intros x k i Hat; [discriminate|].
  cbn. destruct i as [|i]; cbn in Hat.
  - injection Hat as ->. rewrite Z.eqb_refl. f_equal. lia.
  - destruct (Z.eqb_spec y x) as [->|Hne].
    + exfalso. apply Hy. eapply list_elem_of_lookup_2. exact Hat.
    + rewrite (IH x (k + 1) i Hat). f_equal. lia.
Qed.

End line_indexes.

(** The two tables of the emitted program are inverse to each other:
    [programLines] holds the keys of the program in ascending order, and
    [lineIndex] sends a line number to its index in [programLines], and
    nothing else to anything. *)
Theorem lineIndex_inverts_programLines (program : Program)
    (emitted : compiler.Emitted) :
  compiler.Compile program = Returns emitted ->
  let t := compiler.tables emitted in
  StronglySorted Z.le (compiler.programLines t)
  /\ (forall k, k ∈ compiler.programLines t <-> is_Some (Statements program !! k))
  /\ (forall x i, compiler.lineIndex t !! x = Some i <->
                  0 <= i /\ compiler.programLines t !! Z.to_nat i = Some x).
Proof.
  intros Hcompile t.
  destruct (emitted_tables program emitted Hcompile) as [Hlines _].
  pose proof (lines_sorted program "" []) as Hsorted.
  pose proof (lines_keys program "" []) as Hkeys.
  pose proof (lines_NoDup program "" []) as Hnodup.
  pose proof (emitted_lineIndex program emitted Hcompile) as Hindex.
  cbn [evaluator.lines evaluator.New] in Hsorted, Hkeys, Hnodup.
  subst t. rewrite Hlines.
  split; [exact Hsorted|]. split; [exact Hkeys|].
  intros x i. rewrite Hindex. split.
  - intros H. destruct (index_of_found x _ 0 i H) as [Hle Hat].
    rewrite Z.sub_0_r in Hat. auto.
  - intros [Hle Hat].
    rewrite (index_of_at _ Hnodup x 0 _ Hat). f_equal. lia.
Qed.


(** ** Turns of the interpreter *)

Section turns.
Import evaluator.

(** A line that is just GOTO: when the value of the target, cut to an
    integer, is a line of the program, the turn ends with the program counter
    at the index of that line and nothing else changed; when it is not, [Run]
    returns "line n not found" for the line of the GOTO. *)
Theorem goto_turn (e : Evaluator) (lineNum : Z) (target : Expression)
    (n : float64) :
  0 <= currentLine e ->
  lines e !! Z.to_nat (currentLine e) = Some lineNum ->
  Statements (program e) !! lineNum = Some (GotoStatement target) ->
  evalExpression target e = Returns (NumberValue n) ->
  (int_of_float n ∈ lines e ->
   exists i, step e = (set_currentLine i e, Returns tt)
             /\ 0 <= i /\ lines e !! Z.to_nat i = Some (int_of_float n))
  /\ (int_of_float n ∉ lines e ->
      step e = (e, Fails (AtLine lineNum (LineNotFound (int_of_float n))))
      /\ message (AtLine lineNum (LineNotFound (int_of_float n)))
         = "error at line " ++ format_d lineNum ++ ": line "
           ++ format_d (int_of_float n) ++ " not found").
Proof.
  intros Hpc Hline Hstmt Htarget. unfold step.
  destruct (currentLine e <? 0) eqn:Hneg; [lia|].
  rewrite Hline, Hstmt. cbn [evalStatement]. unfold evalGotoStatement.
  rewrite Htarget. split.
  - intros Hin.
    destruct (index_of (int_of_float n) (lines e) 0) as [i|] eqn:Hi.
    + destruct (index_of_found _ _ _ _ Hi) as [Hle Hat].
      rewrite Z.sub_0_r in Hat.
      exists i. cbn. split; [|split; [exact Hle|exact Hat]].
      unfold done, set_currentLine. cbn. do 2 f_equal. lia.
    + apply index_of_missing in Hi. contradiction.
  - intros Hout. apply (index_of_missing _ _ 0) in Hout. rewrite Hout.
    split; reflexivity.
Qed.

Definition goto_program : Program :=
  mkProgram (<[10 := GotoStatement (NumberLiteral 20.5%float)]>
               (<[20 := EndStatement]> ∅)).

(** [GOTO 20.5] on line 10 of a program with the lines 10 and 20 goes to
    line 20. *)
Lemma goto_turn_witness :
  exists i, step (New goto_program "" [])
            = (set_currentLine i (New goto_program "" []), Returns tt)
            /\ 0 <= i
            /\ lines (New goto_program "" []) !! Z.to_nat i = Some 20.
Proof.
  apply (proj1 (goto_turn (New goto_program "" []) 10
                  (NumberLiteral 20.5%float) 20.5%float
                  ltac:(cbn; lia) ltac:(vm_compute; reflexivity)
                  ltac:(vm_compute; reflexivity) eq_refl)).
  vm_compute. apply list_elem_of_In. cbn. auto.
Defined.

(** A line that is just END ends the run: the turn sets [halted], and the
    loop of [Run] returns [nil] without executing anything more.  END
    inside a sequence does not end the sequence: the statements after it on
    the same line are still executed. *)
Theorem end_turn (e : Evaluator) (lineNum : Z) (turns : nat) :
  running e = true ->
  0 <= currentLine e ->
  lines e !! Z.to_nat (currentLine e) = Some lineNum ->
  Statements (program e) !! lineNum = Some EndStatement ->
  Run_loop (S turns) e
  = (set_currentLine (currentLine e + 1) (set_halted true e), Finished None)
  /\ forall rest e0,
       evalStatement (SequenceStatement (EndStatement :: rest)) e0
       = evalStatement (SequenceStatement rest) (set_halted true e0).
Proof.
  intros Hrun Hpc Hline Hstmt. split; [|reflexivity].
  cbn [Run_loop]. rewrite Hrun. unfold step.
  destruct (currentLine e <? 0) eqn:Hneg; [lia|].
  rewrite Hline, Hstmt. cbn.
  destruct turns; cbn; unfold running; cbn; rewrite andb_false_r; reflexivity.
Qed.

Definition end_program : Program :=
  mkProgram (<[10 := EndStatement]>
               (<[20 := PrintStatement [StringLiteral "unreached"] [] true]> ∅)).

Lemma end_turn_witness :
  Run_loop 5 (New end_program "" [])
  = (set_currentLine 1 (set_halted true (New end_program "" [])), Finished None).
Proof.
  apply (proj1 (end_turn (New end_program "" []) 10 4
                  ltac:(vm_compute; reflexivity) ltac:(cbn; lia)
                  ltac:(vm_compute; reflexivity) ltac:(vm_compute; reflexivity))).
Defined.

(** NEXT without a variable: with no open loop it fails with "NEXT without
    FOR"; otherwise it acts as NEXT on one of the open loops, and on the open
    loop when there is exactly one.  (A loop on the empty name cannot be
    opened by a parsed program.) *)
Theorem next_without_variable (e : Evaluator) :
  let e1 := set_rangeStarts (tl (rangeStarts e)) e in
  (forLoops e = ∅ ->
   evalStatement (NextStatement None) e = (e1, Fails NextWithoutFor))
  /\ (forLoops e <> ∅ ->
      exists name, is_Some (forLoops e !! name)
        /\ evalStatement (NextStatement None) e
           = evalStatement (NextStatement (Some name)) e1)
  /\ (forall name ls, forLoops e = {[ name := ls ]} ->
        evalStatement (NextStatement None) e
        = evalStatement (NextStatement (Some name)) e1).
Proof.
  intros e1. cbn [evalStatement]. unfold evalNextStatement, first_key.
  fold e1. split; [|split].
  - intros ->. rewrite dom_empty_L, elements_empty. reflexivity.
  - intros Hne.
    set (keys := elements (dom (forLoops e))).
    assert (Hkeys : keys <> []).
    { unfold keys. intros H. apply elements_empty_inv in H.
      apply Hne. apply dom_empty_iff_L. apply leibniz_equiv. exact H. }
    destruct (keys !! (hd 0%nat (rangeStarts e) mod length keys)%nat)
      as [name|] eqn:Hname.
    + exists name. split; [|reflexivity].
      apply elem_of_dom. apply elem_of_elements.
      eapply list_elem_of_lookup_2. exact Hname.
    + exfalso. apply lookup_ge_None in Hname.
      destruct keys; [congruence|].
      pose proof (Nat.mod_upper_bound (hd 0%nat (rangeStarts e))
                    (length (s :: keys))) as Hlt.
      cbn [length] in Hlt, Hname. lia.
  - intros name ls ->. rewrite dom_singleton_L, elements_singleton.
    cbn [length]. rewrite Nat.mod_1_r. reflexivity.
Qed.

End turns.


(** ** Operators, PRINT and INPUT in the interpreter *)

Lemma append_assoc (a b c : string) : (a ++ b) ++ c = a ++ (b ++ c).
Proof.
  induction a as [|x a IH]; [reflexivity|].
  change (String x ((a ++ b) ++ c) = String x (a ++ (b ++ c))). rewrite IH. reflexivity.
Qed.

Lemma append_empty_r (a : string) : a ++ "" = a.
Proof.
  induction a as [|x a IH]; [reflexivity|].
  change (String x (a ++ "") = String x a). rewrite IH. reflexivity.
Qed.

Section operators.
Import evaluator.

Definition arithmetic_operators : list string := ["+"; "-"; "*"; "/"; "MOD"].
Definition logical_operators : list string :=
  ["<"; ">"; "<="; ">="; "=="; "<>"; "AND"; "OR"].

Definition truth_value (v : Value) : Prop :=
  v = NumberValue 1%float \/ v = NumberValue 0%float.

Ltac which_operator H op :=
  repeat match type of H with
         | context [String.eqb op ?x] =>
             destruct (String.eqb_spec op x) as [->|?]; cbv iota in H
         end.

Ltac which_test H :=
  repeat match type of H with
         | context [if ?c then _ else _] =>
             lazymatch c with
             | true => fail
             | false => fail
             | _ => destruct c; cbv iota in H
             end
         end.

Ltac listed := apply list_elem_of_In; simpl; tauto.

(** An infix operation returns a value only on two Numbers or on two
    Strings, and only for the operators spelled as in the two lists (in
    capitals); comparisons and AND, OR return 1 or 0.  A Number with a
    String, and any other spelling of an operator, is an error. *)
Theorem infix_operands (op : string) (a b v : Value) :
  infix op a b = Returns v ->
  match a, b with
  | NumberValue _, NumberValue _ =>
      (op ∈ arithmetic_operators /\ exists n, v = NumberValue n)
      \/ (op ∈ logical_operators /\ truth_value v)
  | StringValue s, StringValue t =>
      (op = "+" /\ v = StringValue (s ++ t))
      \/ ((op = "==" \/ op = "<>") /\ truth_value v)
  | _, _ => False
  end.
Proof.
  unfold infix, truth, truth_value, arithmetic_operators, logical_operators.
  destruct a as [x|s], b as [y|t]; intros H; cbv zeta in H;
    try discriminate H;
    which_operator H op; try discriminate H;
    which_test H; try discriminate H;
    injection H as <-;
    first [ left; split; [listed|eexists; reflexivity]
          | left; split; reflexivity
          | right; split; [listed|auto]
          | right; split; [auto|auto] ].
Qed.

Lemma infix_operands_witness :
  ("MOD" ∈ arithmetic_operators
   /\ exists n, NumberValue (Mod 7 3)%float = NumberValue n)
  \/ ("MOD" ∈ logical_operators /\ truth_value (NumberValue (Mod 7 3)%float)).
Proof.
  exact (infix_operands "MOD" (NumberValue 7%float) (NumberValue 3%float)
           (NumberValue (Mod 7 3)%float) eq_refl).
Defined.

End operators.

Section print_and_input.
Import evaluator.

(** An expression reads the variables and the arrays, nothing else. *)
Lemma evalExpression_reads_env (expr : Expression) (e1 e2 : Evaluator) :
  env e1 = env e2 -> evalExpression expr e1 = evalExpression expr e2.
Proof.
  intros Henv.
  induction expr as [v|v|name|l IHl op r IHr|op r IHr|name idx IHidx|]; cbn;
    rewrite ?Henv, ?IHl, ?IHr, ?IHidx; reflexivity.
Qed.

(** What PRINT writes for the values [vals], the first of them being the
    one of index [i]: each value as [Inspect] shows it, followed by its
    separator when the statement has one for it. *)
Fixpoint printed (i : nat) (vals : list Value) (seps : list string) : string :=
  match vals with
  | [] => ""
  | v :: rest => Inspect v ++ default "" (seps !! i) ++ printed (S i) rest seps
  end.

Lemma fmt_Print_twice (a b : string) (e : Evaluator) :
  fmt_Print b (fmt_Print a e) = fmt_Print (a ++ b) e.
Proof. unfold fmt_Print. cbn. rewrite append_assoc. reflexivity. Qed.

Lemma fmt_Print_nothing (e : Evaluator) : fmt_Print "" e = e.
Proof. unfold fmt_Print. rewrite append_empty_r. destruct e; reflexivity. Qed.

Lemma print_loop_values (e : Evaluator) (seps : list string)
    (exprs : list Expression) (vals : list Value) :
  Forall2 (fun expr v => evalExpression expr e = Returns v) exprs vals ->
  forall more i e',
    env e' = env e ->
    evalPrintStatement_loop i (exprs ++ more) seps e'
    = evalPrintStatement_loop (i + length exprs) more seps
        (fmt_Print (printed i vals seps) e').
Proof.
  induction 1 as [|expr v exprs vals Hv _ IH]; intros more i e' Henv.
  - cbn. rewrite Nat.add_0_r, fmt_Print_nothing. reflexivity.
  - cbn [app evalPrintStatement_loop printed length].
    rewrite (evalExpression_reads_env expr e' e Henv), Hv.
    replace (i + S (length exprs))%nat with (S i + length exprs)%nat by lia.
    destruct (seps !! i) as [sep|]; cbn [default].
    + rewrite IH by exact Henv. rewrite !fmt_Print_twice, ?append_assoc. reflexivity.
    + rewrite IH by exact Henv. rewrite !fmt_Print_twice. reflexivity.
Qed.

(** PRINT writes as it goes: when the expressions [exprs] evaluate and the
    next one fails, the values of [exprs] and their separators have been
    written, the error is returned and the line is not ended.  When all
    evaluate, the line feed follows if the statement has one.  PRINT with no
    expression writes a line feed. *)
Theorem print_writes_up_to_the_error (e : Evaluator) (seps : list string)
    (nl : bool) (exprs : list Expression) (vals : list Value) :
  Forall2 (fun expr v => evalExpression expr e = Returns v) exprs vals ->
  (forall bad rest err,
      evalExpression bad e = Fails err ->
      evalStatement (PrintStatement (exprs ++ bad :: rest) seps nl) e
      = (fmt_Print (printed 0 vals seps) e, Fails err))
  /\ (exprs <> [] ->
      evalStatement (PrintStatement exprs seps nl) e
      = (fmt_Print (printed 0 vals seps ++ if nl then String "010" "" else "") e,
         Returns tt))
  /\ evalStatement (PrintStatement [] seps nl) e = (fmt_Println e, Returns tt).
Proof.
  intros Hvals. split; [|split; [|reflexivity]].
  - intros bad rest err Hbad. cbn [evalStatement]. unfold evalPrintStatement.
    rewrite (print_loop_values e seps exprs vals Hvals (bad :: rest) 0%nat e eq_refl).
    cbn [evalPrintStatement_loop].
    rewrite (evalExpression_reads_env bad (fmt_Print (printed 0 vals seps) e) e eq_refl), Hbad.
    destruct (exprs ++ bad :: rest)%list eqn:Hnil; [|reflexivity].
    destruct exprs; discriminate Hnil.
  - intros Hne. cbn [evalStatement]. unfold evalPrintStatement.
    pose proof (print_loop_values e seps exprs vals Hvals [] 0%nat e eq_refl) as H.
    rewrite app_nil_r in H. rewrite H. cbn [evalPrintStatement_loop done].
    destruct exprs as [|expr exprs]; [contradiction|].
    destruct nl.
    + unfold fmt_Println. rewrite fmt_Print_twice. reflexivity.
    + rewrite append_empty_r. reflexivity.
Qed.

Lemma print_writes_up_to_the_error_witness :
  evalStatement
    (PrintStatement
       [StringLiteral "A";
        InfixExpression (NumberLiteral 1%float) "/" (NumberLiteral 0%float);
        StringLiteral "B"] [";"; ";"] true)
    (New (mkProgram ∅) "" [])
  = (fmt_Print "A;" (New (mkProgram ∅) "" []), Fails DivisionByZero).
Proof.
  apply (proj1 (print_writes_up_to_the_error (New (mkProgram ∅) "" []) [";"; ";"]
                  true [StringLiteral "A"] [StringValue "A"]
                  ltac:(repeat constructor))).
  reflexivity.
Defined.

(** The variables after the loop of INPUT: the one of index [j] holds the
    value of the field of index [i + j], or 0 when the line has no such
    field. *)
Lemma input_loop_binds (values : list string) (vars : list string) :
  NoDup vars ->
  forall i env,
    (forall (j : nat) var, vars !! j = Some var ->
        Get var (evalInputStatement_loop i vars values env)
        = Some (match values !! (i + j)%nat with
                | Some text => field_value text
                | None => NumberValue 0%float
                end))
    /\ (forall other, other ∉ vars ->
          Get other (evalInputStatement_loop i vars values env) = Get other env).
Proof.
  induction 1 as [|var rest Hvar _ IH]; intros i env.
  - split; [intros j var H; discriminate H|reflexivity].
  - cbn [evalInputStatement_loop].
    set (env1 := match values !! i with
                 | Some text => Set_ var (field_value text) env
                 | None => Set_ var (NumberValue 0%float) env
                 end).
    destruct (IH (S i) env1) as [Hbound Hother]. split.
    + intros [|j] var' Hj; cbn in Hj.
      * injection Hj as <-. rewrite (Hother var Hvar), Nat.add_0_r.
        unfold env1, Get. destruct (values !! i); cbn; apply lookup_insert_eq.
      * rewrite (Hbound j var' Hj).
        replace (i + S j)%nat with (S i + j)%nat by lia. reflexivity.
    + intros other Hnot. apply not_elem_of_cons in Hnot. destruct Hnot as [Hne Hnot].
      rewrite (Hother other Hnot). unfold env1, Get.
      destruct (values !! i); cbn; apply lookup_insert_ne; congruence.
Qed.

Lemma input_loop_reader (values : list string) (vars : list string) :
  forall i env, reader (evalInputStatement_loop i vars values env) = reader env.
Proof.
  induction vars as [|var vars IH]; intros i env; cbn; [reflexivity|].
  rewrite IH. destruct (values !! i); reflexivity.
Qed.

(** What INPUT writes before it reads. *)
Definition prompt_text (prompt : string) : string :=
  if String.eqb prompt "" then ""
  else if HasSuffix prompt " " then prompt else prompt ++ " ".

(** INPUT writes the prompt, with a space after it unless it ends in one,
    and reads one line.  At the end of the input it fails and sets no
    variable.  Otherwise the line, without the white space around it, is cut
    at the commas; each variable (when no variable is listed twice) gets its
    field, as a Number when [ParseFloat] accepts the field without the white
    space around it and as a String otherwise, and a variable without a
    field gets 0; fields without a variable are dropped, and no other
    variable changes. *)
Theorem input_binds_the_fields (prompt : string) (vars : list string)
    (e : Evaluator) :
  (ReadString (reader (env e)) "" = None ->
   exists e', evalStatement (InputStatement prompt vars) e = (e', Fails EndOfInput)
              /\ variables (env e') = variables (env e)
              /\ stdout e' = stdout e ++ prompt_text prompt)
  /\ (forall input rest,
        ReadString (reader (env e)) "" = Some (input, rest) ->
        NoDup vars ->
        exists e', evalStatement (InputStatement prompt vars) e = (e', Returns tt)
          /\ reader (env e') = rest
          /\ stdout e' = stdout e ++ prompt_text prompt
          /\ (forall (j : nat) var, vars !! j = Some var ->
                Get var (env e')
                = Some (match Split (TrimSpace input) !! j with
                        | Some text => field_value text
                        | None => NumberValue 0%float
                        end))
          /\ (forall other, other ∉ vars ->
                Get other (env e') = Get other (env e))).
Proof.
  cbn [evalStatement]. unfold evalInputStatement.
  set (e1 := if String.eqb prompt "" then e
             else if HasSuffix prompt " " then fmt_Print prompt e
                  else fmt_Print " " (fmt_Print prompt e)).
  assert (He1 : env e1 = env e /\ stdout e1 = stdout e ++ prompt_text prompt).
  { unfold e1, prompt_text.
    destruct (String.eqb prompt ""); [rewrite append_empty_r; auto|].
    destruct (HasSuffix prompt " "); cbn; [auto|].
    rewrite append_assoc. auto. }
  destruct He1 as [Henv Hout].
  cbv zeta. fold e1. clearbody e1. rewrite Henv. split.
  - intros ->. eexists. split; [reflexivity|]. cbn. rewrite Henv. auto.
  - intros input rest -> Hnodup. eexists. split; [reflexivity|]. cbn.
    rewrite ?Henv.
    split; [apply input_loop_reader|]. split; [exact Hout|].
    destruct (input_loop_binds (Split (TrimSpace input)) vars Hnodup 0%nat
                (mkEnv (variables (env e)) (arrays (env e)) rest)) as [Hbound Hother].
    split.
    + intros j var Hj. rewrite (Hbound j var Hj). reflexivity.
    + intros other Hnot. rewrite (Hother other Hnot). reflexivity.
Qed.

End print_and_input.

(** An empty line answered to [INPUT A, B]: the line has one field, the
    empty one, which is not a number, so [A] holds the empty String and [B]
    holds 0. *)
Lemma input_binds_the_fields_witness :
  exists e',
    evaluator.evalStatement (InputStatement "" ["A"; "B"])
      (evaluator.New (mkProgram ∅) (String "010" "") [])
    = (e', Returns tt)
    /\ evaluator.Get "A" (evaluator.env e') = Some (evaluator.StringValue "")
    /\ evaluator.Get "B" (evaluator.env e') = Some (evaluator.NumberValue 0%float).
Proof.
  destruct (proj2 (input_binds_the_fields "" ["A"; "B"]
                     (evaluator.New (mkProgram ∅) (String "010" "") []))
              (String "010" "") "" eq_refl
              ltac:(apply NoDup_cons; split;
                      [rewrite list_elem_of_singleton; discriminate
                      |apply NoDup_singleton]))
    as (e' & Hrun & _ & _ & Hbound & _).
  exists e'. split; [exact Hrun|].
  split; [exact (Hbound 0%nat "A" eq_refl)|exact (Hbound 1%nat "B" eq_refl)].
Defined.


(** ** What a run of the interpreter never does *)

(** A statement that is a nil pointer, alone or inside an IF or a
    sequence. *)
Fixpoint nil_statement (stmt : Statement) : bool :=
  match stmt with
  | NilStatement _ => true
  | IfStatement _ consequence alternative =>
      nil_statement consequence
      || match alternative with
         | Some alt => nil_statement alt
         | None => false
         end
  | SequenceStatement stmts => existsb nil_statement stmts
  | _ => false
  end.

Section safety.
Import evaluator.

Lemma infix_never_panics (op : string) (a b : Value) : infix op a b <> Panics.
Proof.
  unfold infix, truth. destruct a, b;
    repeat match goal with
           | |- context [if ?c then _ else _] => destruct c
           end; discriminate.
Qed.

Lemma prefix_never_panics (op : string) (a : Value) : prefix op a <> Panics.
Proof.
  unfold prefix, truth. destruct a;
    repeat match goal with
           | |- context [if ?c then _ else _] => destruct c
           end; discriminate.
Qed.

(** Evaluating an expression never panics: a nil expression is the error
    "unknown expression type". *)
Lemma evalExpression_never_panics (expr : Expression) (e : Evaluator) :
  evalExpression expr e <> Panics.
Proof.
  induction expr as [v|v|name|l IHl op r IHr|op r IHr|name idx IHidx|]; cbn;
    try discriminate.
  - destruct (Get name (env e)); discriminate.
  - destruct (evalExpression l e); try discriminate; [|contradiction].
    destruct (evalExpression r e); try discriminate; [|contradiction].
    apply infix_never_panics.
  - destruct (evalExpression r e); try discriminate; [|contradiction].
    apply prefix_never_panics.
  - destruct (GetArray name (env e)); [|discriminate].
    destruct (evalExpression idx e) as [[i|s]| |]; try discriminate; [|contradiction].
    destruct (Elements a !! int_of_float i); discriminate.
Qed.

(** The indexes the interpreter keeps: the program counter, the saved
    program counters and the indexes at which loops resume are at least -1
    (-1 is what a jump to the first line leaves until the loop of [Run]
    adds 1). *)
Definition in_bounds (e : Evaluator) : Prop :=
  -1 <= currentLine e
  /\ Forall (fun saved => -1 <= saved) (callStack e)
  /\ map_Forall (fun _ ls => -1 <= StartLine ls) (forLoops e).

(** What every statement leaves as it is. *)
Definition steady (e e' : Evaluator) : Prop :=
  program e' = program e /\ lines e' = lines e /\ (in_bounds e -> in_bounds e').

Lemma steady_refl (e e' : Evaluator) :
  program e' = program e -> lines e' = lines e ->
  currentLine e' = currentLine e -> callStack e' = callStack e ->
  forLoops e' = forLoops e -> steady e e'.
Proof.
  intros Hp Hl Hc Hs Hf. split; [exact Hp|]. split; [exact Hl|].
  unfold in_bounds. rewrite Hc, Hs, Hf. auto.
Qed.

Lemma steady_trans (e1 e2 e3 : Evaluator) :
  steady e1 e2 -> steady e2 e3 -> steady e1 e3.
Proof.
  intros (Hp & Hl & Hb) (Hp' & Hl' & Hb').
  split; [congruence|]. split; [congruence|auto].
Qed.

Ltac tests H :=
  repeat match type of H with
         | context [match evalExpression ?x ?e with _ => _ end] =>
             let Hx := fresh "Hx" in
             destruct (evalExpression x e) as [[?|?]|?|] eqn:Hx;
             [| | |exfalso; exact (evalExpression_never_panics x e Hx)]
         | context [match ?o with Some _ => _ | None => _ end] =>
             destruct o eqn:?
         | context [if ?b then _ else _] => destruct b eqn:?
         end;
  cbn in H; injection H as <- <-.

Ltac unchanged := split; [apply steady_refl; reflexivity|discriminate].

Lemma print_loop_steady (exprs : list Expression) (seps : list string) :
  forall i e e' r,
    evalPrintStatement_loop i exprs seps e = (e', r) ->
    steady e e' /\ r <> Panics.
Proof.
  induction exprs as [|expr rest IH]; intros i e e' r H; cbn in H.
  - injection H as <- <-. unchanged.
  - destruct (evalExpression expr e) as [val|err|] eqn:Hval.
    + apply IH in H. destruct H as [Hsteady Hr]. split; [|exact Hr].
      refine (steady_trans e _ e' _ Hsteady).
      destruct (seps !! i); apply steady_refl; reflexivity.
    + injection H as <- <-. unchanged.
    + exfalso. exact (evalExpression_never_panics expr e Hval).
Qed.

Lemma print_steady (exprs : list Expression) (seps : list string) (nl : bool)
    (e e' : Evaluator) r :
  evalPrintStatement exprs seps nl e = (e', r) -> steady e e' /\ r <> Panics.
Proof.
  unfold evalPrintStatement. intros H. destruct exprs as [|expr rest].
  - injection H as <- <-. unchanged.
  - destruct (evalPrintStatement_loop 0 (expr :: rest) seps e) as [e1 r1] eqn:Hloop.
    apply print_loop_steady in Hloop. destruct Hloop as [Hsteady Hr].
    destruct r1 as [[]|err|]; injection H as <- <-; (split; [|congruence]);
      try exact Hsteady.
    refine (steady_trans e e1 _ Hsteady _).
    destruct nl; apply steady_refl; reflexivity.
Qed.

Lemma input_steady (prompt : string) (vars : list string) (e e' : Evaluator) r :
  evalInputStatement prompt vars e = (e', r) -> steady e e' /\ r <> Panics.
Proof.
  unfold evalInputStatement. intros H.
  set (e1 := if String.eqb prompt "" then e else _) in H.
  assert (H1 : steady e e1).
  { subst e1. destruct (String.eqb prompt ""); [apply steady_refl; reflexivity|].
    destruct (HasSuffix prompt " "); apply steady_refl; reflexivity. }
  destruct (ReadString (reader (env e1)) "") as [[input rest]|];
    injection H as <- <-; (split; [|discriminate]);
    (refine (steady_trans e e1 _ H1 _); apply steady_refl; reflexivity).
Qed.

Lemma goto_steady (target : Expression) (e e' : Evaluator) r :
  evalGotoStatement target e = (e', r) -> steady e e' /\ r <> Panics.
Proof.
  unfold evalGotoStatement. intros H. tests H; try unchanged.
  split; [|discriminate]. split; [reflexivity|]. split; [reflexivity|].
  intros (Hc & Hs & Hf). split; [|split; assumption]. cbn.
  match goal with
  | Hi : index_of _ _ _ = Some _ |- _ =>
      destruct (index_of_found _ _ _ _ Hi) as [Hle _]
  end. lia.
Qed.

Lemma gosub_steady (target : Expression) (e e' : Evaluator) r :
  evalGosubStatement target e = (e', r) -> steady e e' /\ r <> Panics.
Proof.
  unfold evalGosubStatement. intros H. cbv zeta in H. cbn [lines set_callStack] in H.
  tests H; try unchanged; (split; [|discriminate]);
    (split; [reflexivity|]; split; [reflexivity|]);
    intros (Hc & Hs & Hf); (split; [|split; [|exact Hf]]); cbn;
    try (apply Forall_app; split; [exact Hs|constructor; [exact Hc|constructor]]);
    try exact Hc.
  match goal with
  | Hi : index_of _ _ _ = Some _ |- _ =>
      destruct (index_of_found _ _ _ _ Hi) as [Hle _]
  end. lia.
Qed.

Lemma return_steady (e e' : Evaluator) r :
  evalReturnStatement e = (e', r) -> steady e e' /\ r <> Panics.
Proof.
  unfold evalReturnStatement. intros H.
  destruct (last (callStack e)) as [top|] eqn:Hlast; injection H as <- <-;
    [|unchanged].
  split; [|discriminate]. split; [reflexivity|]. split; [reflexivity|].
  intros (Hc & Hs & Hf). split; [|split; [|exact Hf]]; cbn.
  - rewrite Forall_forall in Hs. apply Hs. apply last_Some_elem_of. exact Hlast.
  - destruct (callStack e) as [|x rest] using rev_ind; [discriminate Hlast|].
    rewrite removelast_last. apply Forall_app in Hs. apply Hs.
Qed.

Lemma for_steady (variable : string) (start end_ step : Expression)
    (e e' : Evaluator) r :
  evalForStatement variable start end_ step e = (e', r) ->
  steady e e' /\ r <> Panics.
Proof.
  unfold evalForStatement. intros H. tests H; try unchanged.
  split; [|discriminate]. split; [reflexivity|]. split; [reflexivity|].
  intros (Hc & Hs & Hf). split; [exact Hc|]. split; [exact Hs|]. cbn.
  apply map_Forall_insert_2; [exact Hc|exact Hf].
Qed.

Lemma next_steady (variable : option string) (e e' : Evaluator) r :
  evalNextStatement variable e = (e', r) -> steady e e' /\ r <> Panics.
Proof.
  unfold evalNextStatement.
  set (picked := match variable with Some name => (name, e) | None => first_key e end).
  assert (Hpicked : steady e (snd picked) /\ forLoops (snd picked) = forLoops e).
  { subst picked. destruct variable; cbn; split; try reflexivity;
      apply steady_refl; reflexivity. }
  destruct picked as [varName e1]. cbn in Hpicked. destruct Hpicked as [H1 Hloops].
  intros H.
  assert (Hrest : forall e2 r2, (e2, r2) = (e', r) -> steady e1 e2 ->
                    steady e e' /\ r2 = r).
  { intros e2 r2 [= <- <-] H2. split; [exact (steady_trans e e1 e2 H1 H2)|reflexivity]. }
  destruct (String.eqb varName "").
  { destruct (Hrest _ _ H) as [? <-]; [apply steady_refl; reflexivity|].
    split; [assumption|discriminate]. }
  destruct (forLoops e1 !! varName) as [loopState|] eqn:Hloop.
  2: { destruct (Hrest _ _ H) as [? <-]; [apply steady_refl; reflexivity|].
       split; [assumption|discriminate]. }
  destruct (Get varName (env e1)) as [[numVal|s]|] eqn:Hvar.
  - destruct (if (0 <? Step loopState)%float then _ else _).
    + destruct (Hrest _ _ H) as [? <-]; [|split; [assumption|discriminate]].
      split; [reflexivity|]. split; [reflexivity|].
      intros (Hc & Hs & Hf). split; [|split; assumption]. cbn.
      exact (Hf varName loopState Hloop).
    + destruct (Hrest _ _ H) as [? <-]; [|split; [assumption|discriminate]].
      split; [reflexivity|]. split; [reflexivity|].
      intros (Hc & Hs & Hf). split; [exact Hc|]. split; [exact Hs|]. cbn.
      apply map_Forall_delete. exact Hf.
  - destruct (Hrest _ _ H) as [? <-]; [apply steady_refl; reflexivity|].
    split; [assumption|discriminate].
  - destruct (Hrest _ _ H) as [? <-]; [apply steady_refl; reflexivity|].
    split; [assumption|discriminate].
Qed.

(** No statement changes the program or its list of lines, every statement
    keeps the indexes in bounds, and only a nil statement panics. *)
Lemma evalStatement_steady (stmt : Statement) :
  forall e e' r,
    evalStatement stmt e = (e', r) ->
    steady e e' /\ (nil_statement stmt = false -> r <> Panics).
Proof.
  induction stmt as [c s alt IHs IHalt|stmts IHstmts|s Hnot_if Hnot_seq]
    using Statement_nested_ind; intros e e' r H.
  - cbn in H. unfold evalIfStatement in H. cbn [nil_statement].
    destruct (evalExpression c e) as [cond|err|] eqn:Hc.
    + destruct (isTruthy cond).
      * destruct (IHs e e' r H) as [Hsteady Hr]. split; [exact Hsteady|].
        intros Hnil. apply orb_false_iff in Hnil. apply Hr, Hnil.
      * destruct alt as [a|].
        -- destruct (IHalt a eq_refl e e' r H) as [Hsteady Hr]. split; [exact Hsteady|].
           intros Hnil. apply orb_false_iff in Hnil. apply Hr, Hnil.
        -- injection H as <- <-. split; [apply steady_refl; reflexivity|discriminate].
    + injection H as <- <-. split; [apply steady_refl; reflexivity|discriminate].
    + exfalso. exact (evalExpression_never_panics c e Hc).
  - cbn in H. cbn [nil_statement]. revert e H.
    induction IHstmts as [|s rest IHs _ IHrest]; intros e H; cbn in H.
    + injection H as <- <-. split; [apply steady_refl; reflexivity|discriminate].
    + destruct (evalStatement s e) as [e1 r1] eqn:Hs.
      destruct (IHs e e1 r1 Hs) as [Hsteady Hr1]. cbn [existsb].
      destruct r1 as [[]|err|].
      * destruct (IHrest e1 H) as [Hsteady' Hr].
        split; [exact (steady_trans e e1 e' Hsteady Hsteady')|].
        intros Hnil. apply orb_false_iff in Hnil. apply Hr, Hnil.
      * injection H as <- <-. split; [exact Hsteady|discriminate].
      * injection H as <- <-. split; [exact Hsteady|].
        intros Hnil. apply orb_false_iff in Hnil. apply Hr1, Hnil.
  - destruct s; cbn in H;
      try (exfalso; eapply Hnot_if; reflexivity);
      try (exfalso; eapply Hnot_seq; reflexivity).
    + destruct (print_steady _ _ _ _ _ _ H); auto.
    + unfold evalLetStatement in H. tests H; (split; [apply steady_refl; reflexivity|discriminate]).
    + destruct (goto_steady _ _ _ _ H); auto.
    + destruct (gosub_steady _ _ _ _ H); auto.
    + destruct (return_steady _ _ _ H); auto.
    + destruct (for_steady _ _ _ _ _ _ _ H); auto.
    + destruct (next_steady _ _ _ _ H); auto.
    + destruct (input_steady _ _ _ _ _ H); auto.
    + injection H as <- <-. (split; [apply steady_refl; reflexivity|discriminate]).
    + injection H as <- <-. (split; [apply steady_refl; reflexivity|discriminate]).
    + unfold evalDimStatement in H. tests H; (split; [apply steady_refl; reflexivity|discriminate]).
    + tests H; (split; [apply steady_refl; reflexivity|discriminate]).
    + injection H as <- <-. split; [apply steady_refl; reflexivity|discriminate].
Qed.

(** What holds at the start of every turn of a run of [program]. *)
Definition at_a_turn (program0 : Program) (e : Evaluator) : Prop :=
  program e = program0
  /\ lines e = sort_Ints (map fst (map_to_list (Statements program0)))
  /\ in_bounds e /\ 0 <= currentLine e.

Lemma step_at_a_turn (program0 : Program) (e e' : Evaluator) :
  at_a_turn program0 e -> running e = true ->
  step e = (e', Returns tt) -> at_a_turn program0 e'.
Proof.
  intros (Hp & Hl & Hb & Hc) Hrun. unfold step.
  destruct (currentLine e <? 0); [discriminate|].
  destruct (lines e !! Z.to_nat (currentLine e)) as [lineNum|]; [|discriminate].
  destruct (Statements (program e) !! lineNum) as [stmt|]; [|discriminate].
  destruct (evalStatement stmt e) as [e1 [[]|err|]] eqn:Hs; try discriminate.
  intros [= <-].
  destruct (evalStatement_steady stmt e e1 _ Hs) as [(Hp1 & Hl1 & Hb1) _].
  destruct (Hb1 Hb) as (Hc1 & Hs1 & Hf1).
  split; [cbn; congruence|]. split; [cbn; congruence|].
  split; [split; [cbn; lia|split; assumption]|cbn; lia].
Qed.

Lemma New_at_a_turn (program0 : Program) (stdin : string) (starts : list nat) :
  at_a_turn program0 (New program0 stdin starts).
Proof.
  split; [reflexivity|]. split; [reflexivity|]. split; [|cbn; lia].
  split; [cbn; lia|]. split; [constructor|]. cbn. apply map_Forall_empty.
Qed.

Lemma Run_is_Run_loop (turns : nat) (program0 : Program) (stdin : string)
    (starts : list nat) :
  Run turns (New program0 stdin starts) = Run_loop turns (New program0 stdin starts).
Proof.
  unfold Run.
  destruct (lines (New program0 stdin starts)) eqn:Hlines; [|reflexivity].
  destruct turns; cbn; unfold running; rewrite Hlines; reflexivity.
Qed.

Lemma Run_loop_never_panics (program0 : Program) (turns : nat) :
  (forall k stmt, Statements program0 !! k = Some stmt -> nil_statement stmt = false) ->
  forall e, at_a_turn program0 e -> snd (Run_loop turns e) <> Crashed.
Proof.
  intros Hnil. induction turns as [|turns IH]; intros e Hturn; cbn [Run_loop];
    destruct (running e) eqn:Hrun; try discriminate.
  destruct (step e) as [e1 [[]|err|]] eqn:Hstep; try discriminate.
  - apply IH. exact (step_at_a_turn program0 e e1 Hturn Hrun Hstep).
  - exfalso. destruct Hturn as (Hp & Hl & Hb & Hc). unfold step in Hstep.
    destruct (Z.ltb_spec (currentLine e) 0); [lia|].
    unfold running in Hrun. apply andb_true_iff in Hrun. destruct Hrun as [Hlt _].
    apply Z.ltb_lt in Hlt.
    destruct (lines e !! Z.to_nat (currentLine e)) as [lineNum|] eqn:Hline.
    + rewrite Hp in Hstep.
      destruct (Statements program0 !! lineNum) as [stmt|] eqn:Hstmt;
        [|discriminate Hstep].
      destruct (evalStatement stmt e) as [e2 [[]|err|]] eqn:Hs; try discriminate Hstep.
      destruct (evalStatement_steady stmt e e2 _ Hs) as [_ Hr].
      exact (Hr (Hnil lineNum stmt Hstmt) eq_refl).
    + apply lookup_ge_None in Hline. lia.
Qed.

Lemma Run_loop_error (program0 : Program) (turns : nat) :
  forall e e' err,
    at_a_turn program0 e ->
    Run_loop turns e = (e', Finished (Some err)) ->
    exists lineNum stmt inner e1,
      err = AtLine lineNum inner
      /\ Statements program0 !! lineNum = Some stmt
      /\ evalStatement stmt e1 = (e', Fails inner).
Proof.
  induction turns as [|turns IH]; intros e e' err Hturn; cbn [Run_loop];
    destruct (running e) eqn:Hrun; try discriminate.
  destruct (step e) as [e1 [[]|err1|]] eqn:Hstep; try discriminate.
  - apply IH. exact (step_at_a_turn program0 e e1 Hturn Hrun Hstep).
  - intros [= <- <-]. destruct Hturn as (Hp & Hl & Hb & Hc). unfold step in Hstep.
    destruct (currentLine e <? 0); [discriminate|].
    destruct (lines e !! Z.to_nat (currentLine e)) as [lineNum|] eqn:Hline;
      [|discriminate].
    rewrite Hp in Hstep.
    destruct (Statements program0 !! lineNum) as [stmt|] eqn:Hstmt.
    + destruct (evalStatement stmt e) as [e2 [[]|inner|]] eqn:Hs; try discriminate.
      injection Hstep as <- <-. exists lineNum, stmt, inner, e. auto.
    + exfalso. apply list_elem_of_lookup_2 in Hline. rewrite Hl in Hline.
      apply (lines_keys program0 "" []) in Hline. rewrite Hstmt in Hline.
      destruct Hline; discriminate.
Qed.

End safety.

(** The interpreter does not panic on a program without nil statements,
    whatever the input: no index is out of range and no nil pointer is
    followed.  It ends with [nil] or with an error, or goes on. *)
Theorem run_never_panics (program : Program) (stdin : string)
    (starts : list nat) (turns : nat) :
  (forall k stmt, Statements program !! k = Some stmt -> nil_statement stmt = false) ->
  snd (evaluator.Run turns (evaluator.New program stdin starts))
  <> evaluator.Crashed.
Proof.
  intros Hnil. rewrite Run_is_Run_loop.
  apply (Run_loop_never_panics program turns Hnil), New_at_a_turn.
Qed.

(** An error that [Run] returns is the error of the statement of a line of
    the program, with the number of that line in front of it. *)
Theorem run_errors_name_the_line (program : Program) (stdin : string)
    (starts : list nat) (turns : nat) (e' : evaluator.Evaluator)
    (err : evaluator.Error) :
  evaluator.Run turns (evaluator.New program stdin starts)
  = (e', evaluator.Finished (Some err)) ->
  exists lineNum stmt inner e,
    Statements program !! lineNum = Some stmt
    /\ evaluator.evalStatement stmt e = (e', Fails inner)
    /\ err = evaluator.AtLine lineNum inner
    /\ evaluator.message err
       = "error at line " ++ format_d lineNum ++ ": " ++ evaluator.message inner.
Proof.
  rewrite Run_is_Run_loop. intros H.
  destruct (Run_loop_error program turns _ e' err (New_at_a_turn program stdin starts) H)
    as (lineNum & stmt & inner & e & -> & Hstmt & Hs).
  exists lineNum, stmt, inner, e. auto.
Qed.


(** A program whose second line jumps to a line that does not exist. *)
Definition lost_program : Program :=
  mkProgram (<[10 := PrintStatement [StringLiteral "A"] [] true]>
               (<[20 := GotoStatement (NumberLiteral 99%float)]> ∅)).

Lemma run_never_panics_witness :
  snd (evaluator.Run 50 (evaluator.New lost_program "" [])) <> evaluator.Crashed.
Proof.
  apply run_never_panics.
  assert (Hnil : bool_decide (map_Forall (fun _ stmt => nil_statement stmt = false)
                                         (Statements lost_program)) = true)
    by (vm_compute; reflexivity).
  apply bool_decide_eq_true_1 in Hnil. exact Hnil.
Defined.

Lemma run_errors_name_the_line_witness :
  exists lineNum stmt inner e,
    Statements lost_program !! lineNum = Some stmt
    /\ evaluator.evalStatement stmt e
       = (fst (evaluator.Run 50 (evaluator.New lost_program "" [])), Fails inner)
    /\ evaluator.AtLine 20 (evaluator.LineNotFound 99) = evaluator.AtLine lineNum inner
    /\ evaluator.message (evaluator.AtLine 20 (evaluator.LineNotFound 99))
       = "error at line " ++ format_d lineNum ++ ": " ++ evaluator.message inner.
Proof.
  apply (run_errors_name_the_line lost_program "" [] 50).
  vm_compute. reflexivity.
Defined.

(** The lines emitted for an expression compute the value that
    [evalExpression] returns, or fail when it fails, from the same variables
    and arrays; neither side panics. *)
Theorem expressions_agree (expr : Expression) (code : compiler.ExprCode)
    (e : evaluator.Evaluator) :
  compiler.emitExpression expr = Returns code ->
  arrays_empty e ->
  same_value (evaluator.evalExpression expr e) (code (state_of e))
  /\ evaluator.evalExpression expr e <> Panics
  /\ code (state_of e) <> Panics.
Proof.
  intros Hemit Hempty.
  pose proof (emitExpression_same expr code e Hemit Hempty) as H.
  split; [exact H|].
  destruct (evaluator.evalExpression expr e), (code (state_of e));
    cbn in H; try contradiction; split; discriminate.
Qed.

Definition sum_expression : Expression :=
  InfixExpression (Identifier "X") "+"
    (InfixExpression (NumberLiteral 2%float) "*" (NumberLiteral 3%float)).

Lemma expressions_agree_witness :
  exists code,
    compiler.emitExpression sum_expression = Returns code
    /\ code (state_of (evaluator.New (mkProgram ∅) "" []))
       = Returns (compiler.numVal 6%float)
    /\ same_value
         (evaluator.evalExpression sum_expression (evaluator.New (mkProgram ∅) "" []))
         (code (state_of (evaluator.New (mkProgram ∅) "" []))).
Proof.
  eexists. split; [reflexivity|]. split; [vm_compute; reflexivity|].
  apply (expressions_agree sum_expression _ (evaluator.New (mkProgram ∅) "" [])
           eq_refl).
  intros name arr H. unfold evaluator.GetArray in H. cbn in H.
  rewrite lookup_empty in H. discriminate H.
Defined.

Lemma lineIndex_inverts_programLines_witness :
  exists emitted,
    compiler.Compile lost_program = Returns emitted
    /\ compiler.programLines (compiler.tables emitted) = [10; 20]
    /\ (compiler.lineIndex (compiler.tables emitted) !! 20 = Some 1 <->
        0 <= 1 /\ compiler.programLines (compiler.tables emitted) !! Z.to_nat 1
                  = Some 20).
Proof.
  assert (Hlines : match compiler.Compile lost_program with
                   | Returns emitted =>
                       bool_decide (compiler.programLines (compiler.tables emitted)
                                    = [10; 20])
                   | _ => false
                   end = true) by (vm_compute; reflexivity).
  destruct (compiler.Compile lost_program) as [emitted| |] eqn:Hcompile;
    try discriminate Hlines.
  apply bool_decide_eq_true_1 in Hlines.
  exists emitted. split; [reflexivity|]. split; [exact Hlines|].
  exact (proj2 (proj2 (lineIndex_inverts_programLines lost_program emitted Hcompile))
           20 1).
Defined.


(** ** The lexer reaches the end of its input *)

(** White space in front of a word, a word, a number and a string that is
    not closed: each loop stops on the byte after what it reads. *)
Lemma scanning_loops_stop_witness :
  lexer.ch (lexer.skipWhitespace (lexer.New "  AB1+2")) = "A"%char
  /\ lexer.ch (snd (lexer.readIdentifier (lexer.New "AB1+2"))) = "+"%char
  /\ lexer.ch (snd (lexer.readNumber (lexer.New "1.5.2 "))) = " "%char
  /\ lexer.ch (snd (lexer.readString (lexer.New (String "034" "AB")))) = Ascii.zero
  /\ lexer.isSpace (lexer.ch (lexer.skipWhitespace (lexer.New "  AB1+2"))) = false.
Proof.
  repeat (split; [reflexivity|]).
  exact (proj1 (scanning_loops_stop (lexer.New "  AB1+2")
                  ltac:(split; reflexivity))).
Defined.

Section lexer_progress.
Import token lexer bytes.

(** A scanning loop keeps the input and does not go back. *)
Definition moved_on (l l' : Lexer) : Prop :=
  well_formed l' /\ input l' = input l /\ (position l <= position l')%nat.

Lemma moved_on_refl (l : Lexer) : well_formed l -> moved_on l l.
Proof. intros H. split; [exact H|]. split; [reflexivity|lia]. Qed.

Lemma moved_on_readChar (l l' : Lexer) :
  well_formed l -> moved_on (readChar l) l' ->
  moved_on l l' /\ (position l < position l')%nat.
Proof.
  intros [Hrp _] (Hwf & Hin & Hle). cbn in Hin, Hle. rewrite Hrp in Hle.
  split; [split; [exact Hwf|split; [exact Hin|lia]]|lia].
Qed.

Lemma skipWhitespace_moved_on (n : nat) (l : Lexer) :
  well_formed l -> moved_on l (skipWhitespace_loop n l).
Proof.
  revert l. induction n as [|n IH]; intros l Hwf; cbn; [apply moved_on_refl, Hwf|].
  destruct (isSpace (ch l)); [|apply moved_on_refl, Hwf].
  apply (moved_on_readChar l _ Hwf), IH, readChar_well_formed.
Qed.

Lemma readIdentifier_moved_on (n : nat) (l : Lexer) :
  well_formed l -> moved_on l (readIdentifier_loop n l).
Proof.
  revert l. induction n as [|n IH]; intros l Hwf; cbn; [apply moved_on_refl, Hwf|].
  destruct (isLetter (ch l) || isDigit (ch l))%bool; [|apply moved_on_refl, Hwf].
  apply (moved_on_readChar l _ Hwf), IH, readChar_well_formed.
Qed.

Lemma readNumber_moved_on (n : nat) (l : Lexer) :
  well_formed l -> moved_on l (readNumber_loop n l).
Proof.
  revert l. induction n as [|n IH]; intros l Hwf; cbn; [apply moved_on_refl, Hwf|].
  destruct (isDigit (ch l) || Ascii.eqb (ch l) ".")%bool; [|apply moved_on_refl, Hwf].
  apply (moved_on_readChar l _ Hwf), IH, readChar_well_formed.
Qed.

Lemma bump_line_well_formed (l : Lexer) : well_formed l -> well_formed (bump_line l).
Proof. intros H. exact H. Qed.

Lemma readString_moved_on (n : nat) (l : Lexer) :
  well_formed l -> moved_on l (readString_loop n l).
Proof.
  revert l. induction n as [|n IH]; intros l Hwf; cbn; [apply moved_on_refl, Hwf|].
  destruct (negb (Ascii.eqb (ch l) "034") && negb (Ascii.eqb (ch l) Ascii.zero))%bool;
    [|apply moved_on_refl, Hwf].
  destruct (Ascii.eqb (ch l) "010").
  - apply (moved_on_readChar (bump_line l) _ (bump_line_well_formed l Hwf)), IH,
      readChar_well_formed.
  - apply (moved_on_readChar l _ Hwf), IH, readChar_well_formed.
Qed.

Lemma LookupIdent_not_EOF (ident : string) : LookupIdent ident <> EOF.
Proof.
  unfold LookupIdent, keywords, lookup.
  repeat match goal with
         | |- context [if ?c then _ else _] => destruct c; try discriminate
         end.
Qed.

(** A byte that is not the zero byte is a byte of the input. *)
Lemma not_zero_inside (l : Lexer) :
  well_formed l -> ch l <> Ascii.zero ->
  (position l < String.length (input l))%nat.
Proof.
  intros [_ Hch] Hne. rewrite Hch in Hne.
  destruct (Nat.leb_spec (String.length (input l)) (position l)); [congruence|lia].
Qed.

Ltac this_byte :=
  match goal with
  | H : ch _ = _ |- ch _ <> _ => rewrite H; discriminate
  end.

(** [NextToken] returns EOF exactly at a zero byte, the one [readChar]
    supplies past the end of the input or one that the input holds; any
    other token uses up at least one byte of the input. *)
Lemma NextToken_moves_on (l : Lexer) :
  well_formed l ->
  let l1 := skipWhitespace l in
  moved_on l (snd (NextToken l))
  /\ (Type_ (fst (NextToken l)) = EOF <-> ch l1 = Ascii.zero)
  /\ (Type_ (fst (NextToken l)) <> EOF ->
      (position l < position (snd (NextToken l)))%nat
      /\ (position l < String.length (input l))%nat).
Proof.
  intros Hwf l1.
  destruct (skipWhitespace_moved_on (loop_bound l) l Hwf) as (Hwf1 & Hin1 & Hle1).
  fold (skipWhitespace l) in Hwf1, Hin1, Hle1. fold l1 in Hwf1, Hin1, Hle1.
  assert (Hafter : forall l', moved_on (readChar l1) l' ->
                     moved_on l l' /\ (position l < position l')%nat).
  { intros l' H. destruct (moved_on_readChar l1 l' Hwf1 H) as [(Hw & Hi & Hl) Hlt].
    split; [split; [exact Hw|split; [congruence|lia]]|lia]. }
  assert (Hone : forall l', moved_on (readChar l1) l' -> ch l1 <> Ascii.zero ->
                   forall t, t <> EOF ->
                   moved_on l l'
                   /\ (t = EOF <-> ch l1 = Ascii.zero)
                   /\ (t <> EOF ->
                       (position l < position l')%nat
                       /\ (position l < String.length (input l))%nat)).
  { intros l' H Hne t Ht. destruct (Hafter l' H) as [Hm Hlt].
    split; [exact Hm|]. split; [split; [contradiction|contradiction]|].
    intros _. split; [exact Hlt|].
    pose proof (not_zero_inside l1 Hwf1 Hne). rewrite Hin1 in *. lia. }
  pose proof (moved_on_refl (readChar l1) (readChar_well_formed l1)) as Hrc.
  assert (Hrc2 : moved_on (readChar l1) (readChar (readChar l1))).
  { split; [apply readChar_well_formed|]. split; [reflexivity|]. cbn. lia. }
  unfold NextToken. fold l1.
  repeat match goal with
         | |- context [if Ascii.eqb (ch l1) ?b then _ else _] =>
             destruct (Ascii.eqb_spec (ch l1) b) as [?Hc|?Hc]
         | |- context [if Ascii.eqb (peekChar l1) ?b then _ else _] =>
             destruct (Ascii.eqb (peekChar l1) b)
         end;
    try (unfold twoChar, oneChar; cbn [fst snd Type_ newToken];
         first [ apply (Hone _ Hrc); [this_byte|discriminate]
               | apply (Hone _ Hrc2); [this_byte|discriminate] ]).
  - (* a string *)
    destruct (readString l1) as [lit l'] eqn:Hrs. cbn [fst snd Type_].
    assert (Hl' : l' = readString_loop (loop_bound (readChar l1)) (readChar l1)).
    { unfold readString in Hrs. injection Hrs as _ <-. reflexivity. }
    refine (Hone (readChar l') _ _ STRING _); [|this_byte|discriminate].
    destruct (readString_moved_on (loop_bound (readChar l1)) (readChar l1)
                (readChar_well_formed l1)) as (Hw & Hi & Hl).
    rewrite <- Hl' in Hw, Hi, Hl.
    split; [apply readChar_well_formed|]. split; [exact Hi|].
    destruct Hw as [Hrp _]. cbn [readChar position] in Hl |- *. lia.
  - (* the zero byte *)
    cbn [fst snd Type_].
    destruct (Hafter _ Hrc) as [Hm _].
    split; [exact Hm|]. split; [split; [intros _; assumption|reflexivity]|].
    intros H. contradiction.
  - destruct (isLetter (ch l1)) eqn:Hletter.
    { unfold readIdentifier. cbn [fst snd Type_].
      assert (Hstep : readIdentifier_loop (loop_bound l1) l1
                      = readIdentifier_loop (S (String.length (input l1))) (readChar l1)).
      { unfold loop_bound. cbn [readIdentifier_loop]. rewrite Hletter. reflexivity. }
      rewrite Hstep.
      apply Hone; [apply readIdentifier_moved_on, readChar_well_formed|assumption|].
      apply LookupIdent_not_EOF. }
    destruct (isDigit (ch l1)) eqn:Hdigit.
    { unfold readNumber. cbn [fst snd Type_].
      assert (Hstep : readNumber_loop (loop_bound l1) l1
                      = readNumber_loop (S (String.length (input l1))) (readChar l1)).
      { unfold loop_bound. cbn [readNumber_loop]. rewrite Hdigit. reflexivity. }
      rewrite Hstep.
      apply Hone; [apply readNumber_moved_on, readChar_well_formed|assumption|].
      discriminate. }
    unfold oneChar. cbn [fst snd Type_ newToken].
    apply (Hone _ Hrc); [assumption|discriminate].
Qed.

End lexer_progress.

Section lexer_end.
Import token lexer bytes.

Lemma tokens_from_reach_EOF (n : nat) :
  forall l,
    well_formed l ->
    (String.length (input l) - position l < n)%nat ->
    exists toks eof,
      tokens_from n l = (toks ++ [eof])%list
      /\ Type_ eof = EOF
      /\ Forall (fun tok => Type_ tok <> EOF) toks
      /\ (length toks <= String.length (input l) - position l)%nat.
Proof.
  induction n as [|n IH]; intros l Hwf Hn; [lia|].
  cbn [tokens_from].
  destruct (NextToken_moves_on l Hwf) as ((Hwf' & Hin & Hle) & _ & Hmoves).
  destruct (NextToken l) as [tok l']. cbn [fst snd] in *.
  destruct (decide (Type_ tok = EOF)) as [Heof|Hne].
  - exists [], tok. repeat split; [exact Heof|constructor|cbn; lia].
  - destruct (Hmoves Hne) as [Hlt Hinside].
    destruct (IH l' Hwf') as (toks & eof & Htoks & Heof & Hall & Hlen);
      [rewrite Hin; lia|].
    exists (tok :: toks), eof. rewrite Htoks.
    split; [reflexivity|]. split; [exact Heof|].
    split; [constructor; assumption|]. cbn [length]. rewrite Hin in Hlen. lia.
Qed.

(** Past the end of the input [NextToken] returns EOF, and stays past the
    end. *)
Lemma NextToken_past_the_end (l : Lexer) :
  well_formed l -> (String.length (input l) <= position l)%nat ->
  Type_ (fst (NextToken l)) = EOF
  /\ well_formed (snd (NextToken l))
  /\ input (snd (NextToken l)) = input l
  /\ (String.length (input l) <= position (snd (NextToken l)))%nat.
Proof.
  intros Hwf Hend.
  destruct (NextToken_moves_on l Hwf) as ((Hwf' & Hin & Hle) & Heof & Hmoves).
  split; [|split; [exact Hwf'|split; [exact Hin|lia]]].
  destruct (decide (Type_ (fst (NextToken l)) = EOF)) as [H|H]; [exact H|].
  destruct (Hmoves H) as [_ Hinside]. lia.
Qed.

End lexer_end.

(** Every text is cut into finitely many tokens: calling [NextToken] again
    and again returns EOF after at most as many other tokens as the text has
    bytes; and once the lexer is past the end of the text, every further
    call returns EOF. *)
Theorem tokens_end_with_EOF (src : string) :
  (exists toks eof,
      lexer.tokens src = (toks ++ [eof])%list
      /\ token.Type_ eof = token.EOF
      /\ Forall (fun tok => token.Type_ tok <> token.EOF) toks
      /\ (length toks <= String.length src)%nat)
  /\ (forall n l,
        l = Nat.iter n (fun l => snd (lexer.NextToken l)) (lexer.New src) ->
        (String.length src <= lexer.position l)%nat ->
        token.Type_ (fst (lexer.NextToken l)) = token.EOF
        /\ (String.length src <= lexer.position (snd (lexer.NextToken l)))%nat).
Proof.
  split.
  - destruct (tokens_from_reach_EOF (lexer.loop_bound (lexer.New src)) (lexer.New src)
                (New_well_formed src)) as (toks & eof & Htoks & Heof & Hall & Hlen).
    { unfold lexer.loop_bound. cbn. lia. }
    exists toks, eof. cbn in Hlen. split; [exact Htoks|]. split; [exact Heof|].
    split; [exact Hall|lia].
  - intros n l Hl Hend.
    assert (Hwf : well_formed l /\ lexer.input l = src).
    { subst l. clear Hend. induction n as [|n [IHwf IHin]].
      - split; [apply New_well_formed|reflexivity].
      - rewrite Nat.iter_succ.
        set (l0 := Nat.iter n _ (lexer.New src)) in *.
        destruct (NextToken_moves_on l0 IHwf) as ((Hwf' & Hin & _) & _).
        split; [exact Hwf'|]. rewrite Hin. exact IHin. }
    destruct Hwf as [Hwf Hin].
    destruct (NextToken_past_the_end l Hwf) as (Heof & _ & _ & Hpos);
      [rewrite Hin; exact Hend|].
    rewrite Hin in Hpos. auto.
Qed.


(** ** Words: identifiers and keywords *)

Section words.
Import token lexer bytes.

(** A byte of a word: a letter, the underscore or a digit. *)
Definition word_byte (c : ascii) : bool := (isLetter c || isDigit c)%bool.

(** The shape of a word: a letter or the underscore, then letters,
    underscores and digits. *)
Definition word_shape (literal : string) : bool :=
  match literal with
  | EmptyString => false
  | String c rest => (isLetter c && all_bytes word_byte rest)%bool
  end.

(** The types of the tokens that are words. *)
Definition word_type (t : TokenType) : bool :=
  match t with
  | IDENT | PRINT | LET | IF | THEN | ELSE | GOTO | GOSUB | RETURN
  | FOR | TO | STEP | NEXT | INPUT | REM | END | DIM
  | AND | OR | NOT | MOD => true
  | _ => false
  end.

Lemma readIdentifier_span (n : nat) :
  forall l,
    well_formed l ->
    let l' := readIdentifier_loop n l in
    (position l <= position l')%nat
    /\ forall i, (position l <= i < position l')%nat ->
                 (i < String.length (input l))%nat
                 /\ word_byte (at_ (input l) i) = true.
Proof.
  induction n as [|n IH]; intros l Hwf; cbn.
  - split; [lia|]. intros i Hi. lia.
  - fold (word_byte (ch l)).
    destruct (word_byte (ch l)) eqn:Hch; [|split; [lia|intros i Hi; lia]].
    destruct (IH (readChar l) (readChar_well_formed l)) as (Hle & Hspan).
    cbn in Hle, Hspan. destruct Hwf as [Hrp Hcur].
    rewrite Hrp in Hle, Hspan. split; [lia|].
    intros i Hi.
    destruct (decide (i = position l)) as [->|Hne]; [|apply Hspan; lia].
    rewrite Hcur in Hch.
    destruct (String.length (input l) <=? position l)%nat eqn:Hlen;
      [discriminate|].
    apply Nat.leb_gt in Hlen. split; assumption.
Qed.

Lemma readIdentifier_shape (l : Lexer) :
  well_formed l -> isLetter (ch l) = true ->
  word_shape (fst (readIdentifier l)) = true.
Proof.
  intros Hwf Hletter. unfold readIdentifier. cbn [fst].
  destruct (readIdentifier_span (loop_bound l) l Hwf) as (_ & Hspan).
  assert (Hfirst : (position l < position (readIdentifier_loop (loop_bound l) l))%nat).
  { unfold loop_bound.
    change (readIdentifier_loop (S (S (String.length (input l)))) l)
      with (if (isLetter (ch l) || isDigit (ch l))%bool
            then readIdentifier_loop (S (String.length (input l))) (readChar l)
            else l).
    rewrite Hletter. cbn [orb].
    destruct (readIdentifier_span (S (String.length (input l))) (readChar l)
                (readChar_well_formed l)) as (Hle & _).
    cbn [readChar position] in Hle. destruct Hwf as [Hrp _].
    rewrite Hrp in Hle. lia. }
  set (stop := position (readIdentifier_loop (loop_bound l) l)) in *.
  unfold slice.
  destruct (Hspan (position l) ltac:(lia)) as [Hlen _].
  destruct (substring_first (input l) (position l) (stop - position l) Hlen ltac:(lia))
    as [rest Hrest].
  assert (Hall : all_bytes word_byte
                   (String.substring (position l) (stop - position l) (input l))
                 = true).
  { apply all_bytes_substring. intros i Hi. apply Hspan. lia. }
  rewrite Hrest in Hall |- *. cbn in Hall |- *.
  apply andb_prop in Hall. destruct Hall as [_ Hall]. rewrite Hall.
  destruct Hwf as [_ Hcur]. rewrite Hcur in Hletter.
  destruct (String.length (input l) <=? position l)%nat eqn:Hle;
    [apply Nat.leb_le in Hle; lia|].
  rewrite Hletter. reflexivity.
Qed.

Lemma LookupIdent_word (ident : string) : word_type (LookupIdent ident) = true.
Proof.
  unfold LookupIdent, keywords, lookup.
  repeat match goal with
         | |- context [if ?c then _ else _] => destruct c; try reflexivity
         end.
Qed.

(** What [NextToken] returns for a word, and only for a word. *)
Lemma NextToken_word (l : Lexer) :
  well_formed l ->
  let tok := fst (NextToken l) in
  (word_type (Type_ tok) = true ->
   word_shape (Literal tok) = true
   /\ Type_ tok = LookupIdent (ToUpper (Literal tok)))
  /\ (isLetter (ch (skipWhitespace l)) = true -> word_type (Type_ tok) = true).
Proof.
  intros Hwf. unfold NextToken.
  pose proof (skipWhitespace_well_formed l Hwf) as Hwf1.
  set (l1 := skipWhitespace l) in *.
  repeat match goal with
         | |- context [if Ascii.eqb (ch l1) ?b then _ else _] =>
             destruct (Ascii.eqb_spec (ch l1) b) as [?Hc|?Hc]
         | |- context [if Ascii.eqb (peekChar l1) ?b then _ else _] =>
             destruct (Ascii.eqb (peekChar l1) b)
         end;
    try (unfold twoChar, oneChar, readString; cbn [fst snd Type_ newToken];
         split; [discriminate|];
         match goal with
         | H : ch l1 = _ |- _ => rewrite H; discriminate
         end).
  destruct (isLetter (ch l1)) eqn:Hletter.
  { pose proof (readIdentifier_shape l1 Hwf1 Hletter) as Hshape.
    destruct (readIdentifier l1) as [lit l']. cbn [fst snd Type_ Literal] in *.
    split; [intros _; split; [exact Hshape|reflexivity]|].
    intros _. apply LookupIdent_word. }
  destruct (isDigit (ch l1)).
  { destruct (readNumber l1) as [lit l']. cbn [fst Type_].
    split; discriminate. }
  unfold oneChar. cbn [fst Type_ newToken]. split; discriminate.
Qed.

End words.

(** Every token that is an identifier or a keyword has a literal that
    starts with a letter or an underscore and goes on with letters,
    underscores and digits, in the case the text has them in; whether it is a
    keyword, and which, is decided by the literal in capitals. *)
Theorem words_are_looked_up_in_capitals (src : string) (n : nat)
    (tok : token.Token) :
  In tok (lexer.tokens_from n (lexer.New src)) ->
  word_type (token.Type_ tok) = true ->
  word_shape (token.Literal tok) = true
  /\ token.Type_ tok = token.LookupIdent (bytes.ToUpper (token.Literal tok)).
Proof.
  intros Hin.
  assert (Hall : forall m l, well_formed l ->
            Forall (fun tok => word_type (token.Type_ tok) = true ->
                      word_shape (token.Literal tok) = true
                      /\ token.Type_ tok
                         = token.LookupIdent (bytes.ToUpper (token.Literal tok)))
                   (lexer.tokens_from m l)).
  { induction m as [|m IH]; intros l Hwf; cbn; [constructor|].
    destruct (NextToken_word l Hwf) as [Hword _].
    destruct (NextToken_facts l Hwf) as [Hwf' _].
    destruct (lexer.NextToken l) as [tok' l']. cbn [fst snd] in *.
    destruct (decide (token.Type_ tok' = token.EOF));
      (constructor; [exact Hword|]); [constructor|apply IH, Hwf']. }
  pose proof (Hall n (lexer.New src) (New_well_formed src)) as H.
  rewrite Forall_forall in H. apply H. apply list_elem_of_In. exact Hin.
Qed.

Lemma words_are_looked_up_in_capitals_witness :
  word_shape "Print" = true
  /\ token.PRINT = token.LookupIdent (bytes.ToUpper "Print").
Proof.
  apply (words_are_looked_up_in_capitals "Print x_1" 2
           (token.mkToken token.PRINT "Print" 1)).
  - vm_compute. auto.
  - reflexivity.
Defined.


Section repl_facts.
Import repl.











End repl_facts.



(** DELETE removes the stored lines of its range and no other, and returns
    how many they were. *)
Theorem deleteLines_removes_the_range (lines kept : gmap Z string) (arg : string)
    (deleted : Z) :
  repl.deleteLines lines arg = Returns (kept, deleted) ->
  exists start end_,
    repl.parseDeleteArgs arg = Returns (start, end_)
    /\ (forall num, start <= num <= end_ -> kept !! num = None)
    /\ (forall num, ~ (start <= num <= end_) -> kept !! num = lines !! num)
    /\ deleted = Z.of_nat (size lines) - Z.of_nat (size kept).
Proof.
  unfold repl.deleteLines.
  destruct (repl.parseDeleteArgs arg) as [[start end_]|err|]; try discriminate.
  intros [= <- <-]. exists start, end_. split; [reflexivity|].
  split; [|split].
  - intros num Hin. apply map_lookup_filter_None. right.
    intros text _ Hout. apply Hout. exact Hin.
  - intros num Hout. destruct (lines !! num) as [text|] eqn:Hnum.
    + apply map_lookup_filter_Some. split; [exact Hnum|exact Hout].
    + apply map_lookup_filter_None. left. exact Hnum.
  - pose proof (map_filter_union_complement
                  (fun entry : Z * string => start <= fst entry /\ fst entry <= end_)
                  lines) as Hunion.
    pose proof (map_disjoint_filter_complement
                  (fun entry : Z * string => start <= fst entry /\ fst entry <= end_)
                  lines) as Hdisjoint.
    rewrite <- Hunion at 2.
    rewrite (map_size_disj_union _ _ Hdisjoint). lia.
Qed.

Definition stored_lines : gmap Z string :=
  <[10 := "10 PRINT 1"]> (<[20 := "20 PRINT 2"]> (<[30 := "30 END"]> ∅)).

Lemma deleteLines_removes_the_range_witness :
  exists start end_,
    repl.parseDeleteArgs "10-20" = Returns (start, end_)
    /\ (forall num, start <= num <= end_ ->
          (<[30 := "30 END"]> ∅ : gmap Z string) !! num = None)
    /\ (forall num, ~ (start <= num <= end_) ->
          (<[30 := "30 END"]> ∅ : gmap Z string) !! num = stored_lines !! num)
    /\ 2 = Z.of_nat (size stored_lines)
           - Z.of_nat (size (<[30 := "30 END"]> ∅ : gmap Z string)).
Proof.
  apply (deleteLines_removes_the_range stored_lines (<[30 := "30 END"]> ∅) "10-20" 2).
  vm_compute. reflexivity.
Defined.




(** ** Errors and nil statements of the parser *)

Section parser_errors.
Import token lexer parser.

(** The error list of [p'] is the one of [p] with errors added. *)
Definition extends (p p' : Parser) : Prop :=
  exists more, errors p' = (errors p ++ more)%list.

Lemma extends_kept (p p' : Parser) : errors p' = errors p -> extends p p'.
Proof. intros H. exists []. rewrite app_nil_r. exact H. Qed.

Lemma extends_refl (p : Parser) : extends p p.
Proof. apply extends_kept. reflexivity. Qed.

Lemma extends_trans (p1 p2 p3 : Parser) :
  extends p1 p2 -> extends p2 p3 -> extends p1 p3.
Proof.
  intros [m1 H1] [m2 H2]. exists (m1 ++ m2)%list.
  rewrite H2, H1, app_assoc. reflexivity.
Qed.

Lemma extends_same (p1 p2 p3 : Parser) :
  extends p1 p2 -> extends p2 p3 -> errors p3 = errors p1 ->
  errors p2 = errors p1 /\ errors p3 = errors p2.
Proof.
  intros [m1 H1] [m2 H2] H3.
  assert (Hlen : length (errors p3) = length (errors p1)) by (rewrite H3; reflexivity).
  rewrite H2, H1, !length_app in Hlen.
  destruct m1; [|cbn in Hlen; lia]. destruct m2; [|cbn in Hlen; lia].
  rewrite app_nil_r in H1, H2. auto.
Qed.

(** A method of the parser that only adds to the error list. *)
Definition monotone {A : Type} (m : M A) : Prop :=
  forall p a p', m p = Ok (a, p') -> extends p p'.

Lemma monotone_ret {A} (a : A) : monotone (ret a).
Proof. intros p a' p' [= _ <-]. apply extends_refl. Qed.

Lemma monotone_bind {A B} (m : M A) (k : A -> M B) :
  monotone m -> (forall a, monotone (k a)) -> monotone (bind m k).
Proof.
  intros Hm Hk p b p'. unfold bind.
  destruct (m p) as [[a p1]| |] eqn:H1; try discriminate.
  intros H2. exact (extends_trans p p1 p' (Hm p a p1 H1) (Hk a p1 b p' H2)).
Qed.

Lemma monotone_out_of_fuel {A} : monotone (@out_of_fuel A).
Proof. intros p a p' H. discriminate H. Qed.

Lemma monotone_panic {A} : monotone (@panic A).
Proof. intros p a p' H. discriminate H. Qed.

Lemma monotone_cur : monotone cur.
Proof. intros p a p' [= _ <-]. apply extends_refl. Qed.

Lemma monotone_peek : monotone peek.
Proof. intros p a p' [= _ <-]. apply extends_refl. Qed.

Lemma monotone_addError (err : Error) : monotone (addError err).
Proof. intros p a p' [= _ <-]. exists [err]. reflexivity. Qed.

Lemma monotone_nextToken : monotone nextToken.
Proof.
  intros p a p'. unfold nextToken. destruct (NextToken (l p)) as [tok l'].
  intros [= _ <-]. apply extends_kept. reflexivity.
Qed.

Create HintDb monotone.

#[local] Hint Resolve monotone_ret monotone_out_of_fuel monotone_panic
  monotone_cur monotone_peek monotone_addError monotone_nextToken : monotone.

Ltac grow :=
  repeat first
    [ progress intros
    | solve [auto with monotone]
    | apply monotone_bind
    | progress cbv zeta
    | match goal with
      | |- monotone (if ?b then _ else _) => destruct b
      | |- monotone (match ?x with _ => _ end) => destruct x
      end ].

Lemma monotone_curTokenIs t : monotone (curTokenIs t).
Proof. unfold curTokenIs. grow. Qed.

Lemma monotone_peekTokenIs t : monotone (peekTokenIs t).
Proof. unfold peekTokenIs. grow. Qed.

Lemma monotone_peekError t : monotone (peekError t).
Proof. unfold peekError. grow. Qed.

#[local] Hint Resolve monotone_curTokenIs monotone_peekTokenIs
  monotone_peekError : monotone.

Lemma monotone_expectPeek t : monotone (expectPeek t).
Proof. unfold expectPeek. grow. Qed.

Lemma monotone_noPrefixParseFnError t : monotone (noPrefixParseFnError t).
Proof. unfold noPrefixParseFnError. grow. Qed.

Lemma monotone_peekPrecedence : monotone peekPrecedence.
Proof. unfold peekPrecedence. grow. Qed.

Lemma monotone_curPrecedence : monotone curPrecedence.
Proof. unfold curPrecedence. grow. Qed.

Lemma monotone_parseIdentifier : monotone parseIdentifier.
Proof. unfold parseIdentifier. grow. Qed.

Lemma monotone_parseNumberLiteral : monotone parseNumberLiteral.
Proof. unfold parseNumberLiteral. grow. Qed.

Lemma monotone_parseStringLiteral : monotone parseStringLiteral.
Proof. unfold parseStringLiteral. grow. Qed.

#[local] Hint Resolve monotone_expectPeek monotone_noPrefixParseFnError
  monotone_peekPrecedence monotone_curPrecedence monotone_parseIdentifier
  monotone_parseNumberLiteral monotone_parseStringLiteral : monotone.

Section expressions.
Variable rec : Z -> M ast.Expression.
Hypothesis Hrec : forall precedence, monotone (rec precedence).

Lemma monotone_parsePrefixExpression : monotone (parsePrefixExpression rec).
Proof using Hrec. unfold parsePrefixExpression. grow. Qed.

Lemma monotone_parseInfixExpression left :
  monotone (parseInfixExpression rec left).
Proof using Hrec. unfold parseInfixExpression. grow. Qed.

Lemma monotone_parseGroupedExpression : monotone (parseGroupedExpression rec).
Proof using Hrec. unfold parseGroupedExpression. grow. Qed.

Lemma monotone_parseArrayAccess left : monotone (parseArrayAccess rec left).
Proof using Hrec. unfold parseArrayAccess. grow. Qed.

Lemma monotone_prefixParseFns t prefix :
  prefixParseFns rec t = Some prefix -> monotone prefix.
Proof using Hrec.
  destruct t; cbn; intros [= <-];
    auto using monotone_parsePrefixExpression, monotone_parseGroupedExpression
      with monotone.
Qed.

Lemma monotone_infixParseFns t infix left :
  infixParseFns rec t = Some infix -> monotone (infix left).
Proof using Hrec.
  destruct t; cbn; intros [= <-];
    auto using monotone_parseInfixExpression, monotone_parseArrayAccess.
Qed.

Lemma monotone_parseExpression_loop n :
  forall precedence leftExp,
    monotone (parseExpression_loop rec n precedence leftExp).
Proof using Hrec.
  induction n as [|n IH]; intros precedence leftExp; cbn [parseExpression_loop].
  - apply monotone_bind; [grow|]. intros pk.
    apply monotone_bind; [grow|]. intros pp.
    destruct (_ && _)%bool; [|grow].
    destruct (infixParseFns rec (Type_ pk)); grow.
  - apply monotone_bind; [grow|]. intros pk.
    apply monotone_bind; [grow|]. intros pp.
    destruct (_ && _)%bool; [|grow].
    destruct (infixParseFns rec (Type_ pk)) as [infix|] eqn:Hinfix; [|grow].
    apply monotone_bind; [grow|]. intros _.
    apply monotone_bind; [eapply monotone_infixParseFns; exact Hinfix|].
    intros leftExp'. apply IH.
Qed.

End expressions.

Lemma monotone_parseExpression fuel :
  forall precedence, monotone (parseExpression fuel precedence).
Proof.
  induction fuel as [|fuel IH]; intros precedence; cbn [parseExpression];
    [grow|].
  apply monotone_bind; [grow|]. intros c.
  destruct (prefixParseFns (parseExpression fuel) (Type_ c)) as [prefix|] eqn:Hprefix;
    [|grow].
  apply monotone_bind; [eapply monotone_prefixParseFns; [exact IH|exact Hprefix]|].
  intros leftExp. apply monotone_parseExpression_loop, IH.
Qed.

#[local] Hint Resolve monotone_parseExpression : monotone.

Lemma monotone_parseRemStatement_loop n :
  forall comment, monotone (parseRemStatement_loop n comment).
Proof.
  induction n as [|n IH]; intros comment; cbn [parseRemStatement_loop]; grow.
Qed.

Lemma monotone_parsePrintStatement_loop n fuel :
  forall exprs seps, monotone (parsePrintStatement_loop n fuel exprs seps).
Proof.
  induction n as [|n IH]; intros exprs seps; cbn [parsePrintStatement_loop];
    [grow|].
  apply monotone_bind; [grow|]. intros expr.
  apply monotone_bind; [grow|]. intros pk.
  assert (Hsep : forall sep es,
             monotone
               (bind nextToken (fun _ =>
                  bind peek (fun pk0 =>
                    if ends_statement pk0
                    then ret (ast.PrintStatement es (seps ++ [sep])%list false)
                    else bind nextToken (fun _ =>
                           parsePrintStatement_loop n fuel es (seps ++ [sep])%list))))).
  { intros sep es. grow. }
  destruct (is_ SEMICOLON pk); [apply Hsep|].
  destruct (is_ COMMA pk); [apply Hsep|]. grow.
Qed.

Lemma monotone_parseInputStatement_loop n :
  forall prompt variables, monotone (parseInputStatement_loop n prompt variables).
Proof.
  induction n as [|n IH]; intros prompt variables;
    cbn [parseInputStatement_loop]; grow.
Qed.

#[local] Hint Resolve monotone_parseRemStatement_loop
  monotone_parsePrintStatement_loop monotone_parseInputStatement_loop : monotone.

Lemma monotone_simple_statements fuel :
  monotone (parseRemStatement fuel) /\ monotone (parseDimStatement fuel)
  /\ monotone (parseLetStatement fuel) /\ monotone (parseGotoStatement fuel)
  /\ monotone (parseGosubStatement fuel) /\ monotone parseReturnStatement
  /\ monotone parseEndStatement /\ monotone (parsePrintStatement fuel)
  /\ monotone (parseForStatement fuel) /\ monotone parseNextStatement
  /\ monotone (parseInputStatement fuel)
  /\ monotone (parseExpressionStatement fuel).
Proof.
  unfold parseRemStatement, parseDimStatement, parseLetStatement,
    parseGotoStatement, parseGosubStatement, parseReturnStatement,
    parseEndStatement, parsePrintStatement, parseForStatement,
    parseNextStatement, parseInputStatement, parseExpressionStatement.
  repeat match goal with |- _ /\ _ => split end; grow.
Qed.

Section statements.
Variable rec : M ast.Statement.
Hypothesis Hrec : monotone rec.
Variable fuel : nat.

Lemma monotone_parseIfStatement : monotone (parseIfStatement rec fuel).
Proof using Hrec. unfold parseIfStatement. grow. Qed.

Lemma monotone_parseSingleStatement : monotone (parseSingleStatement rec fuel).
Proof using Hrec.
  destruct (monotone_simple_statements fuel)
    as (? & ? & ? & ? & ? & ? & ? & ? & ? & ? & ? & ?).
  pose proof monotone_parseIfStatement.
  unfold parseSingleStatement. apply monotone_bind; [grow|].
  intros c. destruct (Type_ c); assumption.
Qed.

Lemma monotone_parseStatement_loop n :
  forall stmts, monotone (parseStatement_loop rec fuel n stmts).
Proof using Hrec.
  pose proof monotone_parseSingleStatement.
  induction n as [|n IH]; intros stmts; cbn [parseStatement_loop]; grow.
Qed.

End statements.

Lemma monotone_parseStatement fuel : monotone (parseStatement fuel).
Proof.
  induction fuel as [|fuel IH]; cbn [parseStatement]; [grow|].
  apply monotone_bind; [apply monotone_parseSingleStatement, IH|]. intros stmt.
  apply monotone_bind; [apply monotone_parseStatement_loop, IH|]. intros stmts.
  grow.
Qed.

#[local] Hint Resolve monotone_parseStatement : monotone.

(** A method whose result is good whenever it has added no error. *)
Definition sound {A : Type} (good : A -> Prop) (m : M A) : Prop :=
  forall p a p', m p = Ok (a, p') -> errors p' = errors p -> good a.

Lemma sound_ret {A} (good : A -> Prop) (a : A) : good a -> sound good (ret a).
Proof. intros H p a' p' [= <- _] _. exact H. Qed.

Lemma sound_bind {A B} (good1 : A -> Prop) (good2 : B -> Prop)
    (m : M A) (k : A -> M B) :
  monotone m -> sound good1 m ->
  (forall a, monotone (k a)) -> (forall a, good1 a -> sound good2 (k a)) ->
  sound good2 (bind m k).
Proof.
  intros Hm Hgood Hk Hgood' p b p'. unfold bind.
  destruct (m p) as [[a p1]| |] eqn:H1; try discriminate.
  intros H2 Hsame.
  destruct (extends_same p p1 p' (Hm p a p1 H1) (Hk a p1 b p' H2) Hsame)
    as [Hsame1 Hsame2].
  exact (Hgood' a (Hgood p a p1 H1 Hsame1) p1 b p' H2 Hsame2).
Qed.

Lemma sound_bind_ret {A B} (good : B -> Prop) (a : A) (k : A -> M B) :
  sound good (k a) -> sound good (bind (ret a) k).
Proof. intros H p b p'. exact (H p b p'). Qed.

Lemma sound_any {A} (m : M A) : sound (fun _ => True) m.
Proof. intros p a p' _ _. exact I. Qed.

Lemma sound_out_of_fuel {A} (good : A -> Prop) : sound good out_of_fuel.
Proof. intros p a p' H. discriminate H. Qed.

(** [expectPeek] adds an error exactly when it returns [false]. *)
Lemma sound_expectPeek t : sound (fun ok => ok = true) (expectPeek t).
Proof.
  intros p ok p'. unfold expectPeek, peekTokenIs, peek, peekError, addError,
    nextToken, bind, ret.
  destruct (is_ t (peekToken p)).
  - destruct (NextToken (l p)). intros [= <- _] _. reflexivity.
  - intros [= _ <-] H. cbn in H. exfalso.
    assert (Hlen : length (errors p ++ [ExpectedNext t (Type_ (peekToken p))])
                   = length (errors p)) by (rewrite H; reflexivity).
    rewrite length_app in Hlen. cbn in Hlen. lia.
Qed.

(** A statement without a nil statement in it. *)
Definition whole (stmt : ast.Statement) : Prop := nil_statement stmt = false.

Ltac keep_whole :=
  repeat first
    [ progress intros
    | solve [auto with monotone]
    | apply sound_out_of_fuel
    | apply sound_ret; reflexivity
    | match goal with
      | |- sound _ (bind (expectPeek ?t) _) =>
          apply (sound_bind (fun ok => ok = true));
          [grow|apply sound_expectPeek|grow|intros ? ->; cbn [negb]; cbv iota]
      | |- sound _ (bind (ret ?a) _) =>
          apply sound_bind_ret; cbn [negb]; cbv iota
      | |- sound _ (bind _ _) =>
          apply (sound_bind (fun _ => True)); [grow|apply sound_any|grow|intros ? _]
      | |- sound _ (if ?b then _ else _) => destruct b
      | |- sound _ (match ?x with _ => _ end) => destruct x
      end
    | progress cbv zeta ].

Lemma sound_parseRemStatement_loop n :
  forall comment, sound (fun _ => True) (parseRemStatement_loop n comment).
Proof. intros comment. apply sound_any. Qed.

Lemma sound_parsePrintStatement_loop n fuel :
  forall exprs seps, sound whole (parsePrintStatement_loop n fuel exprs seps).
Proof.
  induction n as [|n IH]; intros exprs seps; cbn [parsePrintStatement_loop];
    [apply sound_out_of_fuel|].
  apply (sound_bind (fun _ => True)); [grow|apply sound_any| |].
  { intros expr. pose proof (monotone_parsePrintStatement_loop n fuel) as Hloop.
    grow. }
  intros expr _.
  apply (sound_bind (fun _ => True)); [grow|apply sound_any| |].
  { intros pk. pose proof (monotone_parsePrintStatement_loop n fuel) as Hloop.
    grow. }
  intros pk _.
  assert (Hsep : forall sep es,
             sound whole
               (bind nextToken (fun _ =>
                  bind peek (fun pk0 =>
                    if ends_statement pk0
                    then ret (ast.PrintStatement es (seps ++ [sep])%list false)
                    else bind nextToken (fun _ =>
                           parsePrintStatement_loop n fuel es (seps ++ [sep])%list))))).
  { intros sep es. pose proof (monotone_parsePrintStatement_loop n fuel) as Hloop.
    apply (sound_bind (fun _ => True)); [grow|apply sound_any|grow|]. intros _ _.
    apply (sound_bind (fun _ => True)); [grow|apply sound_any|grow|]. intros pk0 _.
    destruct (ends_statement pk0); [apply sound_ret; reflexivity|].
    apply (sound_bind (fun _ => True)); [grow|apply sound_any|grow|]. intros _ _.
    apply IH. }
  destruct (is_ SEMICOLON pk); [apply Hsep|].
  destruct (is_ COMMA pk); [apply Hsep|]. apply sound_ret. reflexivity.
Qed.

Lemma sound_parseInputStatement_loop n :
  forall prompt variables,
    sound whole (parseInputStatement_loop n prompt variables).
Proof.
  induction n as [|n IH]; intros prompt variables;
    cbn [parseInputStatement_loop]; keep_whole.
Qed.

Lemma sound_simple_statements fuel :
  sound whole (parseRemStatement fuel) /\ sound whole (parseDimStatement fuel)
  /\ sound whole (parseLetStatement fuel) /\ sound whole (parseGotoStatement fuel)
  /\ sound whole (parseGosubStatement fuel) /\ sound whole parseReturnStatement
  /\ sound whole parseEndStatement /\ sound whole (parsePrintStatement fuel)
  /\ sound whole (parseForStatement fuel) /\ sound whole parseNextStatement
  /\ sound whole (parseInputStatement fuel)
  /\ sound whole (parseExpressionStatement fuel).
Proof.
  pose proof (sound_parsePrintStatement_loop fuel fuel [] []) as Hprint.
  pose proof (sound_parseInputStatement_loop fuel) as Hinput.
  unfold parseRemStatement, parseDimStatement, parseLetStatement,
    parseGotoStatement, parseGosubStatement, parseReturnStatement,
    parseEndStatement, parsePrintStatement, parseForStatement,
    parseNextStatement, parseInputStatement, parseExpressionStatement.
  repeat match goal with |- _ /\ _ => split end; keep_whole.
Qed.

Section whole_statements.
Variable rec : M ast.Statement.
Hypothesis Hrec : monotone rec.
Hypothesis Hwhole : sound whole rec.
Variable fuel : nat.

Lemma sound_parseIfStatement : sound whole (parseIfStatement rec fuel).
Proof using Hrec Hwhole.
  unfold parseIfStatement.
  apply (sound_bind (fun _ => True)); [grow|apply sound_any|grow|intros _ _].
  apply (sound_bind (fun _ => True)); [grow|apply sound_any|grow|intros condition _].
  apply (sound_bind (fun ok => ok = true));
    [grow|apply sound_expectPeek|grow|intros ? ->; cbn [negb]; cbv iota].
  apply (sound_bind (fun _ => True)); [grow|apply sound_any|grow|intros _ _].
  apply (sound_bind whole); [exact Hrec|exact Hwhole|grow|intros consequence Hcons].
  apply (sound_bind (fun _ => True)); [grow|apply sound_any|grow|intros has_else _].
  destruct has_else.
  - apply (sound_bind (fun _ => True)); [grow|apply sound_any|grow|intros _ _].
    apply (sound_bind (fun _ => True)); [grow|apply sound_any|grow|intros _ _].
    apply (sound_bind whole); [exact Hrec|exact Hwhole|grow|intros alternative Halt].
    apply sound_ret. unfold whole in *. cbn. rewrite Hcons, Halt. reflexivity.
  - apply sound_ret. unfold whole in *. cbn. rewrite Hcons. reflexivity.
Qed.

Lemma sound_parseSingleStatement : sound whole (parseSingleStatement rec fuel).
Proof using Hrec Hwhole.
  destruct (sound_simple_statements fuel)
    as (? & ? & ? & ? & ? & ? & ? & ? & ? & ? & ? & ?).
  pose proof sound_parseIfStatement.
  unfold parseSingleStatement.
  apply (sound_bind (fun _ => True)); [grow|apply sound_any| |].
  - destruct (monotone_simple_statements fuel)
      as (? & ? & ? & ? & ? & ? & ? & ? & ? & ? & ? & ?).
    pose proof (monotone_parseIfStatement rec Hrec fuel).
    intros c. destruct (Type_ c); assumption.
  - intros c _. destruct (Type_ c); assumption.
Qed.

Lemma sound_parseStatement_loop n :
  forall stmts,
    existsb nil_statement stmts = false ->
    sound (fun stmts' => existsb nil_statement stmts' = false)
          (parseStatement_loop rec fuel n stmts).
Proof using Hrec Hwhole.
  pose proof (monotone_parseSingleStatement rec Hrec fuel) as Hsingle.
  pose proof (monotone_parseStatement_loop rec Hrec fuel) as Hloop.
  induction n as [|n IH]; intros stmts Hstmts; cbn [parseStatement_loop].
  - apply (sound_bind (fun _ => True)); [grow|apply sound_any|grow|intros colon _].
    destruct (negb colon); [apply sound_ret; exact Hstmts|apply sound_out_of_fuel].
  - apply (sound_bind (fun _ => True)); [grow|apply sound_any|grow|intros colon _].
    destruct (negb colon); [apply sound_ret; exact Hstmts|].
    apply (sound_bind (fun _ => True)); [grow|apply sound_any|grow|intros _ _].
    apply (sound_bind (fun _ => True)); [grow|apply sound_any|grow|intros _ _].
    apply (sound_bind (fun _ => True)); [grow|apply sound_any|grow|intros c _].
    destruct (_ || _)%bool; [apply sound_ret; exact Hstmts|].
    apply (sound_bind whole);
      [exact Hsingle|apply sound_parseSingleStatement|grow|intros nextStmt Hnext].
    apply IH. rewrite existsb_app, Hstmts. cbn. rewrite Hnext. reflexivity.
Qed.

End whole_statements.

Lemma sound_parseStatement fuel : sound whole (parseStatement fuel).
Proof.
  induction fuel as [|fuel IH]; cbn [parseStatement]; [apply sound_out_of_fuel|].
  pose proof (monotone_parseStatement fuel) as Hrec.
  pose proof (monotone_parseSingleStatement _ Hrec fuel) as Hsingle.
  pose proof (monotone_parseStatement_loop _ Hrec fuel) as Hloop.
  apply (sound_bind whole);
    [exact Hsingle|apply sound_parseSingleStatement; assumption|grow|intros stmt Hstmt].
  apply (sound_bind (fun stmts' => existsb nil_statement stmts' = false));
    [apply Hloop| |grow|].
  - apply sound_parseStatement_loop; [exact Hrec|exact IH|].
    cbn. rewrite Hstmt. reflexivity.
  - intros stmts Hstmts. destruct stmts as [|only [|second rest]];
      apply sound_ret; unfold whole; cbn in Hstmts |- *; try exact Hstmts.
    apply orb_false_iff in Hstmts. apply Hstmts.
Qed.

(** Every statement of the program is whole. *)
Definition whole_program (statements : gmap Z ast.Statement) : Prop :=
  forall k stmt, statements !! k = Some stmt -> whole stmt.

Lemma whole_program_insert statements k stmt :
  whole stmt -> whole_program statements ->
  whole_program (<[k := stmt]> statements).
Proof.
  intros Hstmt Hall k' stmt' H.
  destruct (decide (k = k')) as [<-|Hne].
  - rewrite lookup_insert_eq in H. injection H as <-. exact Hstmt.
  - rewrite lookup_insert_ne in H by exact Hne. exact (Hall k' stmt' H).
Qed.

Lemma monotone_parseStatementOrLine fuel : monotone (parseStatementOrLine fuel).
Proof. unfold parseStatementOrLine, parseLineStatement. grow. Qed.

Lemma monotone_ParseProgram_loop n fuel :
  forall statements, monotone (ParseProgram_loop n fuel statements).
Proof.
  pose proof (monotone_parseStatementOrLine fuel).
  induction n as [|n IH]; intros statements; cbn [ParseProgram_loop]; grow.
Qed.

Lemma sound_parseStatementOrLine fuel :
  sound (fun parsed => match parsed with
                       | Line (Some (_, stmt)) | Plain stmt => whole stmt
                       | Line None => True
                       end)
        (parseStatementOrLine fuel).
Proof.
  pose proof (monotone_parseStatement fuel) as Hrec.
  unfold parseStatementOrLine, parseLineStatement.
  apply (sound_bind (fun _ => True)); [grow|apply sound_any|grow|intros c _].
  destruct (is_ NUMBER c).
  - apply (sound_bind (fun line => match line with
                                   | Some (_, stmt) => whole stmt
                                   | None => True
                                   end)); [grow| |grow|].
    + apply (sound_bind (fun _ => True)); [grow|apply sound_any|grow|intros c' _].
      destruct (Atoi (Literal c')) as [lineNum|].
      * apply (sound_bind (fun _ => True)); [grow|apply sound_any|grow|intros _ _].
        apply (sound_bind whole);
          [exact Hrec|apply sound_parseStatement|grow|intros stmt Hstmt].
        apply sound_ret. exact Hstmt.
      * apply (sound_bind (fun _ => True)); [grow|apply sound_any|grow|intros _ _].
        apply sound_ret. exact I.
    + intros line Hline. apply sound_ret. exact Hline.
  - apply (sound_bind whole);
      [exact Hrec|apply sound_parseStatement|grow|intros stmt Hstmt].
    apply sound_ret. exact Hstmt.
Qed.

Lemma sound_ParseProgram_loop n fuel :
  forall statements,
    whole_program statements ->
    sound (fun program => whole_program (Statements program))
          (ParseProgram_loop n fuel statements).
Proof.
  pose proof (monotone_parseStatementOrLine fuel) as Hline.
  pose proof (monotone_ParseProgram_loop) as Hloop.
  induction n as [|n IH]; intros statements Hall; cbn [ParseProgram_loop].
  - apply (sound_bind (fun _ => True)); [grow|apply sound_any|grow|intros c _].
    destruct (is_ EOF c); [apply sound_ret; exact Hall|apply sound_out_of_fuel].
  - apply (sound_bind (fun _ => True)); [grow|apply sound_any|grow|intros c _].
    destruct (is_ EOF c); [apply sound_ret; exact Hall|].
    destruct (is_ NEWLINE c).
    + apply (sound_bind (fun _ => True)); [grow|apply sound_any|grow|intros _ _].
      apply IH, Hall.
    + eapply sound_bind; [exact Hline|apply sound_parseStatementOrLine|grow|].
      intros [[[lineNumber statement]|]|statement] Hstmt.
      * apply (sound_bind (fun _ => True)); [grow|apply sound_any|grow|intros _ _].
        apply IH, whole_program_insert; assumption.
      * intros p a p' H. discriminate H.
      * apply (sound_bind (fun _ => True)); [grow|apply sound_any|grow|intros _ _].
        apply IH, whole_program_insert; assumption.
Qed.

End parser_errors.


Section compile_whole.

Lemma emitExpression_never_panics (expr : Expression) :
  compiler.emitExpression expr <> Panics.
Proof.
  induction expr as [v|v|name|l IHl op r IHr|op r IHr|name idx IHidx|]; cbn;
    try discriminate.
  - destruct (compiler.emitExpression l); try discriminate; [|contradiction].
    destruct (compiler.emitExpression r); try discriminate; contradiction.
  - destruct (compiler.emitExpression r); try discriminate; contradiction.
  - destruct (compiler.emitExpression idx); try discriminate; contradiction.
Qed.

Ltac emitted_parts :=
  repeat match goal with
         | |- context [compiler.emitExpression ?x] =>
             let H := fresh "H" in
             pose proof (emitExpression_never_panics x) as H;
             destruct (compiler.emitExpression x); [|discriminate|contradiction];
             clear H; cbn
         end;
  try discriminate.

Lemma emitPrint_loop_never_panics (exprs : list Expression) (seps : list string) :
  forall i, compiler.emitPrint_loop i exprs seps <> Panics.
Proof.
  induction exprs as [|expr rest IH]; intros i; cbn; [discriminate|].
  pose proof (emitExpression_never_panics expr) as H.
  destruct (compiler.emitExpression expr); [|discriminate|contradiction]. cbn.
  specialize (IH (S i)).
  destruct (compiler.emitPrint_loop (S i) rest seps);
    [discriminate|discriminate|contradiction].
Qed.

(** [Compile] panics on a nil statement only. *)
Lemma emitStatement_never_panics (stmt : Statement) :
  nil_statement stmt = false -> compiler.emitStatement stmt <> Panics.
Proof.
  induction stmt as [c s alt IHs IHalt|stmts IHstmts|s Hnot_if Hnot_seq]
    using Statement_nested_ind; intros Hnil.
  - cbn in Hnil |- *. apply orb_false_iff in Hnil. destruct Hnil as [Hs Halt].
    unfold compiler.emitIf. emitted_parts.
    specialize (IHs Hs).
    destruct (compiler.emitStatement s); [|discriminate|contradiction]. cbn.
    destruct alt as [other|]; [|discriminate].
    specialize (IHalt other eq_refl Halt).
    destruct (compiler.emitStatement other); [discriminate|discriminate|contradiction].
  - cbn in Hnil |- *.
    induction IHstmts as [|s rest IHs _ IHrest]; cbn; [discriminate|].
    cbn in Hnil. apply orb_false_iff in Hnil. destruct Hnil as [Hs Hrest].
    specialize (IHs Hs). specialize (IHrest Hrest).
    destruct (compiler.emitStatement s); [|discriminate|contradiction]. cbn.
    destruct (compiler.emitSequence compiler.emitStatement rest);
      [discriminate|discriminate|contradiction].
  - destruct s; cbn in Hnil |- *; try discriminate;
      try (exfalso; eapply Hnot_if; reflexivity);
      try (exfalso; eapply Hnot_seq; reflexivity).
    + unfold compiler.emitPrint. destruct Expressions; [discriminate|].
      pose proof (emitPrint_loop_never_panics (e :: Expressions) Separators 0%nat) as H.
      destruct (compiler.emitPrint_loop 0 (e :: Expressions) Separators);
        [discriminate|discriminate|contradiction].
    + unfold compiler.emitLet. emitted_parts.
    + unfold compiler.emitGoto. emitted_parts.
    + unfold compiler.emitGosub. emitted_parts.
    + unfold compiler.emitFor. emitted_parts.
    + emitted_parts.
Qed.

Lemma emitCases_never_panics (program : Program) (lines : list Z) :
  (forall k stmt, Statements program !! k = Some stmt -> nil_statement stmt = false) ->
  compiler.emitCases program lines <> Panics.
Proof.
  intros Hnil. induction lines as [|line rest IH]; cbn; [discriminate|].
  destruct (Statements program !! line) as [stmt|] eqn:Hstmt; [|discriminate].
  pose proof (emitStatement_never_panics stmt (Hnil line stmt Hstmt)) as H.
  destruct (compiler.emitStatement stmt); [|discriminate|contradiction]. cbn.
  destruct (compiler.emitCases program rest);
    [discriminate|discriminate|contradiction].
Qed.

End compile_whole.

Lemma New_errors (lx : lexer.Lexer) : parser.errors (parser.New lx) = [].
Proof.
  unfold parser.New, parser.nextToken, parser.bind. cbn [parser.l].
  destruct (lexer.NextToken lx) as [tok1 l1]. cbn [parser.l].
  destruct (lexer.NextToken l1) as [tok2 l2]. reflexivity.
Qed.

(** A text that is parsed without an error gives a program without a nil
    statement: whenever a statement parser gives up it has recorded an error.
    On such a program the interpreter does not panic, whatever the input, and
    [Compile] does not panic either.  (A nil expression can be left in the
    program without an error, by a parenthesis after something that is not
    an identifier; it is an error of the run, or of [Compile], not a panic.) *)
Theorem parsed_without_errors (fuel : nat) (src : string) (program : Program) :
  parser.parse fuel src = Ok (program, []) ->
  (forall k stmt, Statements program !! k = Some stmt -> nil_statement stmt = false)
  /\ (forall stdin starts turns,
        snd (evaluator.Run turns (evaluator.New program stdin starts))
        <> evaluator.Crashed)
  /\ compiler.Compile program <> Panics.
Proof.
  intros Hparse.
  assert (Hwhole : forall k stmt,
             Statements program !! k = Some stmt -> nil_statement stmt = false).
  { unfold parser.parse, parser.ParseProgram in Hparse.
    destruct (parser.ParseProgram_loop fuel fuel ∅
                (parser.New (lexer.New src))) as [[program' p']| |] eqn:Hloop;
      try discriminate Hparse.
    injection Hparse as -> Herrors.
    refine (sound_ParseProgram_loop fuel fuel ∅ _ _ _ _ Hloop _).
    - intros k stmt H. rewrite lookup_empty in H. discriminate H.
    - rewrite Herrors. symmetry. apply New_errors. }
  split; [exact Hwhole|]. split.
  - intros stdin starts turns. rewrite Run_is_Run_loop.
    apply (Run_loop_never_panics program turns Hwhole), New_at_a_turn.
  - unfold compiler.Compile. cbv zeta.
    pose proof (emitCases_never_panics program
                  (merge_sort Z.le (map fst (map_to_list (Statements program))))
                  Hwhole) as H.
    destruct (compiler.emitCases program _); [discriminate|discriminate|contradiction].
Qed.

(** The line [10 LET X = 5(]: no error, and a nil expression in the
    program. *)
Definition call_of_a_number_source : string := "10 LET X = 5(".

Lemma parsed_without_errors_witness :
  exists program,
    parser.parse 100 call_of_a_number_source = Ok (program, [])
    /\ (forall k stmt, Statements program !! k = Some stmt -> nil_statement stmt = false)
    /\ interpret call_of_a_number_source "" []
       = Some ("", evaluator.Finished
                     (Some (evaluator.AtLine 10 evaluator.UnknownExpressionType))).
Proof.
  destruct (parser.parse 100 call_of_a_number_source) as [[program errs]| |] eqn:Hparse;
    try (vm_compute in Hparse; discriminate Hparse).
  assert (Herrs : errs = []) by (vm_compute in Hparse; congruence).
  subst errs. exists program. split; [reflexivity|].
  split; [|vm_compute; reflexivity].
  exact (proj1 (parsed_without_errors 100 call_of_a_number_source program Hparse)).
Defined.

Lemma New_curToken (lx : lexer.Lexer) :
  parser.curToken (parser.New lx) = fst (lexer.NextToken lx).
Proof.
  unfold parser.New, parser.nextToken, parser.bind. cbn [parser.l].
  destruct (lexer.NextToken lx) as [tok1 l1]. cbn [parser.l].
  destruct (lexer.NextToken l1) as [tok2 l2]. reflexivity.
Qed.

Lemma nil_line_panics (n fuel : nat) (statements : gmap Z Statement)
    (p : parser.Parser) :
  token.Type_ (parser.curToken p) = token.NUMBER ->
  Atoi (token.Literal (parser.curToken p)) = None ->
  parser.ParseProgram_loop (S n) fuel statements p = Panic.
Proof.
  intros Htype Hatoi. cbn [parser.ParseProgram_loop].
  unfold parser.bind at 1. unfold parser.cur at 1. unfold parser.is_.
  rewrite Htype, !bool_decide_eq_false_2 by discriminate.
  unfold parser.parseStatementOrLine, parser.parseLineStatement, parser.bind,
    parser.cur, parser.is_, parser.addError, parser.ret.
  rewrite Htype, bool_decide_eq_true_2 by reflexivity.
  rewrite Hatoi. reflexivity.
Qed.

(** A line that starts with a number that [Atoi] refuses, one with a point
    in it or one too large for an [int], makes [ParseProgram] panic: the
    error is recorded, but the nil line statement is then read. *)
Theorem line_number_must_be_an_integer (fuel : nat) (src : string) :
  let first := fst (lexer.NextToken (lexer.New src)) in
  token.Type_ first = token.NUMBER ->
  Atoi (token.Literal first) = None ->
  parser.parse (S fuel) src = Panic.
Proof.
  intros first Htype Hatoi.
  unfold parser.parse, parser.ParseProgram.
  rewrite (nil_line_panics fuel (S fuel) ∅ (parser.New (lexer.New src)));
    [reflexivity| |]; rewrite New_curToken; assumption.
Qed.

Lemma line_number_must_be_an_integer_witness :
  parser.parse 100 "1.5 PRINT 1" = Panic
  /\ parser.parse 100 "99999999999999999999 END" = Panic.
Proof.
  split.
  - exact (line_number_must_be_an_integer 99 "1.5 PRINT 1" eq_refl eq_refl).
  - apply (line_number_must_be_an_integer 99 "99999999999999999999 END");
      vm_compute; reflexivity.
Defined.


(** ** Arrays are never written *)

Section arrays_never_written.
Import evaluator.

(** The arrays of [e'] are arrays of [e], or have been made by DIM. *)
Definition arrays_kept (e e' : Evaluator) : Prop :=
  forall name arr,
    GetArray name (env e') = Some arr ->
    Elements arr = ∅ \/ GetArray name (env e) = Some arr.

Lemma arrays_kept_same (e e' : Evaluator) :
  arrays (env e') = arrays (env e) -> arrays_kept e e'.
Proof. intros H name arr. unfold GetArray. rewrite H. auto. Qed.

Lemma arrays_kept_trans (e1 e2 e3 : Evaluator) :
  arrays_kept e1 e2 -> arrays_kept e2 e3 -> arrays_kept e1 e3.
Proof.
  intros H12 H23 name arr H. destruct (H23 name arr H) as [Hnew|Hold]; auto.
Qed.

Lemma arrays_kept_empty (e e' : Evaluator) :
  arrays_kept e e' -> arrays_empty e -> arrays_empty e'.
Proof.
  intros Hkept Hempty name arr H.
  destruct (Hkept name arr H) as [Hnew|Hold]; [exact Hnew|].
  exact (Hempty name arr Hold).
Qed.

Ltac same_arrays H :=
  repeat match type of H with
         | context [match evalExpression ?x ?e with _ => _ end] =>
             destruct (evalExpression x e) as [[?|?]|?|]
         | context [match ?o with Some _ => _ | None => _ end] =>
             destruct o
         | context [if ?b then _ else _] => destruct b
         end;
  cbn in H; injection H as <- <-; try (apply arrays_kept_same; reflexivity).

Lemma print_loop_arrays (exprs : list Expression) (seps : list string) :
  forall i e e' r,
    evalPrintStatement_loop i exprs seps e = (e', r) -> arrays_kept e e'.
Proof.
  induction exprs as [|expr rest IH]; intros i e e' r H; cbn in H.
  - injection H as <- <-. apply arrays_kept_same. reflexivity.
  - destruct (evalExpression expr e) as [val|err|].
    + apply IH in H. refine (arrays_kept_trans e _ e' _ H).
      destruct (seps !! i); apply arrays_kept_same; reflexivity.
    + injection H as <- <-. apply arrays_kept_same. reflexivity.
    + injection H as <- <-. apply arrays_kept_same. reflexivity.
Qed.

Lemma print_arrays (exprs : list Expression) (seps : list string) (nl : bool)
    (e e' : Evaluator) r :
  evalPrintStatement exprs seps nl e = (e', r) -> arrays_kept e e'.
Proof.
  unfold evalPrintStatement. intros H. destruct exprs as [|expr rest].
  - injection H as <- <-. apply arrays_kept_same. reflexivity.
  - destruct (evalPrintStatement_loop 0 (expr :: rest) seps e) as [e1 r1] eqn:Hloop.
    apply print_loop_arrays in Hloop.
    destruct r1 as [[]|err|]; injection H as <- <-; try exact Hloop.
    refine (arrays_kept_trans e e1 _ Hloop _).
    destruct nl; apply arrays_kept_same; reflexivity.
Qed.

Lemma input_loop_arrays (values : list string) (vars : list string) :
  forall i env, arrays (evalInputStatement_loop i vars values env) = arrays env.
Proof.
  induction vars as [|var vars IH]; intros i env; cbn; [reflexivity|].
  rewrite IH. destruct (values !! i); reflexivity.
Qed.

Lemma input_arrays (prompt : string) (vars : list string) (e e' : Evaluator) r :
  evalInputStatement prompt vars e = (e', r) -> arrays_kept e e'.
Proof.
  unfold evalInputStatement. intros H.
  set (e1 := if String.eqb prompt "" then e else _) in H.
  assert (H1 : arrays (env e1) = arrays (env e)).
  { subst e1. destruct (String.eqb prompt ""); [reflexivity|].
    destruct (HasSuffix prompt " "); reflexivity. }
  destruct (ReadString (reader (env e1)) "") as [[input rest]|];
    injection H as <- <-; apply arrays_kept_same; cbn;
    rewrite ?input_loop_arrays; exact H1.
Qed.

Lemma next_arrays (variable : option string) (e e' : Evaluator) r :
  evalNextStatement variable e = (e', r) -> arrays_kept e e'.
Proof.
  unfold evalNextStatement.
  set (picked := match variable with Some name => (name, e) | None => first_key e end).
  assert (Hpicked : arrays (env (snd picked)) = arrays (env e)).
  { subst picked. destruct variable; reflexivity. }
  destruct picked as [varName e1]. cbn in Hpicked. intros H.
  apply arrays_kept_same. rewrite <- Hpicked.
  destruct (String.eqb varName ""); [injection H as <- <-; reflexivity|].
  destruct (forLoops e1 !! varName) as [loopState|];
    [|injection H as <- <-; reflexivity].
  destruct (Get varName (env e1)) as [[numVal|s]|];
    try (injection H as <- <-; reflexivity).
  destruct (if (0 <? Step loopState)%float then _ else _);
    injection H as <- <-; reflexivity.
Qed.

(** No statement stores an element: DIM binds an empty array, and every
    other statement leaves the arrays as they are. *)
Lemma evalStatement_arrays (stmt : Statement) :
  forall e e' r, evalStatement stmt e = (e', r) -> arrays_kept e e'.
Proof.
  induction stmt as [c s alt IHs IHalt|stmts IHstmts|s Hnot_if Hnot_seq]
    using Statement_nested_ind; intros e e' r H.
  - cbn in H. unfold evalIfStatement in H.
    destruct (evalExpression c e) as [cond|err|].
    + destruct (isTruthy cond); [exact (IHs e e' r H)|].
      destruct alt as [a|]; [exact (IHalt a eq_refl e e' r H)|].
      injection H as <- <-. apply arrays_kept_same. reflexivity.
    + injection H as <- <-. apply arrays_kept_same. reflexivity.
    + injection H as <- <-. apply arrays_kept_same. reflexivity.
  - cbn in H. revert e H.
    induction IHstmts as [|s rest IHs _ IHrest]; intros e H; cbn in H.
    + injection H as <- <-. apply arrays_kept_same. reflexivity.
    + destruct (evalStatement s e) as [e1 r1] eqn:Hs.
      pose proof (IHs e e1 r1 Hs) as H1.
      destruct r1 as [[]|err|].
      * exact (arrays_kept_trans e e1 e' H1 (IHrest e1 H)).
      * injection H as <- <-. exact H1.
      * injection H as <- <-. exact H1.
  - destruct s; cbn in H;
      try (exfalso; eapply Hnot_if; reflexivity);
      try (exfalso; eapply Hnot_seq; reflexivity).
    + exact (print_arrays _ _ _ _ _ _ H).
    + unfold evalLetStatement in H. same_arrays H.
    + unfold evalGotoStatement in H. same_arrays H.
    + unfold evalGosubStatement in H. cbv zeta in H. same_arrays H.
    + unfold evalReturnStatement in H. same_arrays H.
    + unfold evalForStatement in H. same_arrays H.
    + exact (next_arrays _ _ _ _ H).
    + exact (input_arrays _ _ _ _ _ H).
    + injection H as <- <-. apply arrays_kept_same. reflexivity.
    + injection H as <- <-. apply arrays_kept_same. reflexivity.
    + unfold evalDimStatement in H. same_arrays H.
      intros other arr. unfold GetArray. cbn.
      match goal with
      | |- <[?declared := _]> _ !! _ = _ -> _ =>
          destruct (decide (declared = other)) as [->|Hne]
      end.
      * rewrite lookup_insert_eq. intros [= <-]. left. reflexivity.
      * rewrite lookup_insert_ne by exact Hne. auto.
    + same_arrays H.
    + injection H as <- <-. apply arrays_kept_same. reflexivity.
Qed.

Lemma step_arrays (e e' : Evaluator) r :
  step e = (e', r) -> arrays_kept e e'.
Proof.
  unfold step. intros H.
  destruct (currentLine e <? 0);
    [injection H as <- <-; apply arrays_kept_same; reflexivity|].
  destruct (lines e !! Z.to_nat (currentLine e)) as [lineNum|];
    [|injection H as <- <-; apply arrays_kept_same; reflexivity].
  destruct (Statements (program e) !! lineNum) as [stmt|].
  - destruct (evalStatement stmt e) as [e1 r1] eqn:Hs.
    apply evalStatement_arrays in Hs.
    destruct r1 as [[]|err|]; injection H as <- <-; exact Hs.
  - cbn in H. injection H as <- <-. apply arrays_kept_same. reflexivity.
Qed.

Lemma Run_loop_arrays (turns : nat) :
  forall e, arrays_kept e (fst (Run_loop turns e)).
Proof.
  induction turns as [|turns IH]; intros e; cbn [Run_loop];
    destruct (running e); try (apply arrays_kept_same; reflexivity).
  destruct (step e) as [e1 r1] eqn:Hstep. apply step_arrays in Hstep.
  destruct r1 as [[]|err|]; try exact Hstep.
  exact (arrays_kept_trans e e1 _ Hstep (IH e1)).
Qed.

End arrays_never_written.

(** No statement stores an element into an array: after any number of
    turns of any program on any input, every array that DIM has declared is
    empty, and reading an element of it, at any index that is a Number,
    gives 0. *)
Theorem arrays_are_never_written (program : Program) (stdin : string)
    (starts : list nat) (turns : nat) :
  let e := fst (evaluator.Run turns (evaluator.New program stdin starts)) in
  arrays_empty e
  /\ forall name index n,
       is_Some (evaluator.GetArray name (evaluator.env e)) ->
       evaluator.evalExpression index e = Returns (evaluator.NumberValue n) ->
       evaluator.evalExpression (ArrayAccess name index) e
       = Returns (evaluator.NumberValue 0%float).
Proof.
  intros e.
  assert (Hempty : arrays_empty e).
  { subst e. unfold evaluator.Run.
    set (e0 := evaluator.New program stdin starts).
    assert (H0 : arrays_empty e0).
    { intros name arr H. unfold evaluator.GetArray in H. cbn in H.
      rewrite lookup_empty in H. discriminate H. }
    destruct (evaluator.lines e0); [exact H0|].
    refine (arrays_kept_empty _ _ (Run_loop_arrays turns _) _).
    exact H0. }
  split; [exact Hempty|].
  intros name index n [arr Harr] Hindex. cbn [evaluator.evalExpression].
  rewrite Harr, Hindex, (Hempty name arr Harr), lookup_empty. reflexivity.
Qed.
